(** * gedcom2excel: the depth repair pass and the relationship linker

    A shallow embedding of [src/ged2excel.py].

    - [repair_gedcom_numbering] (lines 11-36) is the loop over the lines of
      the input file; the embedding takes the lines as the file iterator
      yields them and returns what was written, together with the exception
      that ended the loop, if one did.
    - [gedcom_to_excel] (lines 50-416) is embedded as far as the
      relationship index goes: the individuals pass (lines 135-217), the
      families pass (lines 220-267) and the update of the individuals'
      relationship columns (lines 372-386).
    - The tables of [gedcom_to_excel] (lines 59-386) are embedded in full
      as well, each a dict from column names to lists: [build_tables] runs
      the header loop, the individuals pass with its event records, the
      families pass, the loops for sources, notes, multimedia, associations
      and submitters, and the update, in the order of the source.

    A Python [str] is a sequence of Unicode code points: [str] below is
    [list N].  Python's [int] is unbounded: levels are in [Z].  The
    interpreter's optional cap on the number of digits of an integer
    conversion ([sys.set_int_max_str_digits]) is taken as disabled. *)

From Stdlib Require Import ZArith NArith Lia Ascii String.
From stdpp Require Import base option list gmap.

Local Open Scope Z_scope.

(** ** Strings *)

Abbreviation str := (list N).

(** [u "0 HEAD"] is the Python string with the code points of the literal. *)
Definition u (s : string) : str :=
  List.map N_of_ascii (list_ascii_of_string s).

(** [str.isspace] of one code point (CPython's [_PyUnicode_IsWhitespace]):
    the characters [str.strip()] removes. *)
Definition py_isspace (c : N) : bool :=
  ((9 <=? c) && (c <=? 13) || (28 <=? c) && (c <=? 32) || (c =? 133) ||
   (c =? 160) || (c =? 5760) || (8192 <=? c) && (c <=? 8202) ||
   (c =? 8232) || (c =? 8233) || (c =? 8239) || (c =? 8287) ||
   (c =? 12288))%N.

(** The C-locale [isspace] that [int] uses on the ASCII form of its
    argument ([Py_ISSPACE]). *)
Definition c_isspace (c : N) : bool :=
  ((9 <=? c) && (c <=? 13) || (c =? 32))%N.

Fixpoint lstrip (s : str) : str :=
  match s with
  | [] => []
  | c :: r => if py_isspace c then lstrip r else s
  end.

Definition rstrip (s : str) : str := rev (lstrip (rev s)).

(** [line.strip()] *)
Definition strip (s : str) : str := rstrip (lstrip s).

(** The first occurrence of the separator [' ']: the text before it and the
    text after it. *)
Fixpoint find_space (s : str) : option (str * str) :=
  match s with
  | [] => None
  | c :: r =>
      if (c =? 32)%N then Some ([], r)
      else match find_space r with
           | Some (a, b) => Some (c :: a, b)
           | None => None
           end
  end.

(** [s.split(' ', maxsplit)] *)
Fixpoint split_space (maxsplit : nat) (s : str) : list str :=
  match maxsplit with
  | O => [s]
  | S m =>
      match find_space s with
      | Some (a, b) => a :: split_space m b
      | None => [s]
      end
  end.

(** [sep.join(xs)] *)
Fixpoint join (sep : str) (xs : list str) : str :=
  match xs with
  | [] => []
  | [x] => x
  | x :: r => x ++ sep ++ join sep r
  end.

(** ** Integers and their decimal form *)

(** The decimal digits of [n], most significant first, before [acc]. *)
Fixpoint digits_of (fuel : nat) (n : N) (acc : str) : str :=
  match fuel with
  | O => acc
  | S f =>
      let acc' := (48 + n mod 10)%N :: acc in
      if (n <? 10)%N then acc' else digits_of f (n / 10)%N acc'
  end.

Definition str_of_N (n : N) : str :=
  digits_of (S (N.to_nat (N.log2 n))) n [].

(** [str(level)], which is what [f"{level}"] formats. *)
Definition str_of_int (z : Z) : str :=
  match z with
  | Zneg p => 45%N :: str_of_N (Npos p)
  | _ => str_of_N (Z.to_N z)
  end.

(** The Unicode database's decimal-digit table ([Py_UNICODE_TODECIMAL]),
    consulted by [int] for the code points outside ASCII.  It changes with
    the Unicode version the interpreter ships, and is a parameter. *)
Class UnicodeData := to_decimal : N → option N.

Definition digit_value (c : N) : option Z :=
  if ((48 <=? c) && (c <=? 57))%N then Some (Z.of_N (c - 48)) else None.

Section Int.
Context `{!UnicodeData}.

(** [_PyUnicode_TransformDecimalAndSpaceToASCII]: ASCII is kept, any other
    white space becomes [' '], any other decimal digit its ASCII digit, and
    the first character that is none of these becomes ['?'] and ends the
    text. *)
Fixpoint transform (s : str) : str :=
  match s with
  | [] => []
  | c :: r =>
      if (c <? 128)%N then c :: transform r
      else if py_isspace c then 32%N :: transform r
      else match to_decimal c with
           | Some d => (48 + d)%N :: transform r
           | None => [63%N]
           end
  end.

(** The digits after the first one: a single ['_'] may separate two
    digits.  Returns the value and the text that follows the number. *)
Fixpoint scan_digits (acc : Z) (prev_underscore : bool) (s : str)
  : option (Z * str) :=
  match s with
  | [] => if prev_underscore then None else Some (acc, [])
  | c :: r =>
      match digit_value c with
      | Some d => scan_digits (10 * acc + d) false r
      | None =>
          if (c =? 95)%N then
            if prev_underscore then None else scan_digits acc true r
          else if prev_underscore then None else Some (acc, s)
      end
  end.

Fixpoint skip_c_space (s : str) : str :=
  match s with
  | [] => []
  | c :: r => if c_isspace c then skip_c_space r else s
  end.

Definition unsigned_literal (s : str) : option Z :=
  match s with
  | [] => None
  | c :: r =>
      match digit_value c with
      | Some d =>
          match scan_digits d false r with
          | Some (n, rest) =>
              match skip_c_space rest with
              | [] => Some n
              | _ => None
              end
          | None => None
          end
      | None => None
      end
  end.

(** [int(s)] for a [str] in base 10; [None] is [ValueError]. *)
Definition py_int (s : str) : option Z :=
  match skip_c_space (transform s) with
  | c :: r =>
      if (c =? 43)%N then unsigned_literal r
      else if (c =? 45)%N then Z.opp <$> unsigned_literal r
      else unsigned_literal (c :: r)
  | [] => None
  end.
End Int.

(** ** The depth repair pass *)

Inductive exn := IndexError.

(** [xs[i]] on a Python list, for [0 <= i]. *)
Definition getitem {A} (xs : list A) (i : nat) : exn + A :=
  match xs !! i with
  | Some x => inr x
  | None => inl IndexError
  end.

(** [xs[i] = x] on a Python list, for [0 <= i]. *)
Definition setitem {A} (xs : list A) (i : nat) (x : A) : exn + list A :=
  if decide (i < length xs)%nat then inr (<[i:=x]> xs) else inl IndexError.

(** Sequencing of statements that may raise. *)
Definition bind_exn {A B} (m : exn + A) (k : A → exn + B) : exn + B :=
  match m with
  | inl e => inl e
  | inr a => k a
  end.

Notation "'do' x <- m ; k" := (bind_exn m (λ x, k))
  (at level 10, x name, m at level 100, k at level 200,
   format "'[v' 'do'  x  <-  m ; '/' k ']'").

(** One corrected line as written: the value of [level] at the write and
    the text handed to [outfile.write]. *)
Record written := Written { w_level : Z; w_text : str }.

Section Repair.
Context `{!UnicodeData}.

(** Lines 22-25: the parsed depth, or the fallback on [ValueError]. *)
Definition parse_level (previous_level : Z) (part0 : str) : Z :=
  match py_int part0 with
  | Some n => n
  | None => if 0 <=? previous_level then previous_level + 1 else 0
  end.

(** Lines 26-29. *)
Definition clamp_level (previous_level level : Z) : Z :=
  if previous_level + 1 <? level then previous_level + 1
  else if level <? 0 then 0
  else level.

(** Lines 30-33. *)
Definition format_line (level : Z) (parts : list str) : exn + str :=
  if decide (length parts = 3%nat) then
    match getitem parts 1, getitem parts 2 with
    | inr p1, inr p2 => inr (str_of_int level ++ u " " ++ p1 ++ u " " ++ p2)
    | inl e, _ | _, inl e => inl e
    end
  else
    match getitem parts 1 with
    | inr p1 => inr (str_of_int level ++ u " " ++ p1)
    | inl e => inl e
    end.

(** Lines 22-29: the value of [level] once parsed and clamped. *)
Definition corrected_level (previous_level : Z) (parts : list str) : exn + Z :=
  do part0 <- getitem parts 0;
  inr (clamp_level previous_level (parse_level previous_level part0)).

(** The body of the loop for a line that is not blank (lines 21-35):
    the level and the line written, or the exception raised. *)
Definition repair_line (previous_level : Z) (line : str) : exn + written :=
  let parts := split_space 2 line in
  do level <- corrected_level previous_level parts;
  do repaired_line <- format_line level parts;
  inr (Written level (repaired_line ++ [10%N])).

(** The loop of lines 17-35 from the state [previous_level]: the lines
    written, in order, and the exception that ended the loop, if any. *)
Fixpoint repair_loop (previous_level : Z) (infile : list str)
  : list written * option exn :=
  match infile with
  | [] => ([], None)
  | line :: rest =>
      let line := strip line in
      match line with
      | [] => repair_loop previous_level rest
      | _ =>
          match repair_line previous_level line with
          | inl e => ([], Some e)
          | inr w =>
              let '(out, r) := repair_loop (w_level w) rest in
              (w :: out, r)
          end
      end
  end.

(** [repair_gedcom_numbering]: [previous_level] starts at [-1]. *)
Definition repair_gedcom_numbering (infile : list str)
  : list written * option exn :=
  repair_loop (-1) infile.

(** The lines of the output file. *)
Definition outfile (infile : list str) : list str :=
  w_text <$> (repair_gedcom_numbering infile).1.
End Repair.

(** The depth marker an output line carries, read back as the pass reads
    a line: the integer value of the text before its first [' ']. *)
Definition depth_of_text `{!UnicodeData} (text : str) : option Z :=
  match split_space 2 (strip text) with
  | part0 :: _ => py_int part0
  | [] => None
  end.

(** In the words of the spec (4.1, step 2): the first whitespace-delimited
    token of a line, as [line.split()[0]] would give it. *)
Fixpoint until_space (s : str) : str :=
  match s with
  | [] => []
  | c :: r => if py_isspace c then [] else c :: until_space r
  end.

Definition first_token (line : str) : str := until_space (lstrip line).

(** A blank line: nothing is left of it once stripped. *)
Definition blank (line : str) : bool :=
  match strip line with
  | [] => true
  | _ => false
  end.

(** A table for running examples: no decimal digit outside ASCII. *)
Definition ascii_digits : UnicodeData := λ _, None.

(** ** The relationship linker *)

(** [sanitize_string] (lines 38-48) on a [str]: the control characters of
    the pattern [[\x00-\x08\x0B\x0C\x0E-\x1F]] are removed, then ['^']
    becomes [' '] and the middle dot ['.']. *)
Definition is_control (c : N) : bool :=
  ((c <=? 8) || (c =? 11) || (c =? 12) || (14 <=? c) && (c <=? 31))%N.

Definition replace_char (old new : N) (s : str) : str :=
  (λ c, if (c =? old)%N then new else c) <$> s.

Definition sanitize_string (text : str) : str :=
  replace_char 183 46 (replace_char 94 32 (filter (λ c, is_control c = false) text)).

(** The class the parser gave an element ([isinstance]). *)
Inductive element_class := IndividualElement | FamilyElement | PlainElement.

(** An element of the parsed tree, by what its methods return.  [get_name]
    is the tuple [(given name, surname)] of an individual. *)
#[warnings="-register-all"]
Inductive Element := mkElement {
  class_of : element_class;
  get_pointer : str;
  get_tag : str;
  get_value : str;
  get_name : str * str;
  get_child_elements : list Element
}.

#[global] Instance element_class_eq_dec : EqDecision element_class.
Proof. solve_decision. Defined.

(** The columns of [individuals_data] that the linker reads or writes. *)
Record individuals_data := mkIndividuals {
  col_ID : list str;
  col_Name : list str;
  col_Father_ID : list str;
  col_Mother_ID : list str;
  col_Father_Name : list str;
  col_Mother_Name : list str;
  col_Spouse_ID : list str;
  col_Spouse_Name : list str;
  col_Children_IDs : list str;
  col_Children_Names : list str
}.

Definition no_individuals : individuals_data :=
  mkIndividuals [] [] [] [] [] [] [] [] [] [].

(** Line 138: a tuple of two is true, so the name is always the given name,
    a space and the surname. *)
Definition display_name (element : Element) : str :=
  (get_name element).1 ++ u " " ++ (get_name element).2.

(** One turn of the loop of lines 135-217: [id_to_name] and the table. *)
Definition add_individual (st : gmap str str * individuals_data) (element : Element)
  : gmap str str * individuals_data :=
  if decide (class_of element = IndividualElement) then
    let id := get_pointer element in
    let name := display_name element in
    let t := st.2 in
    (<[id := name]> st.1,
     {| col_ID := col_ID t ++ [sanitize_string id];
        col_Name := col_Name t ++ [sanitize_string name];
        col_Father_ID := col_Father_ID t ++ [[]];
        col_Mother_ID := col_Mother_ID t ++ [[]];
        col_Father_Name := col_Father_Name t ++ [[]];
        col_Mother_Name := col_Mother_Name t ++ [[]];
        col_Spouse_ID := col_Spouse_ID t ++ [[]];
        col_Spouse_Name := col_Spouse_Name t ++ [[]];
        col_Children_IDs := col_Children_IDs t ++ [[]];
        col_Children_Names := col_Children_Names t ++ [[]] |})
  else st.

Definition individuals_pass (elements : list Element)
  : gmap str str * individuals_data :=
  foldl add_individual (∅, no_individuals) elements.

(** What the loop of lines 230-258 leaves in [husband_id], [wife_id] and
    [children_ids]. *)
Record family := mkFamily {
  husband_id : str;
  wife_id : str;
  children_ids : list str
}.

Definition read_child (f : family) (child : Element) : family :=
  if decide (get_tag child = u "HUSB") then
    mkFamily (get_value child) (wife_id f) (children_ids f)
  else if decide (get_tag child = u "WIFE") then
    mkFamily (husband_id f) (get_value child) (children_ids f)
  else if decide (get_tag child = u "CHIL") then
    mkFamily (husband_id f) (wife_id f) (children_ids f ++ [get_value child])
  else f.

Definition read_family (element : Element) : family :=
  foldl read_child (mkFamily [] [] []) (get_child_elements element).

(** The relationship index. *)
Record rel_index := mkIndex {
  child_to_parents : gmap str (str * str);
  id_to_spouses : gmap str (list str);
  id_to_children : gmap str (list str)
}.

Definition empty_index : rel_index := mkIndex ∅ ∅ ∅.

(** [d.setdefault(k, []).append(x)] and [d.setdefault(k, []).extend(xs)]. *)
Definition setdefault_extend (k : str) (xs : list str) (d : gmap str (list str))
  : gmap str (list str) :=
  <[k := default [] (d !! k) ++ xs]> d.

(** [if s:] for a [str]. *)
Definition truthy (s : str) : bool :=
  match s with
  | [] => false
  | _ => true
  end.

(** Lines 260-267 for one family. *)
Definition link_family (ix : rel_index) (f : family) : rel_index :=
  let parents :=
    foldl (λ m child_id, <[child_id := (husband_id f, wife_id f)]> m)
          (child_to_parents ix) (children_ids f) in
  let '(spouses, children) :=
    if truthy (husband_id f) then
      (setdefault_extend (husband_id f) [wife_id f] (id_to_spouses ix),
       setdefault_extend (husband_id f) (children_ids f) (id_to_children ix))
    else (id_to_spouses ix, id_to_children ix) in
  let '(spouses, children) :=
    if truthy (wife_id f) then
      (setdefault_extend (wife_id f) [husband_id f] spouses,
       setdefault_extend (wife_id f) (children_ids f) children)
    else (spouses, children) in
  mkIndex parents spouses children.

(** The family records of the element list, in file order. *)
Definition families_of (elements : list Element) : list family :=
  read_family <$> filter (λ e, class_of e = FamilyElement) elements.

(** The loop of lines 220-267, as far as the index goes. *)
Definition families_pass (elements : list Element) : rel_index :=
  foldl link_family empty_index (families_of elements).

(** [id_to_name.get(id, "")] *)
Definition name_of (id_to_name : gmap str str) (id : str) : str :=
  default [] (id_to_name !! id).

(** Lines 373-386 for the row [i], whose id is [indiv_id]. *)
Definition update_row (id_to_name : gmap str str) (ix : rel_index)
    (i : nat) (indiv_id : str) (t : individuals_data) : exn + individuals_data :=
  do t <- match child_to_parents ix !! indiv_id with
          | Some (father_id, mother_id) =>
              do fi <- setitem (col_Father_ID t) i (sanitize_string father_id);
              do mi <- setitem (col_Mother_ID t) i (sanitize_string mother_id);
              do fn <- setitem (col_Father_Name t) i
                         (sanitize_string (name_of id_to_name father_id));
              do mn <- setitem (col_Mother_Name t) i
                         (sanitize_string (name_of id_to_name mother_id));
              inr (mkIndividuals (col_ID t) (col_Name t) fi mi fn mn
                     (col_Spouse_ID t) (col_Spouse_Name t)
                     (col_Children_IDs t) (col_Children_Names t))
          | None => inr t
          end;
  do t <- match id_to_spouses ix !! indiv_id with
          | Some spouse_ids =>
              do si <- setitem (col_Spouse_ID t) i
                         (sanitize_string (join (u ", ") spouse_ids));
              do sn <- setitem (col_Spouse_Name t) i
                         (sanitize_string
                            (join (u ", ") (name_of id_to_name <$> spouse_ids)));
              inr (mkIndividuals (col_ID t) (col_Name t)
                     (col_Father_ID t) (col_Mother_ID t)
                     (col_Father_Name t) (col_Mother_Name t) si sn
                     (col_Children_IDs t) (col_Children_Names t))
          | None => inr t
          end;
  match id_to_children ix !! indiv_id with
  | Some children_ids =>
      do ci <- setitem (col_Children_IDs t) i
                 (sanitize_string (join (u ", ") children_ids));
      do cn <- setitem (col_Children_Names t) i
                 (sanitize_string
                    (join (u ", ") (name_of id_to_name <$> children_ids)));
      inr (mkIndividuals (col_ID t) (col_Name t)
             (col_Father_ID t) (col_Mother_ID t)
             (col_Father_Name t) (col_Mother_Name t)
             (col_Spouse_ID t) (col_Spouse_Name t) ci cn)
  | None => inr t
  end.

(** The loop of lines 372-386 over [enumerate(individuals_data['ID'])],
    from the row [i] on. *)
Fixpoint update_rows (id_to_name : gmap str str) (ix : rel_index)
    (i : nat) (ids : list str) (t : individuals_data) : exn + individuals_data :=
  match ids with
  | [] => inr t
  | indiv_id :: rest =>
      do t <- update_row id_to_name ix i indiv_id t;
      update_rows id_to_name ix (S i) rest t
  end.

Definition update_individuals (id_to_name : gmap str str) (ix : rel_index)
    (t : individuals_data) : exn + individuals_data :=
  update_rows id_to_name ix 0 (col_ID t) t.

(** The three passes in the order [gedcom_to_excel] runs them. *)
Definition link_relationships (elements : list Element) : exn + individuals_data :=
  let '(id_to_name, t) := individuals_pass elements in
  update_individuals id_to_name (families_pass elements) t.


(** ** Predicates and functions of the statements *)

(** A stripped text: [strip] has nothing to remove at either end. *)
Definition stripped (s : str) : Prop := lstrip s = s ∧ lstrip (rev s) = rev s.

(** A decimal digit of ASCII. *)
Definition is_digit (c : N) : Prop := (48 ≤ c ≤ 57)%N.

(** The value of a run of digits read after [acc]. *)
Definition value (acc : Z) (ds : str) : Z :=
  foldl (λ a c, 10 * a + Z.of_N (c - 48)) acc ds.

(** Each depth is between [0] and one more than the depth before it,
    starting after [previous]. *)
Fixpoint depths_ok (previous : Z) (ds : list Z) : Prop :=
  match ds with
  | [] => True
  | d :: r => 0 ≤ d ≤ previous + 1 ∧ depths_ok d r
  end.

(** [x] is in the spouse list of [k]. *)
Definition has_spouse (ix : rel_index) (k x : str) : Prop :=
  ∃ l, id_to_spouses ix !! k = Some l ∧ x ∈ l.

(** Every column the update writes has [n] rows, as the id column has. *)
Definition rows (t : individuals_data) (n : nat) : Prop :=
  length (col_ID t) = n ∧
  length (col_Father_ID t) = n ∧ length (col_Mother_ID t) = n ∧
  length (col_Father_Name t) = n ∧ length (col_Mother_Name t) = n ∧
  length (col_Spouse_ID t) = n ∧ length (col_Spouse_Name t) = n ∧
  length (col_Children_IDs t) = n ∧ length (col_Children_Names t) = n.

(** The relationship columns as the individuals pass leaves them. *)
Definition unlinked (t : individuals_data) : Prop :=
  let empty := replicate (length (col_ID t)) [] in
  col_Father_ID t = empty ∧ col_Mother_ID t = empty ∧
  col_Father_Name t = empty ∧ col_Mother_Name t = empty ∧
  col_Spouse_ID t = empty ∧ col_Spouse_Name t = empty ∧
  col_Children_IDs t = empty ∧ col_Children_Names t = empty.

(** One column under the loop: the row [i] takes the value [g] gives for
    its id, if it gives one. *)
Definition set_opt (i : nat) (v : option str) (col : list str) : list str :=
  match v with
  | Some x => <[i := x]> col
  | None => col
  end.

Fixpoint set_all (i : nat) (g : str → option str) (ids : list str)
    (col : list str) : list str :=
  match ids with
  | [] => col
  | id :: rest => set_all (S i) g rest (set_opt i (g id) col)
  end.

(** The values the update gives the row of [id], column by column. *)
Section NewValues.
Context (id_to_name : gmap str str) (ix : rel_index).

Definition new_father_id (id : str) : option str :=
  (λ p, sanitize_string p.1) <$> child_to_parents ix !! id.
Definition new_mother_id (id : str) : option str :=
  (λ p, sanitize_string p.2) <$> child_to_parents ix !! id.
Definition new_father_name (id : str) : option str :=
  (λ p, sanitize_string (name_of id_to_name p.1)) <$> child_to_parents ix !! id.
Definition new_mother_name (id : str) : option str :=
  (λ p, sanitize_string (name_of id_to_name p.2)) <$> child_to_parents ix !! id.
Definition new_spouse_id (id : str) : option str :=
  (λ l, sanitize_string (join (u ", ") l)) <$> id_to_spouses ix !! id.
Definition new_spouse_name (id : str) : option str :=
  (λ l, sanitize_string (join (u ", ") (name_of id_to_name <$> l)))
    <$> id_to_spouses ix !! id.
Definition new_children_ids (id : str) : option str :=
  (λ l, sanitize_string (join (u ", ") l)) <$> id_to_children ix !! id.
Definition new_children_names (id : str) : option str :=
  (λ l, sanitize_string (join (u ", ") (name_of id_to_name <$> l)))
    <$> id_to_children ix !! id.

(** The table after the rows [i], [i+1], ... of [ids] were updated. *)
Definition updated (i : nat) (ids : list str) (t t' : individuals_data) : Prop :=
  col_ID t' = col_ID t ∧ col_Name t' = col_Name t ∧
  col_Father_ID t' = set_all i new_father_id ids (col_Father_ID t) ∧
  col_Mother_ID t' = set_all i new_mother_id ids (col_Mother_ID t) ∧
  col_Father_Name t' = set_all i new_father_name ids (col_Father_Name t) ∧
  col_Mother_Name t' = set_all i new_mother_name ids (col_Mother_Name t) ∧
  col_Spouse_ID t' = set_all i new_spouse_id ids (col_Spouse_ID t) ∧
  col_Spouse_Name t' = set_all i new_spouse_name ids (col_Spouse_Name t) ∧
  col_Children_IDs t' = set_all i new_children_ids ids (col_Children_IDs t) ∧
  col_Children_Names t' =
    set_all i new_children_names ids (col_Children_Names t).

End NewValues.

(** Elements for the examples: a line [1 TAG value] under a record, and a
    family record [0 @F@ FAM] with its lines. *)
Definition line_of (tag value : string) : Element :=
  mkElement PlainElement [] (u tag) (u value) ([], []) [].

Definition fam_of (pointer : string) (lines : list Element) : Element :=
  mkElement FamilyElement (u pointer) (u "FAM") [] ([], []) lines.

Definition indi_of (pointer given surname : string) : Element :=
  mkElement IndividualElement (u pointer) (u "INDI") [] (u given, u surname) [].

(** The text after the first [' '] of a line; nothing when it has none. *)
Definition after_first_space (s : str) : str :=
  match find_space s with
  | Some (_, b) => b
  | None => []
  end.

(** The value of [previous_level] once the lines [out] were written after
    a state [previous_level]. *)
Definition level_after (previous_level : Z) (out : list written) : Z :=
  default previous_level (w_level <$> last out).

(** A character [sanitize_string] neither removes nor replaces. *)
Definition kept_char (c : N) : Prop :=
  is_control c = false ∧ c ≠ 94%N ∧ c ≠ 183%N.

(** [k] is a present partner of the family [f]: its husband or its wife,
    and not the empty id. *)
Definition partner (k : str) (f : family) : Prop :=
  k ≠ [] ∧ (husband_id f = k ∨ wife_id f = k).

(** What the family [f] appends to the child list of [k], and to its
    spouse list: once as husband, then once as wife. *)
Definition children_from (k : str) (f : family) : list str :=
  (if decide (k ≠ [] ∧ husband_id f = k) then children_ids f else []) ++
  (if decide (k ≠ [] ∧ wife_id f = k) then children_ids f else []).

Definition spouses_from (k : str) (f : family) : list str :=
  (if decide (k ≠ [] ∧ husband_id f = k) then [wife_id f] else []) ++
  (if decide (k ≠ [] ∧ wife_id f = k) then [husband_id f] else []).

(** The individual records of the element list, in file order. *)
Definition individuals_of (elements : list Element) : list Element :=
  filter (λ e, class_of e = IndividualElement) elements.

(** ** The tables of [gedcom_to_excel]

    The whole of lines 59-386: the nine tables, each a dict from column
    names to lists, and the passes that fill them.  [None] stands for an
    exception: a [KeyError] on a column that is not in the dict, or an
    [IndexError] on a row that is not in a column. *)

Abbreviation table := (gmap str (list str)).

(** [{'A': [], 'B': [], ...}] *)
Definition new_table (columns : list string) : table :=
  list_to_map ((λ c, (u c, [])) <$> columns).

(** [d[col].append(v)] *)
Definition append (col : string) (v : str) (d : table) : option table :=
  l ← d !! u col; Some (<[u col := l ++ [v]]> d).

(** A run of statements [d[col].append(v)], in their order. *)
Fixpoint append_row (cells : list (string * str)) (d : table) : option table :=
  match cells with
  | [] => Some d
  | (col, v) :: rest => d' ← append col v d; append_row rest d'
  end.

(** [d[col][i] = v] *)
Definition set_cell (col : string) (i : nat) (v : str) (d : table) : option table :=
  l ← d !! u col;
  if decide (i < length l)%nat then Some (<[u col := <[i := v]> l]> d) else None.

(** A run of statements [d[col][i] = v], in their order. *)
Fixpoint set_cells (i : nat) (cells : list (string * str)) (d : table) : option table :=
  match cells with
  | [] => Some d
  | (col, v) :: rest => d' ← set_cell col i v d; set_cells i rest d'
  end.

Definition individuals_columns : list string :=
  ["ID"; "Name"; "Gender"; "Birth Date"; "Birth Place"; "Death Date";
   "Death Place"; "Father ID"; "Mother ID"; "Father Name"; "Mother Name";
   "Spouse ID"; "Spouse Name"; "Occupation"; "Education"; "Religion";
   "Nationality"; "Physical Description"; "SSN"; "Title"; "Cause of Death";
   "Residence"; "Children IDs"; "Children Names"; "Notes"; "Change Date";
   "Change Time"]%string.

Definition families_columns : list string :=
  ["Family ID"; "Husband ID"; "Husband Name"; "Wife ID"; "Wife Name";
   "Marriage Date"; "Marriage Place"; "Divorce Date"; "Divorce Place";
   "Engagement Date"; "Engagement Place"; "Marriage Contract Date";
   "Marriage Contract Place"; "Marriage Settlement Date";
   "Marriage Settlement Place"; "Children IDs"; "Children Names"; "Notes";
   "Change Date"; "Change Time"]%string.

Definition events_columns : list string :=
  ["Record ID"; "Record Type"; "Event Type"; "Date"; "Place"; "Cause";
   "Notes"; "Source IDs"]%string.

Definition sources_columns : list string :=
  ["Source ID"; "Title"; "Author"; "Publication"; "Page"; "Repository";
   "Data"; "Notes"]%string.

Definition notes_columns : list string :=
  ["Note ID"; "Text"; "Referenced By"]%string.

Definition multimedia_columns : list string :=
  ["Object ID"; "File"; "Format"; "Title"; "Notes"]%string.

Definition associations_columns : list string :=
  ["Individual ID"; "Associated ID"; "Relationship"; "Notes"]%string.

Definition submitter_columns : list string :=
  ["Submitter ID"; "Name"; "Address"; "Phone"; "Email"]%string.

Definition header_columns : list string :=
  ["Source Software"; "Source Version"; "Date"; "Character Set";
   "GEDCOM Version"]%string.

(** The local variables that hold a [str], by name. *)
Definition local (x : string) (v : gmap str str) : str := default [] (v !! u x).
Definition assign (x : string) (value : str) (v : gmap str str) : gmap str str :=
  <[u x := value]> v.

(** [a = b = ... = ""] *)
Definition assign_empty (xs : list string) (v : gmap str str) : gmap str str :=
  foldl (λ v x, assign x [] v) v xs.

(** [for sub in subs:] with a run of [if sub.get_tag() == tag: x =
    sub.get_value()], one for each pair [(tag, x)].  The tags of a run
    differ, so a run of [elif] does the same. *)
Definition read_subs (binds : list (string * string)) (subs : list Element)
    (v : gmap str str) : gmap str str :=
  foldl (λ v sub,
           foldl (λ v b, if decide (get_tag sub = u b.1)
                         then assign b.2 (get_value sub) v else v)
                 v binds)
        v subs.

(** [for sub in subs: if sub.get_tag() == tag: xs.append(sub.get_value())] *)
Definition collect (tag : string) (subs : list Element) (xs : list str) : list str :=
  foldl (λ xs sub, if decide (get_tag sub = u tag)
                   then xs ++ [get_value sub] else xs)
        xs subs.

Definition event_tags : list string :=
  ["BAPM"; "CHR"; "BURI"; "CREM"; "ADOP"; "GRAD"; "RETI"; "NATU"; "EMIG";
   "IMMI"; "CENS"; "WILL"; "PROB"; "CONF"; "FCOM"; "BARM"; "BASM"; "BAPL";
   "ENDL"; "SLGC"; "SLGS"]%string.

(** The [elif] chain of lines 155-162: a child whose tag is one of these
    gives its value to the variable beside it. *)
Definition indi_attributes : list (string * string) :=
  [("OCCU", "occupation"); ("EDUC", "education"); ("RELI", "religion");
   ("NATI", "nationality"); ("DSCR", "description"); ("SSN", "ssn");
   ("TITL", "title"); ("RESI", "residence")]%string.

(** Lines 181-188: the appends to [events_data], in their order. *)
Definition event_row (id event_type : str) (v : gmap str str)
    (source_ids : list str) : list (string * str) :=
  [("Record ID", id); ("Record Type", u "INDI");
   ("Event Type", event_type);
   ("Date", sanitize_string (local "date" v));
   ("Place", sanitize_string (local "place" v));
   ("Cause", sanitize_string (local "cause" v));
   ("Notes", sanitize_string (local "event_notes" v));
   ("Source IDs", sanitize_string (join (u ", ") source_ids))]%string.

(** One turn of the loop of lines 145-188 for the individual [id]: the
    variables, the notes and the events table. *)
Definition indi_child (id : str) (st : gmap str str * list str * table)
    (child : Element) : option (gmap str str * list str * table) :=
  let '(v, notes, events) := st in
  let subs := get_child_elements child in
  if decide (get_tag child = u "BIRT") then
    Some (read_subs [("DATE", "birth_date"); ("PLAC", "birth_place")]%string
            subs v, notes, events)
  else if decide (get_tag child = u "DEAT") then
    Some (read_subs [("DATE", "death_date"); ("PLAC", "death_place");
                     ("CAUS", "cause")]%string subs v, notes, events)
  else match find (λ b, bool_decide (get_tag child = u b.1)) indi_attributes with
  | Some b => Some (assign b.2 (get_value child) v, notes, events)
  | None =>
  if decide (get_tag child = u "NOTE") then
    Some (v, notes ++ [get_value child], events)
  else if decide (get_tag child = u "CHAN") then
    Some (read_subs [("DATE", "change_date"); ("TIME", "change_time")]%string
            subs v, notes, events)
  else if decide (get_tag child ∈ u <$> event_tags) then
    let event_type := get_tag child in
    let v := assign_empty ["date"; "place"; "cause"; "event_notes"]%string v in
    let v := read_subs [("DATE", "date"); ("PLAC", "place"); ("CAUS", "cause");
                        ("NOTE", "event_notes")]%string subs v in
    let source_ids := collect "SOUR" subs [] in
    events ← append_row (event_row id event_type v source_ids) events;
    Some (v, notes, events)
  else Some st
  end.

(** Sequencing a loop whose body may raise. *)
Fixpoint for_each {A S} (body : S → A → option S) (st : S) (xs : list A)
  : option S :=
  match xs with
  | [] => Some st
  | x :: rest => st' ← body st x; for_each body st' rest
  end.

(** Lines 140-143. *)
Definition indi_locals : gmap str str :=
  assign_empty ["birth_date"; "birth_place"; "death_date"; "death_place";
         "occupation"; "education"; "religion"; "nationality"; "description";
         "ssn"; "title"; "cause"; "residence"; "change_date";
         "change_time"]%string ∅.

(** The state of [gedcom_to_excel] that the passes share. *)
Record workbook := mkWorkbook {
  wb_id_to_name : gmap str str;
  wb_index : rel_index;
  wb_individuals : table;
  wb_families : table;
  wb_events : table;
  wb_sources : table;
  wb_notes : table;
  wb_multimedia : table;
  wb_associations : table;
  wb_submitter : table;
  wb_header : table
}.

(** Lines 59-111. *)
Definition new_workbook : workbook :=
  mkWorkbook ∅ empty_index
    (new_table individuals_columns) (new_table families_columns)
    (new_table events_columns) (new_table sources_columns)
    (new_table notes_columns) (new_table multimedia_columns)
    (new_table associations_columns) (new_table submitter_columns)
    (new_table header_columns).

(** Lines 191-217: the appends to [individuals_data], in their order. *)
Definition individual_row (id name gender : str) (v : gmap str str)
    (notes : list str) : list (string * str) :=
  [("ID", sanitize_string id); ("Name", sanitize_string name);
   ("Gender", sanitize_string gender);
   ("Birth Date", sanitize_string (local "birth_date" v));
   ("Birth Place", sanitize_string (local "birth_place" v));
   ("Death Date", sanitize_string (local "death_date" v));
   ("Death Place", sanitize_string (local "death_place" v));
   ("Occupation", sanitize_string (local "occupation" v));
   ("Education", sanitize_string (local "education" v));
   ("Religion", sanitize_string (local "religion" v));
   ("Nationality", sanitize_string (local "nationality" v));
   ("Physical Description", sanitize_string (local "description" v));
   ("SSN", sanitize_string (local "ssn" v));
   ("Title", sanitize_string (local "title" v));
   ("Cause of Death", sanitize_string (local "cause" v));
   ("Residence", sanitize_string (local "residence" v));
   ("Father ID", []); ("Mother ID", []); ("Father Name", []);
   ("Mother Name", []); ("Spouse ID", []); ("Spouse Name", []);
   ("Children IDs", []); ("Children Names", []);
   ("Notes", sanitize_string (join (u ", ") notes));
   ("Change Date", sanitize_string (local "change_date" v));
   ("Change Time", sanitize_string (local "change_time" v))]%string.

(** Lines 269-288: the appends to [families_data], in their order. *)
Definition family_row (fam_id husband_id wife_id : str)
    (children_ids : list str) (id_to_name : gmap str str) (v : gmap str str)
    (notes : list str) : list (string * str) :=
  [("Family ID", sanitize_string fam_id);
   ("Husband ID", sanitize_string husband_id);
   ("Husband Name", sanitize_string (name_of id_to_name husband_id));
   ("Wife ID", sanitize_string wife_id);
   ("Wife Name", sanitize_string (name_of id_to_name wife_id));
   ("Marriage Date", sanitize_string (local "marr_date" v));
   ("Marriage Place", sanitize_string (local "marr_place" v));
   ("Divorce Date", sanitize_string (local "div_date" v));
   ("Divorce Place", sanitize_string (local "div_place" v));
   ("Engagement Date", sanitize_string (local "eng_date" v));
   ("Engagement Place", sanitize_string (local "eng_place" v));
   ("Marriage Contract Date", sanitize_string (local "marc_date" v));
   ("Marriage Contract Place", sanitize_string (local "marc_place" v));
   ("Marriage Settlement Date", sanitize_string (local "mars_date" v));
   ("Marriage Settlement Place", sanitize_string (local "mars_place" v));
   ("Children IDs", sanitize_string (join (u ", ") children_ids));
   ("Children Names",
    sanitize_string (join (u ", ") (name_of id_to_name <$> children_ids)));
   ("Notes", sanitize_string (join (u ", ") notes));
   ("Change Date", sanitize_string (local "change_date" v));
   ("Change Time", sanitize_string (local "change_time" v))]%string.

Section Tables.
(** [element.get_gender()], a method of the parser's individuals. *)
Context (get_gender : Element → str).

(** Lines 114-132 for one element of the root. *)
Definition header_elem (header_data : table) (elem : Element) : option table :=
  if decide (get_tag elem = u "HEAD") then
    let v := assign_empty ["source"; "version"; "date"; "charset";
                    "gedc_version"]%string ∅ in
    let v :=
      foldl (λ v child,
               if decide (get_tag child = u "SOUR") then
                 read_subs [("VERS", "version")]%string
                   (get_child_elements child)
                   (assign "source" (get_value child) v)
               else if decide (get_tag child = u "DATE") then
                 assign "date" (get_value child) v
               else if decide (get_tag child = u "CHAR") then
                 assign "charset" (get_value child) v
               else if decide (get_tag child = u "GEDC") then
                 read_subs [("VERS", "gedc_version")]%string
                   (get_child_elements child) v
               else v)
            v (get_child_elements elem) in
    append_row
      [("Source Software", sanitize_string (local "source" v));
       ("Source Version", sanitize_string (local "version" v));
       ("Date", sanitize_string (local "date" v));
       ("Character Set", sanitize_string (local "charset" v));
       ("GEDCOM Version", sanitize_string (local "gedc_version" v))]%string
      header_data
  else Some header_data.

(** Lines 136-217 for one element of the list. *)
Definition individual_elem (wb : workbook) (element : Element) : option workbook :=
  if decide (class_of element = IndividualElement) then
    let id := get_pointer element in
    let name := display_name element in
    let gender := get_gender element in
    '(v, notes, events) ←
      for_each (indi_child id) (indi_locals, [], wb_events wb)
        (get_child_elements element);
    individuals ←
      append_row (individual_row id name gender v notes) (wb_individuals wb);
    Some (mkWorkbook (<[id := name]> (wb_id_to_name wb)) (wb_index wb)
            individuals (wb_families wb) events (wb_sources wb) (wb_notes wb)
            (wb_multimedia wb) (wb_associations wb) (wb_submitter wb)
            (wb_header wb))
  else Some wb.

(** The [elif] chain of lines 234-253: a child whose tag is one of these
    gives the date and the place under it to the variables beside it. *)
Definition family_events : list (string * (string * string)) :=
  [("MARR", ("marr_date", "marr_place")); ("DIV", ("div_date", "div_place"));
   ("ENGA", ("eng_date", "eng_place")); ("MARC", ("marc_date", "marc_place"));
   ("MARS", ("mars_date", "mars_place"))]%string.

(** One turn of the loop of lines 230-258: the variables, the children
    and the notes. *)
Definition family_child (st : gmap str str * list str * list str)
    (child : Element) : gmap str str * list str * list str :=
  let '(v, children_ids, notes) := st in
  let subs := get_child_elements child in
  if decide (get_tag child = u "HUSB") then
    (assign "husband_id" (get_value child) v, children_ids, notes)
  else if decide (get_tag child = u "WIFE") then
    (assign "wife_id" (get_value child) v, children_ids, notes)
  else if decide (get_tag child = u "CHIL") then
    (v, children_ids ++ [get_value child], notes)
  else match find (λ b, bool_decide (get_tag child = u b.1)) family_events with
  | Some b =>
      (read_subs [("DATE"%string, b.2.1); ("PLAC"%string, b.2.2)] subs v,
       children_ids, notes)
  | None =>
  if decide (get_tag child = u "NOTE") then
    (v, children_ids, notes ++ [get_value child])
  else if decide (get_tag child = u "CHAN") then
    (read_subs [("DATE", "change_date"); ("TIME", "change_time")]%string subs v,
     children_ids, notes)
  else st
  end.

(** Lines 223-228. *)
Definition family_locals : gmap str str :=
  assign_empty ["husband_id"; "wife_id"; "marr_date"; "marr_place"; "div_date";
         "div_place"; "eng_date"; "eng_place"; "marc_date"; "marc_place";
         "mars_date"; "mars_place"; "change_date"; "change_time"]%string ∅.

(** Lines 221-288 for one element of the list. *)
Definition family_elem (wb : workbook) (element : Element) : option workbook :=
  if decide (class_of element = FamilyElement) then
    let fam_id := get_pointer element in
    let '(v, children_ids, notes) :=
      foldl family_child (family_locals, [], []) (get_child_elements element) in
    let husband_id := local "husband_id" v in
    let wife_id := local "wife_id" v in
    let ix := link_family (wb_index wb) (mkFamily husband_id wife_id children_ids) in
    let id_to_name := wb_id_to_name wb in
    families ←
      append_row
        (family_row fam_id husband_id wife_id children_ids id_to_name v notes)
        (wb_families wb);
    Some (mkWorkbook (wb_id_to_name wb) ix (wb_individuals wb) families
            (wb_events wb) (wb_sources wb) (wb_notes wb) (wb_multimedia wb)
            (wb_associations wb) (wb_submitter wb) (wb_header wb))
  else Some wb.

(** Lines 292-311 for one element of the list. *)
Definition source_elem (sources_data : table) (element : Element) : option table :=
  if decide (get_tag element = u "SOUR") then
    let '(v, notes) :=
      foldl (λ (st : gmap str str * list str) child,
               match find (λ b, bool_decide (get_tag child = u b.1))
                       [("TITL", "title"); ("AUTH", "author"); ("PUBL", "pub");
                        ("PAGE", "page"); ("REPO", "repo");
                        ("DATA", "data")]%string with
               | Some b => (assign b.2 (get_value child) st.1, st.2)
               | None =>
                   if decide (get_tag child = u "NOTE")
                   then (st.1, st.2 ++ [get_value child]) else st
               end)
            (assign_empty ["title"; "author"; "pub"; "page"; "repo"; "data"]%string ∅, [])
            (get_child_elements element) in
    append_row
      [("Source ID", sanitize_string (get_pointer element));
       ("Title", sanitize_string (local "title" v));
       ("Author", sanitize_string (local "author" v));
       ("Publication", sanitize_string (local "pub" v));
       ("Page", sanitize_string (local "page" v));
       ("Repository", sanitize_string (local "repo" v));
       ("Data", sanitize_string (local "data" v));
       ("Notes", sanitize_string (join (u ", ") notes))]%string
      sources_data
  else Some sources_data.

(** Lines 315-319 for one element of the list. *)
Definition note_elem (notes_data : table) (element : Element) : option table :=
  if decide (get_tag element = u "NOTE") then
    append_row
      [("Note ID", sanitize_string (get_pointer element));
       ("Text", sanitize_string (get_value element));
       ("Referenced By", [])]%string
      notes_data
  else Some notes_data.

(** Lines 323-336 for one element of the list. *)
Definition multimedia_elem (multimedia_data : table) (element : Element)
  : option table :=
  if decide (get_tag element = u "OBJE") then
    let subs := get_child_elements element in
    let v := read_subs [("FILE", "file"); ("FORM", "form");
                        ("TITL", "title")]%string subs
               (assign_empty ["file"; "form"; "title"]%string ∅) in
    let notes := collect "NOTE" subs [] in
    append_row
      [("Object ID", sanitize_string (get_pointer element));
       ("File", sanitize_string (local "file" v));
       ("Format", sanitize_string (local "form" v));
       ("Title", sanitize_string (local "title" v));
       ("Notes", sanitize_string (join (u ", ") notes))]%string
      multimedia_data
  else Some multimedia_data.

(** Lines 340-353 for one element of the list. *)
Definition association_elem (associations_data : table) (element : Element)
  : option table :=
  if decide (class_of element = IndividualElement) then
    let id := get_pointer element in
    for_each
      (λ associations_data child,
         if decide (get_tag child = u "ASSO") then
           let assoc_id := get_value child in
           let subs := get_child_elements child in
           let v := read_subs [("RELA", "rela")]%string subs
                      (assign_empty ["rela"]%string ∅) in
           let notes := collect "NOTE" subs [] in
           append_row
             [("Individual ID", sanitize_string id);
              ("Associated ID", sanitize_string assoc_id);
              ("Relationship", sanitize_string (local "rela" v));
              ("Notes", sanitize_string (join (u ", ") notes))]%string
             associations_data
         else Some associations_data)
      associations_data (get_child_elements element)
  else Some associations_data.

(** Lines 357-369 for one element of the list. *)
Definition submitter_elem (submitter_data : table) (element : Element)
  : option table :=
  if decide (get_tag element = u "SUBM") then
    let v := read_subs [("NAME", "name"); ("ADDR", "addr"); ("PHON", "phone");
                        ("EMAIL", "email")]%string
               (get_child_elements element)
               (assign_empty ["name"; "addr"; "phone"; "email"]%string ∅) in
    append_row
      [("Submitter ID", sanitize_string (get_pointer element));
       ("Name", sanitize_string (local "name" v));
       ("Address", sanitize_string (local "addr" v));
       ("Phone", sanitize_string (local "phone" v));
       ("Email", sanitize_string (local "email" v))]%string
      submitter_data
  else Some submitter_data.

(** Lines 373-386 for the row [i], whose id is [indiv_id]. *)
Definition update_cells (id_to_name : gmap str str) (ix : rel_index)
    (individuals_data : table) (i : nat) (indiv_id : str) : option table :=
  d ← match child_to_parents ix !! indiv_id with
      | Some (father_id, mother_id) =>
          set_cells i
            [("Father ID", sanitize_string father_id);
             ("Mother ID", sanitize_string mother_id);
             ("Father Name", sanitize_string (name_of id_to_name father_id));
             ("Mother Name", sanitize_string (name_of id_to_name mother_id))]%string
            individuals_data
      | None => Some individuals_data
      end;
  d ← match id_to_spouses ix !! indiv_id with
      | Some spouse_ids =>
          set_cells i
            [("Spouse ID", sanitize_string (join (u ", ") spouse_ids));
             ("Spouse Name",
              sanitize_string
                (join (u ", ") (name_of id_to_name <$> spouse_ids)))]%string
            d
      | None => Some d
      end;
  match id_to_children ix !! indiv_id with
  | Some children_ids =>
      set_cells i
        [("Children IDs", sanitize_string (join (u ", ") children_ids));
         ("Children Names",
          sanitize_string
            (join (u ", ") (name_of id_to_name <$> children_ids)))]%string
        d
  | None => Some d
  end.

(** The loop of lines 372-386 from the row [i] on. *)
Fixpoint update_table (id_to_name : gmap str str) (ix : rel_index)
    (i : nat) (ids : list str) (individuals_data : table) : option table :=
  match ids with
  | [] => Some individuals_data
  | indiv_id :: rest =>
      d ← update_cells id_to_name ix individuals_data i indiv_id;
      update_table id_to_name ix (S i) rest d
  end.

(** Lines 108-386: the tables that go into the data frames, from the
    elements of the root ([header]) and the list of all the elements. *)
Definition build_tables (header elements : list Element) : option workbook :=
  let wb := new_workbook in
  header_data ← for_each header_elem (wb_header wb) header;
  wb ← for_each individual_elem wb elements;
  wb ← for_each family_elem wb elements;
  sources ← for_each source_elem (wb_sources wb) elements;
  notes ← for_each note_elem (wb_notes wb) elements;
  multimedia ← for_each multimedia_elem (wb_multimedia wb) elements;
  associations ← for_each association_elem (wb_associations wb) elements;
  submitter ← for_each submitter_elem (wb_submitter wb) elements;
  ids ← wb_individuals wb !! u "ID";
  individuals ←
    update_table (wb_id_to_name wb) (wb_index wb) 0 ids (wb_individuals wb);
  Some (mkWorkbook (wb_id_to_name wb) (wb_index wb) individuals
          (wb_families wb) (wb_events wb) sources notes multimedia
          associations submitter header_data).
End Tables.

(** The column [c] of a table. *)
Definition column (c : string) (d : table) : list str := default [] (d !! u c).

(** A table with the columns [columns] and no other, each of [n] rows:
    what a data frame is made from. *)
Definition rectangular (columns : list string) (n : nat) (d : table) : Prop :=
  (∀ k, k ∈ u <$> columns → ∃ l, d !! k = Some l ∧ length l = n) ∧
  (∀ k, k ∉ u <$> columns → d !! k = None).

(** The value a run of appends gives the column of key [k], if any. *)
Definition cell_of (cells : list (string * str)) (k : str) : option str :=
  snd <$> find (λ cv, bool_decide (u cv.1 = k)) cells.

(** The names [names] are the columns [columns], each once. *)
Definition names_columns (columns names : list string) : bool :=
  bool_decide (NoDup (u <$> names)) &&
  bool_decide (Forall (λ k, k ∈ u <$> columns) (u <$> names)) &&
  bool_decide (Forall (λ k, k ∈ u <$> names) (u <$> columns)).

(** An event record of an individual, and the number of them. *)
Definition is_event (child : Element) : Prop :=
  get_tag child ∈ u <$> event_tags.

Definition tagged (tag : string) (element : Element) : Prop :=
  get_tag element = u tag.

#[global] Instance is_event_dec (child : Element) : Decision (is_event child).
Proof. unfold is_event. apply _. Defined.

#[global] Instance tagged_dec (tag : string) (element : Element) :
  Decision (tagged tag element).
Proof. unfold tagged. apply _. Defined.

(** The number of event records under an individual, and of association
    records; [0] for an element that is no individual. *)
Definition n_events (element : Element) : nat :=
  if decide (class_of element = IndividualElement)
  then length (filter is_event (get_child_elements element)) else 0%nat.

Definition n_associations (element : Element) : nat :=
  if decide (class_of element = IndividualElement)
  then length (filter (tagged "ASSO") (get_child_elements element)) else 0%nat.

(** The values of the lines tagged [tag] under an element, and the last
    of them: what a loop [if sub.get_tag() == tag: x = sub.get_value()]
    leaves in a variable that was [""] before it. *)
Definition values_under (tag : string) (element : Element) : list str :=
  get_value <$> filter (tagged tag) (get_child_elements element).

Definition value_under (tag : string) (element : Element) : str :=
  default [] (last (values_under tag element)).

(** The event records of a file, each with the individual it is under:
    in the order of the individuals, and under one in the order of its
    lines. *)
Definition event_records (elements : list Element) : list (Element * Element) :=
  individuals_of elements ≫=
    λ x, (λ child, (x, child)) <$> filter is_event (get_child_elements x).

(** The row of the Events sheet for the event record [child] of the
    individual [x]. *)
Definition event_cells (x child : Element) : list (string * str) :=
  [("Record ID", get_pointer x); ("Record Type", u "INDI");
   ("Event Type", get_tag child);
   ("Date", sanitize_string (value_under "DATE" child));
   ("Place", sanitize_string (value_under "PLAC" child));
   ("Cause", sanitize_string (value_under "CAUS" child));
   ("Notes", sanitize_string (value_under "NOTE" child));
   ("Source IDs",
    sanitize_string (join (u ", ") (values_under "SOUR" child)))]%string.

(** The columns that the update assigns to. *)
Definition linked_columns : list string :=
  ["Father ID"; "Mother ID"; "Father Name"; "Mother Name"; "Spouse ID";
   "Spouse Name"; "Children IDs"; "Children Names"]%string.

(** The family records of the element list, in file order. *)
Definition family_records (elements : list Element) : list Element :=
  filter (λ e, class_of e = FamilyElement) elements.

(** The columns of the Individuals table that the linker reads or
    writes. *)
Definition linker_view (d : table) : individuals_data :=
  mkIndividuals (column "ID" d) (column "Name" d)
    (column "Father ID" d) (column "Mother ID" d)
    (column "Father Name" d) (column "Mother Name" d)
    (column "Spouse ID" d) (column "Spouse Name" d)
    (column "Children IDs" d) (column "Children Names" d).

(** The tables that the individuals and the families pass leave alone. *)
Definition same_side_tables (wb wb' : workbook) : Prop :=
  wb_sources wb' = wb_sources wb ∧ wb_notes wb' = wb_notes wb ∧
  wb_multimedia wb' = wb_multimedia wb ∧
  wb_associations wb' = wb_associations wb ∧
  wb_submitter wb' = wb_submitter wb ∧ wb_header wb' = wb_header wb.

(** * Facts *)

(** ** Strings *)

Lemma find_space_Some (s a b : str) :
  find_space s = Some (a, b) → s = a ++ 32%N :: b ∧ (32%N ∉ a).
Proof.
  revert a b. induction s as [|c r IH]; intros a b; simpl; [done|].
  destruct (N.eqb_spec c 32) as [->|Hc].
  - intros [= <- <-]. split; [done | apply not_elem_of_nil].
  - destruct (find_space r) as [[a' b']|] eqn:E; [|done].
    intros [= <- <-]. destruct (IH a' b' eq_refl) as [-> Hn].
    split; [done|]. rewrite elem_of_cons. intros [?|?]; [congruence | done].
Qed.

Lemma find_space_None (s : str) : find_space s = None ↔ 32%N ∉ s.
Proof.
  induction s as [|c r IH]; simpl.
  - split; [intros _; apply not_elem_of_nil | done].
  - rewrite not_elem_of_cons. destruct (N.eqb_spec c 32) as [->|Hc].
    + split; [done | intros [? _]; done].
    + destruct (find_space r) as [[a b]|].
      * split; [done|]. intros [_ Hr]. apply IH in Hr. done.
      * split; [|done]. intros _. split; [congruence | by apply IH].
Qed.

Lemma find_space_app (a b : str) :
  32%N ∉ a → find_space (a ++ 32%N :: b) = Some (a, b).
Proof.
  induction a as [|c r IH]; simpl; [done|].
  rewrite not_elem_of_cons. intros [Hc Hr].
  destruct (N.eqb_spec c 32); [congruence|]. by rewrite IH.
Qed.

(** The three shapes of [line.split(' ', 2)]. *)
Lemma split_space_2 (s : str) :
  ((32%N ∉ s) ∧ split_space 2 s = [s]) ∨
  (∃ a b, s = a ++ 32%N :: b ∧ (32%N ∉ a) ∧ (32%N ∉ b) ∧
          split_space 2 s = [a; b]) ∨
  (∃ a b c, s = a ++ 32%N :: b ++ 32%N :: c ∧ (32%N ∉ a) ∧ (32%N ∉ b) ∧
            split_space 2 s = [a; b; c]).
Proof.
  simpl. destruct (find_space s) as [[a r]|] eqn:E.
  - apply find_space_Some in E as [-> Ha]. right.
    destruct (find_space r) as [[b c]|] eqn:E'.
    + apply find_space_Some in E' as [-> Hb]. right. by exists a, b, c.
    + apply find_space_None in E'. left. by exists a, r.
  - apply find_space_None in E. by left.
Qed.

Lemma split_space_two (a b : str) :
  32%N ∉ a → 32%N ∉ b → split_space 2 (a ++ 32%N :: b) = [a; b].
Proof.
  intros Ha Hb. simpl. rewrite find_space_app by done.
  apply find_space_None in Hb. by rewrite Hb.
Qed.

Lemma split_space_three (a b c : str) :
  32%N ∉ a → 32%N ∉ b →
  split_space 2 (a ++ 32%N :: b ++ 32%N :: c) = [a; b; c].
Proof.
  intros Ha Hb. simpl. rewrite find_space_app by done.
  by rewrite find_space_app.
Qed.

Lemma lstrip_length (s : str) : (length (lstrip s) ≤ length s)%nat.
Proof. induction s as [|c r IH]; simpl; [done|]. destruct (py_isspace c); simpl; lia. Qed.

Lemma lstrip_fixed (s : str) :
  lstrip s = s ↔ match s with [] => True | c :: _ => py_isspace c = false end.
Proof.
  destruct s as [|c r]; simpl; [done|].
  destruct (py_isspace c) eqn:E; [|done].
  split; [|done]. intros H. pose proof (lstrip_length r) as Hl.
  rewrite H in Hl. simpl in Hl. lia.
Qed.

Lemma lstrip_idemp (s : str) : lstrip (lstrip s) = lstrip s.
Proof.
  induction s as [|c r IH]; simpl; [done|].
  destruct (py_isspace c) eqn:E; [done|]. simpl. by rewrite E.
Qed.

Lemma lstrip_snoc (a : str) (z : N) :
  py_isspace z = false → ∃ y, lstrip (a ++ [z]) = y ++ [z].
Proof.
  intros Hz. induction a as [|c r [y IH]]; simpl.
  - rewrite Hz. by exists [].
  - destruct (py_isspace c); [by exists y | by exists (c :: r)].
Qed.

Lemma strip_stripped (s : str) : stripped (strip s).
Proof.
  unfold stripped, strip, rstrip. rewrite rev_involutive, lstrip_idemp.
  split; [|done]. pose proof (lstrip_idemp s) as Hi.
  apply lstrip_fixed in Hi. destruct (lstrip s) as [|c r]; [done|].
  simpl. destruct (lstrip_snoc (rev r) c Hi) as [y ->].
  rewrite rev_app_distr. simpl. by rewrite Hi.
Qed.

Lemma stripped_strip (s : str) : stripped s → strip s = s.
Proof.
  intros [H1 H2]. unfold strip, rstrip. by rewrite H1, H2, rev_involutive.
Qed.

Lemma stripped_ends (s : str) :
  stripped s → s ≠ [] →
  (∃ c r, s = c :: r ∧ py_isspace c = false) ∧
  (∃ a z, s = a ++ [z] ∧ py_isspace z = false).
Proof.
  intros [H1 H2] Hs. apply lstrip_fixed in H1, H2. split.
  - destruct s as [|c r]; [done|]. by exists c, r.
  - destruct (rev s) as [|z a] eqn:E.
    + apply (f_equal (@rev N)) in E. rewrite rev_involutive in E. done.
    + exists (rev a), z. split; [|done].
      apply (f_equal (@rev N)) in E. by rewrite rev_involutive in E.
Qed.

Lemma stripped_intro (c z : N) (r a : str) :
  py_isspace c = false → py_isspace z = false →
  c :: r = a ++ [z] → stripped (c :: r).
Proof.
  intros Hc Hz E. split.
  - by apply lstrip_fixed.
  - apply lstrip_fixed. rewrite E, rev_app_distr. done.
Qed.

(** Reading back a line that was written with its newline. *)
Lemma strip_newline (s : str) : stripped s → s ≠ [] → strip (s ++ [10%N]) = s.
Proof.
  intros Hs Hne. destruct (stripped_ends s Hs Hne) as [(c & r & E & Hc) _].
  destruct Hs as [_ H2]. unfold strip, rstrip.
  assert (lstrip (s ++ [10%N]) = s ++ [10%N]) as ->.
  { apply lstrip_fixed. by rewrite E. }
  rewrite rev_app_distr.
  assert (lstrip (rev [10%N] ++ rev s) = lstrip (rev s)) as -> by done.
  by rewrite H2, rev_involutive.
Qed.

Lemma last_after_space (s p a : str) (z : N) :
  s ++ 32%N :: p = a ++ [z] → z ≠ 32%N → ∃ q, p = q ++ [z].
Proof.
  intros E Hz. induction p as [|x p' _] using rev_ind.
  - change (s ++ [32%N] = a ++ [z]) in E. apply app_inj_tail in E as [_ ?].
    congruence.
  - rewrite app_comm_cons, app_assoc in E.
    apply app_inj_tail in E as [_ ->]. by exists p'.
Qed.

(** ** Decimal forms *)

Lemma digit_value_digit (c : N) :
  is_digit c → digit_value c = Some (Z.of_N (c - 48)).
Proof.
  intros [H1 H2]. unfold digit_value.
  destruct (N.leb_spec 48 c), (N.leb_spec c 57); simpl; (done || lia).
Qed.

Lemma digit_not_space (c : N) :
  is_digit c → py_isspace c = false ∧ c_isspace c = false ∧ c ≠ 32%N.
Proof.
  intros [H1 H2]. unfold py_isspace, c_isspace.
  repeat match goal with
         | |- context [(?a <=? ?b)%N] => destruct (N.leb_spec a b); try lia
         | |- context [(?a =? ?b)%N] => destruct (N.eqb_spec a b); try lia
         end; simpl; repeat split; (done || lia).
Qed.

Lemma scan_digits_all (ds : str) (acc : Z) :
  Forall is_digit ds → scan_digits acc false ds = Some (value acc ds, []).
Proof.
  intros H. revert acc. induction H as [|c r Hc _ IH]; intros acc; simpl; [done|].
  rewrite (digit_value_digit c Hc). apply IH.
Qed.

Lemma digits_of_S (f : nat) (n : N) (acc : str) :
  digits_of (S f) n acc =
  if (n <? 10)%N then (48 + n mod 10)%N :: acc
  else digits_of f (n / 10)%N ((48 + n mod 10)%N :: acc).
Proof. reflexivity. Qed.

Lemma digits_of_spec (f : nat) (n : N) (acc : str) :
  (n < 10 * 2 ^ N.of_nat f)%N →
  ∃ ds, digits_of (S f) n acc = ds ++ acc ∧ Forall is_digit ds ∧ ds ≠ [] ∧
        ∀ a, value a ds = a * 10 ^ Z.of_nat (length ds) + Z.of_N n.
Proof.
  revert n acc. induction f as [|f IH]; intros n acc Hn; rewrite digits_of_S.
  - simpl in Hn. destruct (N.ltb_spec n 10) as [Hlt|]; [|lia].
    exists [(48 + n mod 10)%N]. rewrite N.mod_small by done.
    repeat split; try done.
    + apply Forall_singleton. unfold is_digit. lia.
    + intros a. unfold value. simpl. replace (48 + n - 48)%N with n by lia. lia.
  - destruct (N.ltb_spec n 10) as [Hlt|Hge].
    + exists [(48 + n mod 10)%N]. rewrite N.mod_small by done.
      repeat split; try done.
      * apply Forall_singleton. unfold is_digit. lia.
      * intros a. unfold value. simpl. replace (48 + n - 48)%N with n by lia. lia.
    + pose proof (N.mod_upper_bound n 10 ltac:(done)) as Hm.
      pose proof (N.div_mod n 10 ltac:(done)) as Hdm.
      assert (n / 10 < 10 * 2 ^ N.of_nat f)%N as Hq.
      { apply N.Div0.div_lt_upper_bound.
        rewrite Nat2N.inj_succ, N.pow_succ_r' in Hn. lia. }
      set (m := (n mod 10)%N) in *. set (q := (n / 10)%N) in *.
      clearbody m q.
      destruct (IH q ((48 + m)%N :: acc) Hq) as (ds & E & Hd & _ & Hv).
      exists (ds ++ [(48 + m)%N]). rewrite E, <- app_assoc.
      repeat split; try done.
      * apply Forall_app. split; [done|]. apply Forall_singleton.
        unfold is_digit. lia.
      * by destruct ds.
      * intros a. unfold value in *. rewrite foldl_app. simpl. rewrite Hv.
        rewrite length_app, Nat2Z.inj_add, Z.pow_add_r by lia. simpl length.
        replace (48 + m - 48)%N with m by lia.
        change (10 ^ Z.of_nat 1) with 10. lia.
Qed.

Lemma str_of_N_spec (n : N) :
  ∃ c r, str_of_N n = c :: r ∧ Forall is_digit (c :: r) ∧
         value 0 (c :: r) = Z.of_N n.
Proof.
  unfold str_of_N.
  destruct (digits_of_spec (N.to_nat (N.log2 n)) n []) as (ds & E & Hd & Hne & Hv).
  { rewrite N2Nat.id. destruct (N.eq_dec n 0%N) as [->|Hn]; [done|].
    pose proof (N.log2_spec n ltac:(lia)) as [_ Hl].
    rewrite N.pow_succ_r' in Hl. lia. }
  rewrite E, app_nil_r. destruct ds as [|c r]; [done|].
  exists c, r. repeat split; [done|]. rewrite Hv. lia.
Qed.

(** The decimal form of a level that is not negative. *)
Lemma str_of_int_digits (z : Z) :
  0 ≤ z → ∃ c r, str_of_int z = c :: r ∧ Forall is_digit (c :: r) ∧
                 value 0 (c :: r) = z.
Proof.
  intros Hz. destruct (str_of_N_spec (Z.to_N z)) as (c & r & E & Hd & Hv).
  exists c, r. rewrite Hv, Z2N.id by done. repeat split; [|done].
  destruct z; (done || lia).
Qed.

Lemma transform_digits `{!UnicodeData} (ds : str) :
  Forall is_digit ds → transform ds = ds.
Proof.
  induction 1 as [|c r [H1 H2] _ IH]; simpl; [done|].
  destruct (N.ltb_spec c 128); [by rewrite IH | lia].
Qed.

Lemma py_int_digits `{!UnicodeData} (ds : str) :
  Forall is_digit ds → ds ≠ [] → py_int ds = Some (value 0 ds).
Proof.
  intros Hd Hne. unfold py_int. rewrite transform_digits by done.
  destruct Hd as [|c r Hc Hr]; [done|]. simpl.
  destruct (digit_not_space c Hc) as (_ & -> & _).
  destruct Hc as [H1 H2].
  destruct (N.eqb_spec c 43); [lia|]. destruct (N.eqb_spec c 45); [lia|].
  unfold unsigned_literal. rewrite digit_value_digit by done.
  by rewrite scan_digits_all.
Qed.

(** [int(str(level)) = level] for a level that is not negative. *)
Lemma py_int_str_of_int `{!UnicodeData} (z : Z) :
  0 ≤ z → py_int (str_of_int z) = Some z.
Proof.
  intros Hz. destruct (str_of_int_digits z Hz) as (c & r & -> & Hd & Hv).
  by rewrite py_int_digits, Hv.
Qed.

(** ** The depth repair pass *)

Lemma depths_ok_lookup (previous : Z) (ds : list Z) :
  -1 ≤ previous → depths_ok previous ds →
  (∀ i d, ds !! i = Some d → 0 ≤ d) ∧
  (∀ i d d', ds !! i = Some d → ds !! S i = Some d' → d' ≤ d + 1).
Proof.
  revert previous. induction ds as [|x r IH]; intros previous Hp; simpl.
  - intros _. split; intros i; intros; by destruct i.
  - intros [Hx Hr]. destruct (IH x ltac:(lia) Hr) as [H1 H2]. split.
    + intros [|i] d; simpl; [intros [= <-]; lia | apply H1].
    + intros [|i] d d'; simpl; [|apply H2].
      intros [= <-] Hd'. destruct r as [|y r']; [done|].
      simpl in Hd', Hr. injection Hd' as <-. lia.
Qed.

Section RepairFacts.
Context `{!UnicodeData}.

Lemma clamp_level_bounds (previous level : Z) :
  -1 ≤ previous → 0 ≤ clamp_level previous level ≤ previous + 1.
Proof.
  intros Hp. unfold clamp_level.
  destruct (Z.ltb_spec (previous + 1) level); [lia|].
  destruct (Z.ltb_spec level 0); lia.
Qed.

Lemma clamp_level_fixed (previous level : Z) :
  0 ≤ level ≤ previous + 1 → clamp_level previous level = level.
Proof.
  intros Hl. unfold clamp_level.
  destruct (Z.ltb_spec (previous + 1) level); [lia|].
  destruct (Z.ltb_spec level 0); lia.
Qed.

(** What the body of the loop does with a line: it raises when the line
    has no [' '], and otherwise writes the level, a space and all that
    follows the first space of the line. *)
Lemma repair_line_spec (previous : Z) (s : str) :
  repair_line previous s =
  match find_space s with
  | Some (a, b) =>
      let level := clamp_level previous (parse_level previous a) in
      inr (Written level (str_of_int level ++ 32%N :: b ++ [10%N]))
  | None => inl IndexError
  end.
Proof.
  unfold repair_line, corrected_level, format_line.
  change (u " ") with [32%N]. cbn [split_space].
  destruct (find_space s) as [[a b]|]; [|done].
  destruct (find_space b) as [[p1 p2]|] eqn:E; simpl.
  - apply find_space_Some in E as [-> _]. by rewrite <- app_assoc.
  - by rewrite <- app_assoc.
Qed.

Lemma digits_no_space (ds : str) : Forall is_digit ds → 32%N ∉ ds.
Proof.
  intros Hd Hin. rewrite Forall_forall in Hd. apply Hd in Hin as [? _]. lia.
Qed.

(** A written line: its shape, and what the pass makes of it when it reads
    it back. *)
Lemma repair_line_written (previous : Z) (s : str) (w : written) :
  -1 ≤ previous → stripped s → repair_line previous s = inr w →
  0 ≤ w_level w ≤ previous + 1 ∧
  ∃ body, w_text w = body ++ [10%N] ∧ stripped body ∧ body ≠ [] ∧
          depth_of_text (w_text w) = Some (w_level w) ∧
          ∀ previous', w_level w ≤ previous' + 1 →
                       repair_line previous' body = inr w.
Proof.
  intros Hp Hs. rewrite repair_line_spec.
  destruct (find_space s) as [[a b]|] eqn:E; [|done]. simpl. intros [= <-].
  simpl. set (level := clamp_level previous (parse_level previous a)).
  pose proof (clamp_level_bounds previous (parse_level previous a) Hp) as Hl.
  fold level in Hl. split; [done|].
  apply find_space_Some in E as [-> Ha].
  destruct (stripped_ends _ Hs ltac:(by destruct a)) as [_ (x & z & Ez & Hz)].
  destruct (last_after_space a b x z Ez) as [q ->].
  { intros ->. done. }
  destruct (str_of_int_digits level) as (c & r & El & Hd & Hv); [lia|].
  pose proof (digits_no_space _ Hd) as Hns.
  assert (stripped (str_of_int level ++ 32%N :: q ++ [z])) as Hbody.
  { rewrite El. simpl.
    apply (stripped_intro c z _ (c :: r ++ 32%N :: q)); [|done|].
    - by apply digit_not_space, (Forall_inv Hd).
    - simpl. by rewrite <- app_assoc. }
  assert (find_space (str_of_int level ++ 32%N :: q ++ [z])
          = Some (str_of_int level, q ++ [z])) as Hfind.
  { apply find_space_app. by rewrite El. }
  assert (∀ A B : str, A ++ 32%N :: B ++ [10%N] = (A ++ 32%N :: B) ++ [10%N])
    as Etext by (intros; by rewrite <- app_assoc).
  exists (str_of_int level ++ 32%N :: q ++ [z]).
  split; [apply Etext|]. split; [done|].
  split; [rewrite El; done|]. split.
  - unfold depth_of_text. rewrite Etext.
    rewrite strip_newline; [|done|rewrite El; done].
    cbn [split_space]. rewrite Hfind. apply py_int_str_of_int. lia.
  - intros previous' Hle. rewrite repair_line_spec, Hfind. simpl.
    unfold parse_level. rewrite py_int_str_of_int by lia.
    rewrite clamp_level_fixed by lia. done.
Qed.

(** The loop, one line at a time. *)
Lemma repair_loop_cons (previous : Z) (line : str) (rest : list str) :
  repair_loop previous (line :: rest) =
  if blank line then repair_loop previous rest
  else match repair_line previous (strip line) with
       | inl e => ([], Some e)
       | inr w => (w :: (repair_loop (w_level w) rest).1,
                   (repair_loop (w_level w) rest).2)
       end.
Proof.
  unfold blank. simpl. destruct (strip line) as [|c r]; [done|].
  destruct (repair_line previous (c :: r)); [done|].
  by destruct (repair_loop _ rest).
Qed.

Lemma repair_loop_depths (previous : Z) (infile : list str) :
  -1 ≤ previous →
  depths_ok previous (w_level <$> (repair_loop previous infile).1).
Proof.
  revert previous. induction infile as [|line rest IH]; intros previous Hp.
  - done.
  - rewrite repair_loop_cons. destruct (blank line); [by apply IH|].
    destruct (repair_line previous (strip line)) as [e|w] eqn:E; [done|].
    destruct (repair_line_written _ _ _ Hp (strip_stripped line) E) as [Hl _].
    simpl. split; [done|]. apply IH. lia.
Qed.

Lemma repair_loop_texts (previous : Z) (infile : list str) :
  -1 ≤ previous →
  Forall (λ w, depth_of_text (w_text w) = Some (w_level w))
         (repair_loop previous infile).1.
Proof.
  revert previous. induction infile as [|line rest IH]; intros previous Hp.
  - constructor.
  - rewrite repair_loop_cons. destruct (blank line); [by apply IH|].
    destruct (repair_line previous (strip line)) as [e|w] eqn:E; [constructor|].
    destruct (repair_line_written _ _ _ Hp (strip_stripped line) E)
      as [Hl (body & _ & _ & _ & Hd & _)].
    simpl. constructor; [done|]. apply IH. lia.
Qed.

(** Reading the output back: the same lines are written again, and no
    exception is raised. *)
Lemma repair_loop_again (previous : Z) (infile : list str) :
  -1 ≤ previous →
  repair_loop previous (w_text <$> (repair_loop previous infile).1) =
  ((repair_loop previous infile).1, None).
Proof.
  revert previous. induction infile as [|line rest IH]; intros previous Hp.
  - done.
  - rewrite repair_loop_cons. destruct (blank line); [by apply IH|].
    destruct (repair_line previous (strip line)) as [e|w] eqn:E; [done|].
    destruct (repair_line_written _ _ _ Hp (strip_stripped line) E)
      as [Hl (body & Et & Hb & Hne & _ & Hagain)].
    cbn [fst]. rewrite fmap_cons, repair_loop_cons.
    unfold blank. rewrite Et, strip_newline by done.
    destruct body as [|c r]; [done|].
    rewrite Hagain by lia. rewrite IH by lia. done.
Qed.

Lemma repair_loop_length (previous : Z) (infile : list str) :
  (repair_loop previous infile).2 = None →
  length (repair_loop previous infile).1 =
  length (filter (λ line, blank line = false) infile).
Proof.
  revert previous. induction infile as [|line rest IH]; intros previous.
  - done.
  - rewrite repair_loop_cons, filter_cons.
    destruct (blank line) eqn:B.
    + rewrite decide_False by done. apply IH.
    + rewrite decide_True by done.
      destruct (repair_line previous (strip line)) as [e|w]; [done|].
      simpl. intros Hn. by rewrite IH.
Qed.

Lemma repair_loop_first (infile : list str) (w : written) (out : list written) :
  (repair_loop (-1) infile).1 = w :: out → w_level w = 0.
Proof.
  induction infile as [|line rest IH]; [done|].
  rewrite repair_loop_cons. destruct (blank line); [done|].
  destruct (repair_line (-1) (strip line)) as [e|w'] eqn:E; [done|].
  simpl. intros [= -> _].
  destruct (repair_line_written (-1) _ _ ltac:(lia) (strip_stripped line) E)
    as [Hl _]. lia.
Qed.

End RepairFacts.

(** ** The first token of a line and the text before its first space *)

Lemma c_isspace_py_isspace (c : N) : c_isspace c = true → py_isspace c = true.
Proof.
  unfold c_isspace, py_isspace.
  rewrite !orb_true_iff, !andb_true_iff, !N.leb_le, !N.eqb_eq. lia.
Qed.

Lemma py_isspace_ascii (c : N) :
  py_isspace c = true → (c < 128)%N → (c ≤ 32)%N.
Proof.
  unfold py_isspace.
  rewrite !orb_true_iff, !andb_true_iff, !N.leb_le, !N.eqb_eq. lia.
Qed.

Lemma lstrip_spaces (s : str) :
  ∃ sp, s = sp ++ lstrip s ∧ Forall (λ c, py_isspace c = true) sp.
Proof.
  induction s as [|c r (sp & E & Hsp)]; simpl.
  - by exists [].
  - destruct (py_isspace c) eqn:Hc.
    + exists (c :: sp). split; [by rewrite E at 1|]. by constructor.
    + by exists [].
Qed.

Lemma rstrip_spaces (s : str) :
  ∃ sp, s = rstrip s ++ sp ∧ Forall (λ c, py_isspace c = true) sp.
Proof.
  unfold rstrip. destruct (lstrip_spaces (rev s)) as (sp & E & Hsp).
  exists (rev sp). split.
  - rewrite <- rev_app_distr, <- E. by rewrite rev_involutive.
  - by apply Forall_rev.
Qed.

Lemma until_space_spaces (s sp : str) :
  Forall (λ c, py_isspace c = true) sp →
  until_space (s ++ sp) = until_space s.
Proof.
  intros Hsp. induction s as [|c r IH]; simpl.
  - destruct Hsp as [|c sp Hc _]; simpl; [done | by rewrite Hc].
  - destruct (py_isspace c); [done | by rewrite IH].
Qed.

(** The first token can be read off the stripped line as well. *)
Lemma first_token_strip (line : str) :
  first_token line = until_space (strip line).
Proof.
  unfold first_token, strip.
  destruct (rstrip_spaces (lstrip line)) as (sp & E & Hsp).
  rewrite E at 1. by apply until_space_spaces.
Qed.

Lemma until_space_no_space (s : str) :
  Forall (λ c, py_isspace c = false) (until_space s).
Proof.
  induction s as [|c r IH]; simpl; [constructor|].
  destruct (py_isspace c) eqn:Hc; constructor; done.
Qed.

(** The text before the first [' '] starts with the first token, and goes
    on only with a white space other than [' ']. *)
Lemma part0_first_token (s : str) :
  ∃ rest, hd [] (split_space 2 s) = until_space s ++ rest ∧
          (rest = [] ∨ ∃ c r, rest = c :: r ∧ py_isspace c = true).
Proof.
  assert (hd [] (split_space 2 s) =
          match find_space s with Some (a, _) => a | None => s end) as ->.
  { cbn [split_space]. by destruct (find_space s) as [[a b]|]. }
  induction s as [|c r (rest & E & Hrest)]; simpl.
  - exists []. by split; [|left].
  - destruct (N.eqb_spec c 32) as [->|Hc].
    + exists []. by split; [|left].
    + assert (match match find_space r with
                    | Some (a, b) => Some (c :: a, b)
                    | None => None
                    end with
              | Some (a, _) => a
              | None => c :: r
              end = c :: match find_space r with
                         | Some (a, _) => a
                         | None => r
                         end) as -> by (by destruct (find_space r) as [[??]|]).
      rewrite E. destruct (py_isspace c) eqn:Hs.
      * exists (c :: until_space r ++ rest). split; [done|]. right. eauto.
      * by exists rest.
Qed.

Section IntFacts.
Context `{!UnicodeData}.

Lemma transform_app (a b : str) :
  transform (a ++ b) = transform a ∨
  transform (a ++ b) = transform a ++ transform b.
Proof.
  induction a as [|c r IH]; simpl; [by right|].
  destruct (c <? 128)%N; [destruct IH as [->| ->]; auto|].
  destruct (py_isspace c); [destruct IH as [->| ->]; auto|].
  destruct (to_decimal c); [destruct IH as [->| ->]; auto | by left].
Qed.

Lemma transform_no_c_space (s : str) :
  Forall (λ c, py_isspace c = false) s →
  Forall (λ c, c_isspace c = false) (transform s).
Proof.
  induction 1 as [|c r Hc _ IH]; simpl; [constructor|].
  destruct (N.ltb_spec c 128).
  - constructor; [|done].
    destruct (c_isspace c) eqn:E; [|done].
    apply c_isspace_py_isspace in E. congruence.
  - rewrite Hc. destruct (to_decimal c) as [d|].
    + constructor; [|done]. unfold c_isspace.
      destruct (N.leb_spec 9 (48 + d)), (N.leb_spec (48 + d) 13),
        (N.eqb_spec (48 + d) 32); simpl; (done || lia).
    + by repeat constructor.
Qed.

Lemma transform_space_head (c : N) (r : str) :
  py_isspace c = true →
  ∃ c' r', transform (c :: r) = c' :: r' ∧ (c' ≤ 32)%N.
Proof.
  intros Hc. simpl. destruct (N.ltb_spec c 128).
  - exists c, (transform r). split; [done|]. by apply py_isspace_ascii.
  - rewrite Hc. exists 32%N, (transform r). split; [done | lia].
Qed.

Lemma low_char_no_digit (c : N) :
  (c ≤ 32)%N → digit_value c = None ∧ (c =? 95)%N = false.
Proof.
  intros Hc. unfold digit_value.
  destruct (N.leb_spec 48 c), (N.leb_spec c 57), (N.eqb_spec c 95);
    simpl; (done || lia).
Qed.

Lemma skip_c_space_fixed (c : N) (r : str) :
  c_isspace c = false → skip_c_space (c :: r) = c :: r.
Proof. intros Hc. simpl. by rewrite Hc. Qed.

(** A number that is read up to a white space is read whole. *)
Lemma scan_digits_cut (a : str) (acc : Z) (b : bool) (c : N) (y : str)
    (n : Z) (rest : str) :
  Forall (λ c, c_isspace c = false) a → (c ≤ 32)%N →
  scan_digits acc b (a ++ c :: y) = Some (n, rest) →
  skip_c_space rest = [] →
  scan_digits acc b a = Some (n, []).
Proof.
  intros Ha Hc. destruct (low_char_no_digit c Hc) as [Hd Hu].
  revert acc b. induction Ha as [|x a' Hx _ IH]; intros acc b; simpl.
  - rewrite Hd, Hu. destruct b; [done|]. by intros [= <- <-].
  - destruct (digit_value x) as [d|]; [apply IH|].
    destruct (x =? 95)%N.
    + destruct b; [done | apply IH].
    + destruct b; [done|]. intros [= <- <-].
      by rewrite skip_c_space_fixed.
Qed.

Lemma unsigned_literal_cut (a : str) (c : N) (y : str) (n : Z) :
  Forall (λ c, c_isspace c = false) a → (c ≤ 32)%N →
  unsigned_literal (a ++ c :: y) = Some n → unsigned_literal a = Some n.
Proof.
  intros Ha Hc. destruct (low_char_no_digit c Hc) as [Hd _].
  destruct Ha as [|x a' Hx Ha']; simpl; [by rewrite Hd|].
  destruct (digit_value x) as [d|]; [|done].
  destruct (scan_digits d false (a' ++ c :: y)) as [[m rest]|] eqn:E; [|done].
  destruct (skip_c_space rest) eqn:Es; [|done]. intros [= ->].
  by rewrite (scan_digits_cut a' d false c y n rest).
Qed.

Lemma py_int_cut (tok rest : str) (n : Z) :
  tok ≠ [] → Forall (λ c, py_isspace c = false) tok →
  (rest = [] ∨ ∃ c r, rest = c :: r ∧ py_isspace c = true) →
  py_int (tok ++ rest) = Some n → py_int tok = Some n.
Proof.
  intros Hne Htok [->|(c & r & -> & Hc)]; [by rewrite app_nil_r|].
  unfold py_int. destruct (transform_app tok (c :: r)) as [->| ->]; [done|].
  destruct (transform_space_head c r Hc) as (c' & y & -> & Hc').
  pose proof (transform_no_c_space tok Htok) as Ht.
  destruct (transform tok) as [|x t] eqn:Et.
  { destruct tok as [|x0 tok']; [done|]. simpl in Et.
    destruct (x0 <? 128)%N; [done|]. destruct (py_isspace x0); [done|].
    by destruct (to_decimal x0). }
  apply Forall_cons in Ht as [Hx Ht]. simpl app.
  rewrite !skip_c_space_fixed by done.
  destruct (x =? 43)%N.
  { by apply unsigned_literal_cut. }
  destruct (x =? 45)%N.
  { destruct (unsigned_literal (t ++ c' :: y)) as [m|] eqn:E; [|done].
    by rewrite (unsigned_literal_cut t c' y m). }
  apply (unsigned_literal_cut (x :: t)); [by constructor | done].
Qed.

(** When the first token of a line is no integer, neither is the text
    before the first [' '] of the stripped line, which is what [int] is
    given. *)
Lemma part0_unparsable (line : str) :
  strip line ≠ [] → py_int (first_token line) = None →
  py_int (hd [] (split_space 2 (strip line))) = None.
Proof.
  intros Hne Hnone. rewrite first_token_strip in Hnone.
  destruct (part0_first_token (strip line)) as (rest & -> & Hrest).
  destruct (py_int (until_space (strip line) ++ rest)) as [n|] eqn:E; [|done].
  apply py_int_cut in E; [congruence| |apply until_space_no_space|done].
  destruct (stripped_ends _ (strip_stripped line) Hne) as [(c & r & -> & Hc) _].
  simpl. by rewrite Hc.
Qed.

End IntFacts.

(** ** The relationship index *)

Lemma truthy_spec (s : str) : truthy s = true ↔ s ≠ [].
Proof. by destruct s. Qed.

Lemma lookup_setdefault_extend (k k' : str) (xs : list str)
    (d : gmap str (list str)) :
  setdefault_extend k xs d !! k' =
  if decide (k = k') then Some (default [] (d !! k) ++ xs) else d !! k'.
Proof.
  unfold setdefault_extend. case_decide as E.
  - subst. by rewrite lookup_insert_eq.
  - by rewrite lookup_insert_ne.
Qed.

(** The three maps after one family, each on its own. *)
Lemma link_family_parents (ix : rel_index) (f : family) :
  child_to_parents (link_family ix f) =
  foldl (λ m child_id, <[child_id := (husband_id f, wife_id f)]> m)
        (child_to_parents ix) (children_ids f).
Proof.
  unfold link_family. by destruct (truthy (husband_id f)), (truthy (wife_id f)).
Qed.

Lemma link_family_spouses (ix : rel_index) (f : family) :
  id_to_spouses (link_family ix f) =
  let spouses :=
    if truthy (husband_id f)
    then setdefault_extend (husband_id f) [wife_id f] (id_to_spouses ix)
    else id_to_spouses ix in
  if truthy (wife_id f)
  then setdefault_extend (wife_id f) [husband_id f] spouses
  else spouses.
Proof.
  unfold link_family. by destruct (truthy (husband_id f)), (truthy (wife_id f)).
Qed.

Lemma link_family_children (ix : rel_index) (f : family) :
  id_to_children (link_family ix f) =
  let children :=
    if truthy (husband_id f)
    then setdefault_extend (husband_id f) (children_ids f) (id_to_children ix)
    else id_to_children ix in
  if truthy (wife_id f)
  then setdefault_extend (wife_id f) (children_ids f) children
  else children.
Proof.
  unfold link_family. by destruct (truthy (husband_id f)), (truthy (wife_id f)).
Qed.

Lemma lookup_parents_fold (p : str * str) (cs : list str) (c : str)
    (m : gmap str (str * str)) :
  foldl (λ m child_id, <[child_id := p]> m) m cs !! c =
  if decide (c ∈ cs) then Some p else m !! c.
Proof.
  revert m. induction cs as [|x r IH]; intros m; cbn [foldl].
  - by rewrite decide_False by apply not_elem_of_nil.
  - rewrite IH. destruct (decide (c ∈ r)) as [Hr|Hr].
    + by rewrite decide_True by (by right).
    + destruct (decide (x = c)) as [->|Hx].
      * rewrite decide_True by left. by rewrite lookup_insert_eq.
      * rewrite decide_False by (rewrite elem_of_cons; naive_solver).
        by rewrite lookup_insert_ne.
Qed.

Lemma link_family_parents_lookup (ix : rel_index) (f : family) (c : str) :
  child_to_parents (link_family ix f) !! c =
  if decide (c ∈ children_ids f) then Some (husband_id f, wife_id f)
  else child_to_parents ix !! c.
Proof. rewrite link_family_parents. apply lookup_parents_fold. Qed.

(** A family that does not list [c] leaves its parents as they were. *)
Lemma link_families_parents_other (fams : list family) (ix : rel_index) (c : str) :
  Forall (λ f, c ∉ children_ids f) fams →
  child_to_parents (foldl link_family ix fams) !! c = child_to_parents ix !! c.
Proof.
  intros H. revert ix. induction H as [|f r Hf _ IH]; intros ix; simpl; [done|].
  rewrite IH, link_family_parents_lookup. by rewrite decide_False.
Qed.

Lemma has_spouse_extend (k k' x : str) (xs : list str) (d : gmap str (list str)) :
  (∃ l, d !! k = Some l ∧ x ∈ l) →
  ∃ l, setdefault_extend k' xs d !! k = Some l ∧ x ∈ l.
Proof.
  intros (l & El & Hx). rewrite lookup_setdefault_extend.
  case_decide as E; [|by exists l]. subst. rewrite El. simpl.
  exists (l ++ xs). split; [done|]. apply elem_of_app. by left.
Qed.

Lemma has_spouse_new (k x : str) (d : gmap str (list str)) :
  ∃ l, setdefault_extend k [x] d !! k = Some l ∧ x ∈ l.
Proof.
  rewrite lookup_setdefault_extend, decide_True by done.
  eexists. split; [done|]. apply elem_of_app. right. by left.
Qed.

Lemma has_spouse_link_family (ix : rel_index) (f : family) (k x : str) :
  has_spouse ix k x → has_spouse (link_family ix f) k x.
Proof.
  unfold has_spouse. rewrite link_family_spouses. simpl. intros H.
  destruct (truthy (husband_id f)), (truthy (wife_id f));
    repeat apply has_spouse_extend; done.
Qed.

Lemma has_spouse_link_families (fams : list family) (ix : rel_index) (k x : str) :
  has_spouse ix k x → has_spouse (foldl link_family ix fams) k x.
Proof.
  revert ix. induction fams as [|f r IH]; intros ix H; simpl; [done|].
  by apply IH, has_spouse_link_family.
Qed.

Lemma link_family_couple (ix : rel_index) (f : family) :
  husband_id f ≠ [] → wife_id f ≠ [] →
  has_spouse (link_family ix f) (husband_id f) (wife_id f) ∧
  has_spouse (link_family ix f) (wife_id f) (husband_id f).
Proof.
  intros Hh Hw. unfold has_spouse. rewrite link_family_spouses. simpl.
  apply truthy_spec in Hh, Hw. rewrite Hh, Hw. split.
  - apply has_spouse_extend, has_spouse_new.
  - apply has_spouse_new.
Qed.

(** No key of the spouse and child maps is the empty id. *)
Lemma link_family_no_empty_key (ix : rel_index) (f : family) :
  id_to_spouses ix !! [] = None → id_to_children ix !! [] = None →
  id_to_spouses (link_family ix f) !! [] = None ∧
  id_to_children (link_family ix f) !! [] = None.
Proof.
  intros Hs Hc. rewrite link_family_spouses, link_family_children. simpl.
  destruct (truthy (husband_id f)) eqn:Hh, (truthy (wife_id f)) eqn:Hw;
    rewrite ?lookup_setdefault_extend;
    repeat match goal with
           | H : truthy ?s = true |- _ => apply truthy_spec in H
           end;
    repeat case_decide; done.
Qed.

Lemma link_families_no_empty_key (fams : list family) (ix : rel_index) :
  id_to_spouses ix !! [] = None → id_to_children ix !! [] = None →
  id_to_spouses (foldl link_family ix fams) !! [] = None ∧
  id_to_children (foldl link_family ix fams) !! [] = None.
Proof.
  revert ix. induction fams as [|f r IH]; intros ix Hs Hc; simpl; [done|].
  destruct (link_family_no_empty_key ix f Hs Hc). by apply IH.
Qed.

(** ** The update of the individuals' rows *)

Lemma length_set_opt (i : nat) (v : option str) (col : list str) :
  length (set_opt i v col) = length col.
Proof. destruct v; simpl; [apply length_insert | done]. Qed.

Lemma set_all_lookup_lt (i j : nat) (g : str → option str) (ids col : list str) :
  (j < i)%nat → set_all i g ids col !! j = col !! j.
Proof.
  revert i col. induction ids as [|id rest IH]; intros i col Hj; simpl; [done|].
  rewrite IH by lia. destruct (g id); simpl; [|done].
  apply list_lookup_insert_ne. lia.
Qed.

Lemma set_all_lookup (i k : nat) (g : str → option str) (ids col : list str)
    (id old : str) :
  ids !! k = Some id → col !! (i + k)%nat = Some old →
  set_all i g ids col !! (i + k)%nat = Some (default old (g id)).
Proof.
  revert i k col. induction ids as [|x rest IH]; intros i k col; [done|].
  destruct k as [|k]; simpl.
  - rewrite Nat.add_0_r. intros [= ->] Hold. rewrite set_all_lookup_lt by lia.
    destruct (g id); simpl; [|done].
    apply list_lookup_insert_eq. apply lookup_lt_Some in Hold. lia.
  - intros Hid Hold. replace (i + S k)%nat with (S i + k)%nat in * by lia.
    apply IH; [done|]. destruct (g x); simpl; [|done].
    rewrite list_lookup_insert_ne by lia. done.
Qed.

Section UpdateFacts.
Context (id_to_name : gmap str str) (ix : rel_index).

(** A row inside the table is updated without an exception. *)
Lemma update_row_ok (i n : nat) (id : str) (t : individuals_data) :
  rows t n → (i < n)%nat →
  ∃ t', update_row id_to_name ix i id t = inr t' ∧ rows t' n ∧
        updated id_to_name ix i [id] t t'.
Proof.
  intros (H0 & H1 & H2 & H3 & H4 & H5 & H6 & H7 & H8) Hi.
  unfold update_row, updated, rows, new_father_id, new_mother_id,
    new_father_name, new_mother_name, new_spouse_id, new_spouse_name,
    new_children_ids, new_children_names, setitem.
  destruct (child_to_parents ix !! id) as [[father mother]|] eqn:E1;
    destruct (id_to_spouses ix !! id) as [spouses|] eqn:E2;
    destruct (id_to_children ix !! id) as [children|] eqn:E3; simpl;
    repeat (rewrite decide_True by lia; simpl);
    eexists; (split; [reflexivity|]); simpl;
    rewrite ?length_insert, ?E1, ?E2, ?E3; done.
Qed.

Lemma update_rows_ok (i n : nat) (ids : list str) (t : individuals_data) :
  rows t n → (i + length ids ≤ n)%nat →
  ∃ t', update_rows id_to_name ix i ids t = inr t' ∧ rows t' n ∧
        updated id_to_name ix i ids t t'.
Proof.
  revert i t. induction ids as [|id rest IH]; intros i t Hr Hn; simpl.
  - exists t. unfold updated. done.
  - simpl in Hn. destruct (update_row_ok i n id t Hr ltac:(lia))
      as (t1 & -> & Hr1 & Hu1). simpl.
    destruct (IH (S i) t1 Hr1 ltac:(lia)) as (t2 & -> & Hr2 & Hu2).
    exists t2. split; [done|]. split; [done|].
    unfold updated in *. simpl in Hu1. simpl.
    destruct Hu1 as (A0 & A1 & A2 & A3 & A4 & A5 & A6 & A7 & A8 & A9).
    destruct Hu2 as (B0 & B1 & B2 & B3 & B4 & B5 & B6 & B7 & B8 & B9).
    repeat split; congruence.
Qed.

End UpdateFacts.

(** The table of the individuals pass. *)
Lemma add_individual_table (st : gmap str str * individuals_data) (e : Element) :
  rows st.2 (length (col_ID st.2)) → unlinked st.2 →
  rows (add_individual st e).2 (length (col_ID (add_individual st e).2)) ∧
  unlinked (add_individual st e).2.
Proof.
  intros Hr Hu. unfold add_individual. case_decide; [|done]. simpl.
  destruct Hr as (_ & H1 & H2 & H3 & H4 & H5 & H6 & H7 & H8).
  destruct Hu as (U1 & U2 & U3 & U4 & U5 & U6 & U7 & U8).
  split.
  - unfold rows. simpl. rewrite !length_app. simpl. lia.
  - unfold unlinked. simpl. rewrite length_app. simpl.
    rewrite Nat.add_1_r, replicate_S_end.
    rewrite <- U1 at 1. rewrite <- U2 at 1. rewrite <- U3 at 1.
    rewrite <- U4 at 1. rewrite <- U5 at 1. rewrite <- U6 at 1.
    rewrite <- U7 at 1. rewrite <- U8 at 1. done.
Qed.

Lemma individuals_pass_table (elements : list Element) :
  let t := (individuals_pass elements).2 in
  rows t (length (col_ID t)) ∧ unlinked t.
Proof.
  unfold individuals_pass.
  assert (∀ st, rows st.2 (length (col_ID st.2)) ∧ unlinked st.2 →
                rows (foldl add_individual st elements).2
                  (length (col_ID (foldl add_individual st elements).2)) ∧
                unlinked (foldl add_individual st elements).2) as H.
  { induction elements as [|e r IH]; intros st Hst; simpl; [done|].
    apply IH. destruct Hst. by apply add_individual_table. }
  apply H. by repeat split.
Qed.


Lemma sanitize_string_empty : sanitize_string [] = [].
Proof. reflexivity. Qed.

(** * The claims *)

(** ** The depth repair pass *)

Lemma repair_line_text `{!UnicodeData} (previous : Z) (s : str) (w : written) :
  repair_line previous s = inr w →
  ∃ value, w_text w = str_of_int (w_level w) ++ 32%N :: value ++ [10%N].
Proof.
  rewrite repair_line_spec. destruct (find_space s) as [[a b]|]; [|done].
  simpl. intros [= <-]. by exists b.
Qed.

(** A line with no [' '] in it ends the loop with an [IndexError],
    raised by [parts[1]] on line 33, whatever came before it. *)
Lemma repair_loop_no_space `{!UnicodeData} (previous : Z) (line : str)
    (rest : list str) :
  blank line = false → 32%N ∉ strip line →
  repair_loop previous (line :: rest) = ([], Some IndexError).
Proof.
  intros Hb Hs. rewrite repair_loop_cons, Hb, repair_line_spec.
  apply find_space_None in Hs. by rewrite Hs.
Qed.

(** C1, at a failing input: the pass is not total.  On the lines [0 HEAD]
    and [TRLR] it writes one corrected line and then raises [IndexError]:
    [TRLR] is one token long, [parts] has one element and line 33 reads
    [parts[1]]. *)
Theorem C1_single_token_line_raises `{!UnicodeData} :
  repair_gedcom_numbering [u "0 HEAD"; u "TRLR"] =
    ([Written 0 (u "0 HEAD" ++ [10%N])], Some IndexError).
Proof. reflexivity. Qed.

(** C2: the depths the output lines carry are never negative, and none is
    more than one above the depth of the line before it; a line claiming
    depth 5 after a line at depth 0 is written at depth 1. *)
Theorem C2_depths_rise_by_at_most_one `{!UnicodeData} :
  (∀ infile : list str,
     ∃ depth : list Z,
       depth_of_text <$> outfile infile = Some <$> depth ∧
       (∀ i d, depth !! i = Some d → 0 ≤ d) ∧
       (∀ i d d', depth !! i = Some d → depth !! S i = Some d' → d' ≤ d + 1)) ∧
  outfile [u "0 HEAD"; u "5 SOUR x"] =
    [u "0 HEAD" ++ [10%N]; u "1 SOUR x" ++ [10%N]].
Proof.
  split; [|reflexivity]. intros infile.
  exists (w_level <$> (repair_gedcom_numbering infile).1). split.
  - unfold outfile, repair_gedcom_numbering.
    pose proof (repair_loop_texts (-1) infile ltac:(lia)) as Ht.
    induction Ht as [|w r Hw _ IH]; [done|].
    rewrite !fmap_cons. by rewrite Hw, IH.
  - apply (depths_ok_lookup (-1)); [lia|].
    by apply repair_loop_depths.
Qed.

(** C6: a line whose first token is no integer gets the depth
    [previous_level + 1], or [0] when no line was seen before it
    ([previous_level = -1]); when it is written, it is written at that
    depth.  The line [X NOTE stray] after a line at depth 2 is written as
    [3 NOTE stray]. *)
Theorem C6_unparsable_depth_falls_back `{!UnicodeData} :
  (∀ (previous_level : Z) (line : str),
     -1 ≤ previous_level → blank line = false →
     py_int (first_token line) = None →
     let level := if 0 <=? previous_level then previous_level + 1 else 0 in
     corrected_level previous_level (split_space 2 (strip line)) = inr level ∧
     ∀ w, repair_line previous_level (strip line) = inr w →
          w_level w = level ∧
          ∃ value, w_text w = str_of_int level ++ 32%N :: value ++ [10%N]) ∧
  outfile [u "0 @I1@ INDI"; u "1 BIRT"; u "2 DATE 1900"; u "X NOTE stray"] =
    [u "0 @I1@ INDI" ++ [10%N]; u "1 BIRT" ++ [10%N];
     u "2 DATE 1900" ++ [10%N]; u "3 NOTE stray" ++ [10%N]].
Proof.
  split; [|reflexivity]. intros previous_level line Hp Hb Hnone level.
  assert (strip line ≠ []) as Hne.
  { unfold blank in Hb. by destruct (strip line). }
  pose proof (part0_unparsable line Hne Hnone) as Hpart.
  assert (corrected_level previous_level (split_space 2 (strip line))
          = inr level) as Hlevel.
  { unfold corrected_level. cbn [split_space] in *.
    destruct (find_space (strip line)) as [[a b]|]; simpl in *;
      unfold parse_level; rewrite Hpart; f_equal; subst level;
      destruct (Z.leb_spec 0 previous_level);
      apply clamp_level_fixed; lia. }
  split; [done|]. intros w Hw.
  destruct (repair_line_text _ _ _ Hw) as [value Hv].
  unfold repair_line in Hw. rewrite Hlevel in Hw. cbn [bind_exn] in Hw.
  destruct (format_line level _); [done|].
  cbn [bind_exn] in Hw. injection Hw as <-. simpl in *.
  split; [done|]. by exists value.
Qed.

(** C6 on the line [X NOTE stray] read after a line at depth 2. *)
Lemma C6_witness :
  -1 ≤ 2 ∧ blank (u "X NOTE stray") = false ∧
  @py_int ascii_digits (first_token (u "X NOTE stray")) = None ∧
  @corrected_level ascii_digits 2 (split_space 2 (strip (u "X NOTE stray")))
    = inr 3.
Proof.
  split; [lia|]. split; [reflexivity|]. split; [reflexivity|].
  apply (proj1 (@C6_unparsable_depth_falls_back ascii_digits) 2
           (u "X NOTE stray")); [lia | reflexivity | reflexivity].
Defined.

(** C7: the pass leaves its own output as it is.  Reading the lines it
    wrote, it writes the same lines again, and raises nothing; and a line
    that starts with the decimal form of a depth the clamp allows is
    written as it is, depth, tag and value. *)
Theorem C7_repair_idempotent `{!UnicodeData} :
  (∀ infile : list str,
     repair_gedcom_numbering (outfile infile) =
       ((repair_gedcom_numbering infile).1, None) ∧
     outfile (outfile infile) = outfile infile) ∧
  (∀ (previous_level depth : Z) (rest : str),
     0 ≤ depth ≤ previous_level + 1 →
     repair_line previous_level (str_of_int depth ++ 32%N :: rest) =
       inr (Written depth (str_of_int depth ++ 32%N :: rest ++ [10%N]))).
Proof.
  split.
  - intros infile.
    assert (repair_gedcom_numbering (outfile infile) =
            ((repair_gedcom_numbering infile).1, None)) as E.
    { unfold outfile, repair_gedcom_numbering. apply repair_loop_again. lia. }
    split; [done|]. unfold outfile at 1. by rewrite E.
  - intros previous_level depth rest Hd. rewrite repair_line_spec.
    destruct (str_of_int_digits depth) as (c & r & El & Hdig & _); [lia|].
    rewrite find_space_app by (rewrite El; by apply digits_no_space).
    simpl. unfold parse_level. rewrite py_int_str_of_int by lia.
    by rewrite clamp_level_fixed.
Qed.

(** C7 on a line at depth 1 read after a line at depth 0. *)
Lemma C7_witness :
  0 ≤ 1 ≤ 0 + 1 ∧
  @repair_line ascii_digits 0 (u "1 NAME John /Doe/") =
    inr (Written 1 (u "1 NAME John /Doe/" ++ [10%N])).
Proof.
  split; [lia|].
  apply (proj2 (@C7_repair_idempotent ascii_digits) 0 1 (u "NAME John /Doe/")).
  lia.
Defined.

(** C9: when the pass ends without an exception, it has written one line
    for each input line that is not blank. *)
Theorem C9_one_line_per_nonblank_line `{!UnicodeData} (infile : list str) :
  (repair_gedcom_numbering infile).2 = None →
  length (outfile infile) = length (filter (λ line, blank line = false) infile).
Proof.
  intros Hn. unfold outfile. rewrite length_fmap.
  by apply repair_loop_length.
Qed.

(** C9 on four lines, two of them blank. *)
Lemma C9_witness :
  let infile := [u "0 HEAD"; u ""; u "1 SOUR x"; u "   "] in
  (@repair_gedcom_numbering ascii_digits infile).2 = None ∧
  length (@outfile ascii_digits infile) = 2%nat.
Proof.
  split; [reflexivity|].
  apply (@C9_one_line_per_nonblank_line ascii_digits). reflexivity.
Defined.

(** C10: the first line written is at depth 0, whatever depth the first
    line that is not blank claims; [3 HEAD x] is written as [0 HEAD x]. *)
Theorem C10_first_line_at_depth_zero `{!UnicodeData} :
  (∀ (infile : list str) (w : written) (out : list written),
     (repair_gedcom_numbering infile).1 = w :: out →
     w_level w = 0 ∧ ∃ value, w_text w = u "0 " ++ value ++ [10%N]) ∧
  outfile [u ""; u "3 HEAD x"; u "4 SOUR y"] =
    [u "0 HEAD x" ++ [10%N]; u "1 SOUR y" ++ [10%N]].
Proof.
  split; [|reflexivity]. intros infile w out Hw.
  assert (w_level w = 0) as Hl by (by eapply repair_loop_first).
  split; [done|].
  assert (∃ previous s, repair_line previous s = inr w) as (previous & s & Hs).
  { unfold repair_gedcom_numbering in Hw. generalize dependent (-1).
    induction infile as [|line rest IH]; intros previous; [done|].
    rewrite repair_loop_cons. destruct (blank line); [apply IH|].
    destruct (repair_line previous (strip line)) as [e|w'] eqn:E; [done|].
    simpl. intros [= -> _]. eauto. }
  destruct (repair_line_text _ _ _ Hs) as [value Hv].
  exists value. by rewrite Hv, Hl.
Qed.

(** C10 on a file whose first line that is not blank claims depth 3. *)
Lemma C10_witness :
  let infile := [u ""; u "3 HEAD x"; u "4 SOUR y"] in
  (@repair_gedcom_numbering ascii_digits infile).1 =
    [Written 0 (u "0 HEAD x" ++ [10%N]); Written 1 (u "1 SOUR y" ++ [10%N])] ∧
  w_level (Written 0 (u "0 HEAD x" ++ [10%N])) = 0.
Proof.
  intros infile. split; [reflexivity|].
  apply (proj1 (@C10_first_line_at_depth_zero ascii_digits) infile _
           [Written 1 (u "1 SOUR y" ++ [10%N])]).
  reflexivity.
Defined.

(** ** The relationship linker *)

(** C3: the parents of a child are the husband and wife of the last family
    record, in file order, that lists the child: a record [R2] that lists
    [C] after a record [R1] that lists it overwrites what [R1] gave. *)
Theorem C3_last_family_wins (elements : list Element)
    (l1 l2 l3 : list family) (R1 R2 : family) (C : str) :
  families_of elements = l1 ++ R1 :: l2 ++ R2 :: l3 →
  C ∈ children_ids R1 → C ∈ children_ids R2 →
  Forall (λ R, C ∉ children_ids R) l3 →
  child_to_parents (families_pass elements) !! C
    = Some (husband_id R2, wife_id R2).
Proof.
  intros E _ H2 H3. unfold families_pass. rewrite E.
  rewrite app_comm_cons, app_assoc, foldl_app. simpl.
  rewrite link_families_parents_other by done.
  rewrite link_family_parents_lookup. by rewrite decide_True.
Qed.

(** C3 on two families that both list [@I3@]. *)
Lemma C3_witness :
  let elements :=
    [fam_of "@F1@" [line_of "HUSB" "@I1@"; line_of "WIFE" "@I2@";
                    line_of "CHIL" "@I3@"];
     fam_of "@F2@" [line_of "HUSB" "@I4@"; line_of "WIFE" "@I5@";
                    line_of "CHIL" "@I3@"]] in
  child_to_parents (families_pass elements) !! u "@I3@"
    = Some (u "@I4@", u "@I5@").
Proof.
  intros elements.
  apply (C3_last_family_wins elements [] [] []
           (mkFamily (u "@I1@") (u "@I2@") [u "@I3@"])
           (mkFamily (u "@I4@") (u "@I5@") [u "@I3@"]) (u "@I3@")).
  - reflexivity.
  - simpl. left.
  - simpl. left.
  - constructor.
Defined.

(** C4 as stated fails: a family with a husband and no wife appends the
    empty id of the absent wife to the husband's spouse list. *)
Lemma C4_counterexample :
  let elements := [fam_of "@F1@" [line_of "HUSB" "@I1@"; line_of "CHIL" "@I3@"]] in
  wife_id <$> families_of elements = [[]] ∧
  id_to_spouses (families_pass elements) !! u "@I1@" = Some [[]].
Proof. split; reflexivity. Qed.

(** C4, amended: no entry of the spouse or child map is keyed by the empty
    id.  A family with an absent husband or wife leaves the entry of the
    empty id and of every id other than the present partner's as they
    were; the present partner's child list gets the children of the family
    and nothing else, and the present partner's spouse list gets one
    entry, the empty id of the absent partner. *)
Theorem C4_absent_partner_updates :
  (∀ elements : list Element,
     id_to_spouses (families_pass elements) !! [] = None ∧
     id_to_children (families_pass elements) !! [] = None) ∧
  (∀ (ix : rel_index) (f : family),
     husband_id f = [] ∨ wife_id f = [] →
     (∀ k, k = [] ∨ (k ≠ husband_id f ∧ k ≠ wife_id f) →
           id_to_spouses (link_family ix f) !! k = id_to_spouses ix !! k ∧
           id_to_children (link_family ix f) !! k = id_to_children ix !! k) ∧
     (∀ p, p ≠ [] → p = husband_id f ∨ p = wife_id f →
           id_to_spouses (link_family ix f) !! p
             = Some (default [] (id_to_spouses ix !! p) ++ [[]]) ∧
           id_to_children (link_family ix f) !! p
             = Some (default [] (id_to_children ix !! p) ++ children_ids f))).
Proof.
  split.
  - intros elements. by apply link_families_no_empty_key.
  - intros ix f Habsent.
    rewrite link_family_spouses, link_family_children. simpl. split.
    + intros k Hk.
      destruct (truthy (husband_id f)) eqn:Hh, (truthy (wife_id f)) eqn:Hw;
        rewrite ?lookup_setdefault_extend;
        repeat match goal with
               | H : truthy ?s = true |- _ => apply truthy_spec in H
               end;
        repeat case_decide; naive_solver.
    + intros p Hp Hpresent.
      destruct (husband_id f) as [|c r] eqn:Eh, (wife_id f) as [|c' r'] eqn:Ew;
        simpl; rewrite ?lookup_setdefault_extend;
        repeat case_decide; naive_solver.
Qed.

(** C4, amended, on a family with a wife and no husband. *)
Lemma C4_witness :
  let f := mkFamily [] (u "@I2@") [u "@I3@"] in
  id_to_spouses (link_family empty_index f) !! u "@I2@" = Some [[]] ∧
  id_to_children (link_family empty_index f) !! u "@I2@" = Some [u "@I3@"].
Proof.
  intros f.
  apply (proj2 (proj2 C4_absent_partner_updates empty_index f
                  (or_introl eq_refl)) (u "@I2@")).
  - done.
  - by right.
Defined.

(** C5: a family with a husband and a wife puts each in the spouse list of
    the other. *)
Theorem C5_spouses_symmetric (elements : list Element) (f : family) :
  f ∈ families_of elements → husband_id f ≠ [] → wife_id f ≠ [] →
  (∃ l, id_to_spouses (families_pass elements) !! husband_id f = Some l ∧
        wife_id f ∈ l) ∧
  (∃ l, id_to_spouses (families_pass elements) !! wife_id f = Some l ∧
        husband_id f ∈ l).
Proof.
  intros Hf Hh Hw. apply list_elem_of_split in Hf as (l1 & l2 & E).
  unfold families_pass. rewrite E, foldl_app. simpl.
  destruct (link_family_couple (foldl link_family empty_index l1) f Hh Hw)
    as [H1 H2].
  split; by apply has_spouse_link_families.
Qed.

(** C5 on the family of the spec's scenario. *)
Lemma C5_witness :
  let elements :=
    [fam_of "@F1@" [line_of "HUSB" "@I1@"; line_of "WIFE" "@I2@";
                    line_of "CHIL" "@I3@"]] in
  (∃ l, id_to_spouses (families_pass elements) !! u "@I1@" = Some l ∧
        u "@I2@" ∈ l) ∧
  (∃ l, id_to_spouses (families_pass elements) !! u "@I2@" = Some l ∧
        u "@I1@" ∈ l).
Proof.
  intros elements.
  apply (C5_spouses_symmetric elements
           (mkFamily (u "@I1@") (u "@I2@") [u "@I3@"])).
  - left.
  - done.
  - done.
Defined.

(** The id and name columns after the individuals pass. *)
Lemma individuals_pass_columns (elements : list Element) :
  col_ID (individuals_pass elements).2
    = (λ e, sanitize_string (get_pointer e)) <$> individuals_of elements ∧
  col_Name (individuals_pass elements).2
    = (λ e, sanitize_string (display_name e)) <$> individuals_of elements.
Proof.
  unfold individuals_pass, individuals_of.
  assert (∀ st : gmap str str * individuals_data,
            col_ID (foldl add_individual st elements).2
              = col_ID st.2 ++
                ((λ e, sanitize_string (get_pointer e)) <$>
                   filter (λ e, class_of e = IndividualElement) elements) ∧
            col_Name (foldl add_individual st elements).2
              = col_Name st.2 ++
                ((λ e, sanitize_string (display_name e)) <$>
                   filter (λ e, class_of e = IndividualElement) elements)) as H.
  { induction elements as [|e r IH]; intros st.
    - simpl. by rewrite !app_nil_r.
    - cbn [foldl]. destruct (IH (add_individual st e)) as [-> ->].
      rewrite filter_cons. unfold add_individual.
      destruct (decide (class_of e = IndividualElement)); [|done].
      simpl. by rewrite <- !app_assoc. }
  apply H.
Qed.

(** The rows of a table that was updated from the one the individuals
    pass left. *)
Lemma updated_lookup (id_to_name : gmap str str) (ix : rel_index)
    (t t' : individuals_data) (i : nat) (id : str) :
  updated id_to_name ix 0 (col_ID t) t t' → unlinked t →
  col_ID t !! i = Some id →
  col_Father_ID t' !! i = Some (default [] (new_father_id ix id)) ∧
  col_Mother_ID t' !! i = Some (default [] (new_mother_id ix id)) ∧
  col_Father_Name t' !! i = Some (default [] (new_father_name id_to_name ix id)) ∧
  col_Mother_Name t' !! i = Some (default [] (new_mother_name id_to_name ix id)) ∧
  col_Spouse_ID t' !! i = Some (default [] (new_spouse_id ix id)) ∧
  col_Spouse_Name t' !! i = Some (default [] (new_spouse_name id_to_name ix id)) ∧
  col_Children_IDs t' !! i = Some (default [] (new_children_ids ix id)) ∧
  col_Children_Names t' !! i
    = Some (default [] (new_children_names id_to_name ix id)).
Proof.
  intros (_ & _ & E1 & E2 & E3 & E4 & E5 & E6 & E7 & E8)
         (U1 & U2 & U3 & U4 & U5 & U6 & U7 & U8) Hid.
  pose proof (lookup_lt_Some _ _ _ Hid) as Hi.
  rewrite E1, E2, E3, E4, E5, E6, E7, E8, U1, U2, U3, U4, U5, U6, U7, U8.
  repeat split; apply (set_all_lookup 0 i); try done;
    by apply lookup_replicate_2.
Qed.



(** ** The scenario of the spec *)

(** The ten lines of the scenario are written as they are. *)
Example scenario_repair `{!UnicodeData} :
  let infile :=
    (λ line, line ++ [10%N]) <$>
    [u "0 INDI @I1@"; u "1 NAME John /Doe/"; u "0 INDI @I2@";
     u "1 NAME Jane /Doe/"; u "0 FAM @F1@"; u "1 HUSB @I1@";
     u "1 WIFE @I2@"; u "1 CHIL @I3@"; u "0 INDI @I3@";
     u "1 NAME Sam /Doe/"] in
  repair_gedcom_numbering infile
    = ((λ line, Written (default 0 (depth_of_text line)) line) <$> infile, None).
Proof. reflexivity. Qed.

(** The index of the scenario, and the row of [@I3@]. *)
Example scenario_link :
  let elements :=
    [indi_of "@I1@" "John" "Doe"; indi_of "@I2@" "Jane" "Doe";
     fam_of "@F1@" [line_of "HUSB" "@I1@"; line_of "WIFE" "@I2@";
                    line_of "CHIL" "@I3@"];
     indi_of "@I3@" "Sam" "Doe"] in
  let ix := families_pass elements in
  child_to_parents ix !! u "@I3@" = Some (u "@I1@", u "@I2@") ∧
  id_to_spouses ix !! u "@I1@" = Some [u "@I2@"] ∧
  id_to_spouses ix !! u "@I2@" = Some [u "@I1@"] ∧
  id_to_children ix !! u "@I1@" = Some [u "@I3@"] ∧
  id_to_children ix !! u "@I2@" = Some [u "@I3@"] ∧
  ∃ t, link_relationships elements = inr t ∧
       col_Father_Name t !! 2%nat = Some (u "John Doe") ∧
       col_Mother_Name t !! 2%nat = Some (u "Jane Doe").
Proof.
  repeat split; try reflexivity.
  eexists. split; [vm_compute; reflexivity|]. split; reflexivity.
Qed.

(** A family whose husband [@I9@] is no parsed individual: the row of the
    child has the id of the father and an empty name for him. *)
Example missing_father :
  let elements :=
    [indi_of "@I2@" "Jane" "Doe"; indi_of "@I3@" "Sam" "Doe";
     fam_of "@F1@" [line_of "HUSB" "@I9@"; line_of "WIFE" "@I2@";
                    line_of "CHIL" "@I3@"]] in
  ∃ t, link_relationships elements = inr t ∧
       col_ID t !! 1%nat = Some (u "@I3@") ∧
       col_Father_ID t !! 1%nat = Some (u "@I9@") ∧
       col_Father_Name t !! 1%nat = Some [] ∧
       col_Mother_Name t !! 1%nat = Some (u "Jane Doe") ∧
       col_Children_Names t !! 0%nat = Some (u "Sam Doe") ∧
       col_Spouse_Name t !! 0%nat = Some [] ∧
       col_Spouse_ID t !! 1%nat = Some [].
Proof.
  eexists. split; [vm_compute; reflexivity|]. repeat split; reflexivity.
Qed.

(** * Further properties of the code *)

(** ** The depth repair pass *)

Section RepairMore.
Context `{!UnicodeData}.

Lemma repair_line_raises (previous : Z) (s : str) :
  (∃ e, repair_line previous s = inl e) ↔ 32%N ∉ s.
Proof.
  rewrite repair_line_spec, <- find_space_None.
  destruct (find_space s) as [[a b]|]; simpl.
  - split; [by intros [e ?] | done].
  - split; [done | by exists IndexError].
Qed.

Lemma repair_loop_completes (previous : Z) (infile : list str) :
  (repair_loop previous infile).2 = None ↔
  Forall (λ line, blank line = true ∨ 32%N ∈ strip line) infile.
Proof.
  revert previous. induction infile as [|line rest IH]; intros previous.
  - done.
  - rewrite repair_loop_cons, Forall_cons. destruct (blank line) eqn:B.
    + rewrite IH. naive_solver.
    + destruct (repair_line previous (strip line)) as [e|w] eqn:E; simpl.
      * assert (32%N ∉ strip line) as Hn
          by (apply (repair_line_raises previous); eauto).
        naive_solver.
      * rewrite IH. split; [|naive_solver]. intros Hrest. split; [|done]. right.
        destruct (decide (32%N ∈ strip line)) as [|Hn]; [done|].
        apply (repair_line_raises previous) in Hn as [e He]. congruence.
Qed.

Lemma depths_ok_index (previous : Z) (ds : list Z) (i : nat) (d : Z) :
  depths_ok previous ds → ds !! i = Some d → d ≤ previous + 1 + Z.of_nat i.
Proof.
  revert previous i. induction ds as [|x r IH]; intros previous i; [done|].
  simpl. intros [Hx Hr]. destruct i as [|i]; simpl.
  - intros [= <-]. lia.
  - intros Hd. specialize (IH x i Hr Hd). lia.
Qed.

End RepairMore.

(** X1: the pass ends without an exception exactly when every line that is
    not blank has a [' '] in it once stripped. *)
Theorem X1_repair_completes_iff `{!UnicodeData} (infile : list str) :
  (repair_gedcom_numbering infile).2 = None ↔
  Forall (λ line, blank line = true ∨ 32%N ∈ strip line) infile.
Proof. apply repair_loop_completes. Qed.

(** X2: blank lines change nothing: the pass does on a file what it does
    on the file without its blank lines, from any state. *)
Theorem X2_blank_lines_transparent `{!UnicodeData} (previous_level : Z)
    (infile : list str) :
  repair_loop previous_level infile =
  repair_loop previous_level (filter (λ line, blank line = false) infile).
Proof.
  revert previous_level. induction infile as [|line rest IH]; intros p; [done|].
  rewrite filter_cons. destruct (blank line) eqn:B.
  - rewrite decide_False by done. rewrite repair_loop_cons, B. apply IH.
  - rewrite decide_True by done. rewrite !repair_loop_cons, B.
    destruct (repair_line p (strip line)); [done|]. by rewrite IH.
Qed.

(** X3: the pass is one pass.  On a file [a ++ b] it writes what it writes
    on [a]; if that raised it stops there, and otherwise it goes on with
    [b] from the level of the last line written. *)
Theorem X3_repair_loop_app `{!UnicodeData} (previous_level : Z)
    (a b : list str) :
  repair_loop previous_level (a ++ b) =
  match (repair_loop previous_level a).2 with
  | Some e => ((repair_loop previous_level a).1, Some e)
  | None =>
      let out := (repair_loop previous_level a).1 in
      (out ++ (repair_loop (level_after previous_level out) b).1,
       (repair_loop (level_after previous_level out) b).2)
  end.
Proof.
  revert previous_level. induction a as [|line rest IH]; intros p.
  - change (repair_loop p b =
            ((repair_loop p b).1, (repair_loop p b).2)).
    by destruct (repair_loop p b).
  - rewrite <- app_comm_cons, !repair_loop_cons. destruct (blank line); [apply IH|].
    destruct (repair_line p (strip line)) as [e|w]; [done|]. simpl.
    rewrite IH. destruct (repair_loop (w_level w) rest) as [out r]. simpl.
    destruct r; [done|]. simpl.
    assert (level_after p (w :: out) = level_after (w_level w) out) as ->; [|done].
    unfold level_after. destruct out as [|w' out'] using rev_ind; [done|].
    by rewrite app_comm_cons, !last_snoc.
Qed.

(** X4: what a written line holds.  When the pass ends without an
    exception, the line written for an input line is the level, a space,
    the text after the first space of the stripped input line as it
    stands, and a newline: what stood before that first space is not
    written. *)
Theorem X4_written_text `{!UnicodeData} (infile : list str) :
  (repair_gedcom_numbering infile).2 = None →
  outfile infile =
  zip_with (λ w line,
              str_of_int (w_level w) ++ 32%N ::
              after_first_space (strip line) ++ [10%N])
           (repair_gedcom_numbering infile).1
           (filter (λ line, blank line = false) infile).
Proof.
  unfold outfile, repair_gedcom_numbering. generalize (-1).
  induction infile as [|line rest IH]; intros p; [done|].
  rewrite repair_loop_cons, filter_cons. destruct (blank line) eqn:B.
  - rewrite decide_False by done. apply IH.
  - rewrite decide_True by done. rewrite repair_line_spec.
    destruct (find_space (strip line)) as [[x y]|] eqn:F; [|done].
    assert (after_first_space (strip line) = y) as Hy
      by (unfold after_first_space; by rewrite F).
    cbn -[after_first_space]. intros Hn. by rewrite IH, Hy.
Qed.

(** X4 on a line whose depth and tag are separated by a tab: the tag goes
    with the depth. *)
Lemma X4_witness :
  let infile := [u "0 HEAD"; [49; 9; 78; 65; 77; 69; 32; 74; 111; 101]%N] in
  (@repair_gedcom_numbering ascii_digits infile).2 = None ∧
  @outfile ascii_digits infile = [u "0 HEAD" ++ [10%N]; u "1 Joe" ++ [10%N]].
Proof.
  intros infile. split; [reflexivity|].
  rewrite (@X4_written_text ascii_digits infile); reflexivity.
Defined.

(** X5: a depth that [int] reads is brought into the range from [0] to
    [previous_level + 1], and is kept when it is in it. *)
Theorem X5_parsed_depth_is_clamped `{!UnicodeData} (previous_level n : Z)
    (line : str) :
  -1 ≤ previous_level →
  py_int (hd [] (split_space 2 (strip line))) = Some n →
  corrected_level previous_level (split_space 2 (strip line))
    = inr (0 `max` (n `min` (previous_level + 1))).
Proof.
  intros Hp Hn. unfold corrected_level. cbn [split_space] in *.
  destruct (find_space (strip line)) as [[a b]|]; simpl in *;
    unfold parse_level, clamp_level; rewrite Hn; f_equal;
    destruct (Z.ltb_spec (previous_level + 1) n); try lia;
    destruct (Z.ltb_spec n 0); lia.
Qed.

(** X5 on a negative depth and on a depth in range. *)
Lemma X5_witness :
  @corrected_level ascii_digits 3 (split_space 2 (strip (u "-2 NOTE x"))) = inr 0 ∧
  @corrected_level ascii_digits 3 (split_space 2 (strip (u "2 NOTE x"))) = inr 2.
Proof.
  split.
  - apply (@X5_parsed_depth_is_clamped ascii_digits 3 (-2) (u "-2 NOTE x"));
      [lia | reflexivity].
  - apply (@X5_parsed_depth_is_clamped ascii_digits 3 2 (u "2 NOTE x"));
      [lia | reflexivity].
Defined.

(** X6: the line written in position [i] (from 0) is at a depth of at
    most [i]. *)
Theorem X6_depth_at_most_position `{!UnicodeData} (infile : list str)
    (i : nat) (w : written) :
  (repair_gedcom_numbering infile).1 !! i = Some w →
  0 ≤ w_level w ≤ Z.of_nat i.
Proof.
  intros Hw.
  pose proof (repair_loop_depths (-1) infile ltac:(lia)) as Hd.
  fold (repair_gedcom_numbering infile) in Hd.
  assert ((w_level <$> (repair_gedcom_numbering infile).1) !! i
          = Some (w_level w)) as Hl by (by rewrite list_lookup_fmap, Hw).
  split.
  - by apply (depths_ok_lookup (-1) _ ltac:(lia) Hd) in Hl.
  - apply (depths_ok_index (-1)) in Hl; [lia | done].
Qed.

(** X6 on the third line of a file. *)
Lemma X6_witness :
  0 ≤ w_level (Written 2 (u "2 DATE 1900" ++ [10%N])) ≤ Z.of_nat 2.
Proof.
  apply (@X6_depth_at_most_position ascii_digits
           [u "0 @I1@ INDI"; u "1 BIRT"; u "7 DATE 1900"] 2%nat).
  reflexivity.
Defined.

(** ** [sanitize_string] *)

Lemma sanitize_string_cons (c : N) (r : str) :
  sanitize_string (c :: r) =
  (if is_control c then []
   else [if (c =? 94)%N then 32%N else if (c =? 183)%N then 46%N else c])
  ++ sanitize_string r.
Proof.
  unfold sanitize_string, replace_char. rewrite filter_cons.
  destruct (is_control c) eqn:E.
  - by rewrite decide_False by done.
  - rewrite decide_True by done. rewrite !fmap_cons. simpl. f_equal.
    destruct (N.eqb_spec c 94) as [->|]; [done|]. done.
Qed.

Lemma sanitize_string_kept (text : str) : Forall kept_char (sanitize_string text).
Proof.
  induction text as [|c r IH]; [constructor|].
  rewrite sanitize_string_cons. destruct (is_control c) eqn:E; [done|].
  constructor; [|done]. unfold kept_char.
  destruct (N.eqb_spec c 94) as [->|H94]; [done|].
  destruct (N.eqb_spec c 183) as [->|H183]; done.
Qed.

Lemma sanitize_string_fixed (text : str) :
  Forall kept_char text → sanitize_string text = text.
Proof.
  induction 1 as [|c r (Hc & H94 & H183) _ IH]; [done|].
  rewrite sanitize_string_cons, Hc, IH.
  destruct (N.eqb_spec c 94); [done|]. by destruct (N.eqb_spec c 183).
Qed.

(** X7: [sanitize_string] is idempotent. *)
Theorem X7_sanitize_idempotent (text : str) :
  sanitize_string (sanitize_string text) = sanitize_string text.
Proof. apply sanitize_string_fixed, sanitize_string_kept. Qed.

(** X8: the result of [sanitize_string] holds no control character of the
    pattern, no ['^'] and no middle dot; and a text is returned as it is
    exactly when it holds none of them (tab, newline and carriage return
    are kept). *)
Theorem X8_sanitize_result_is_clean (text : str) :
  Forall kept_char (sanitize_string text) ∧
  (sanitize_string text = text ↔ Forall kept_char text) ∧
  sanitize_string [9; 10; 13]%N = [9; 10; 13]%N.
Proof.
  split; [apply sanitize_string_kept|]. split; [|reflexivity]. split.
  - intros <-. apply sanitize_string_kept.
  - apply sanitize_string_fixed.
Qed.

(** X9: [sanitize_string] works character by character: it distributes
    over concatenation, and never makes a text longer. *)
Theorem X9_sanitize_app (a b : str) :
  sanitize_string (a ++ b) = sanitize_string a ++ sanitize_string b ∧
  (length (sanitize_string a) ≤ length a)%nat.
Proof.
  split.
  - induction a as [|c r IH]; [done|].
    rewrite <- app_comm_cons, !sanitize_string_cons, IH. by rewrite app_assoc.
  - induction a as [|c r IH]; [done|].
    rewrite sanitize_string_cons, length_app.
    destruct (is_control c); simpl; lia.
Qed.

(** ** The relationship index, in closed form *)

#[global] Instance partner_dec (k : str) (f : family) : Decision (partner k f).
Proof. unfold partner. apply _. Defined.

Lemma lookup_two_extends (d : gmap str (list str)) (h w k : str)
    (xs ys : list str) :
  (if truthy w then setdefault_extend w ys
                      (if truthy h then setdefault_extend h xs d else d)
   else if truthy h then setdefault_extend h xs d else d) !! k =
  if decide (k ≠ [] ∧ (h = k ∨ w = k))
  then Some (default [] (d !! k) ++
             (if decide (k ≠ [] ∧ h = k) then xs else []) ++
             (if decide (k ≠ [] ∧ w = k) then ys else []))
  else d !! k.
Proof.
  destruct (truthy h) eqn:Hh, (truthy w) eqn:Hw;
    rewrite ?lookup_setdefault_extend;
    repeat match goal with
           | H : truthy ?s = true |- _ => apply truthy_spec in H
           | H : truthy ?s = false |- _ =>
               assert (s = []) as -> by (by destruct s); clear H
           end;
    repeat case_decide; simplify_eq; simpl;
    rewrite ?app_nil_r, <- ?app_assoc; try done; naive_solver.
Qed.

Lemma link_family_children_lookup (ix : rel_index) (f : family) (k : str) :
  id_to_children (link_family ix f) !! k =
  if decide (partner k f)
  then Some (default [] (id_to_children ix !! k) ++ children_from k f)
  else id_to_children ix !! k.
Proof.
  rewrite link_family_children. cbn zeta. apply lookup_two_extends.
Qed.

Lemma link_family_spouses_lookup (ix : rel_index) (f : family) (k : str) :
  id_to_spouses (link_family ix f) !! k =
  if decide (partner k f)
  then Some (default [] (id_to_spouses ix !! k) ++ spouses_from k f)
  else id_to_spouses ix !! k.
Proof.
  rewrite link_family_spouses. cbn zeta. apply lookup_two_extends.
Qed.

(** A map whose entries only grow by what each family gives its partners:
    the entry of [k] after all the families. *)
Section Accumulate.
Context (proj : rel_index → gmap str (list str)) (from : str → family → list str).
Context (k : str).
Hypothesis step : ∀ ix f,
  proj (link_family ix f) !! k =
  if decide (partner k f) then Some (default [] (proj ix !! k) ++ from k f)
  else proj ix !! k.
Hypothesis from_other : ∀ f, ¬ partner k f → from k f = [].

Lemma from_others (fams : list family) :
  ¬ Exists (partner k) fams → concat (from k <$> fams) = [].
Proof.
  induction fams as [|f r IH]; [done|]. rewrite Exists_cons. intros Hn.
  rewrite fmap_cons. simpl. rewrite from_other, IH by tauto. done.
Qed.

Lemma accumulate (fams : list family) (ix : rel_index) :
  proj (foldl link_family ix fams) !! k =
  if decide (Exists (partner k) fams)
  then Some (default [] (proj ix !! k) ++ concat (from k <$> fams))
  else proj ix !! k.
Proof.
  revert ix. induction fams as [|f r IH]; intros ix.
  - by rewrite decide_False by (by inversion 1).
  - cbn [foldl]. rewrite IH, step, fmap_cons. cbn [concat].
    destruct (decide (partner k f)) as [Hf|Hf];
      destruct (decide (Exists (partner k) r)) as [Hr|Hr].
    + rewrite decide_True by (by left). simpl. by rewrite app_assoc.
    + rewrite decide_True by (by left). by rewrite from_others, app_nil_r.
    + rewrite decide_True by (by right). by rewrite from_other.
    + rewrite decide_False by (rewrite Exists_cons; tauto). done.
Qed.
End Accumulate.

(** X10: the name of an id is the display name of the last individual
    record, in file order, that carries the id as its pointer; an id that
    no individual record carries has no entry. *)
Theorem X10_id_to_name_is_last_individual (elements : list Element) (id : str) :
  (individuals_pass elements).1 !! id =
  display_name <$>
    last (filter (λ e, get_pointer e = id) (individuals_of elements)).
Proof.
  unfold individuals_pass, individuals_of.
  assert (∀ st : gmap str str * individuals_data,
            (foldl add_individual st elements).1 !! id =
            match last (filter (λ e, get_pointer e = id)
                          (filter (λ e, class_of e = IndividualElement) elements)) with
            | Some e => Some (display_name e)
            | None => st.1 !! id
            end) as H.
  { induction elements as [|e r IH]; intros st; [done|].
    cbn [foldl]. rewrite IH, filter_cons. unfold add_individual.
    destruct (decide (class_of e = IndividualElement)) as [Hc|Hc]; [|done].
    rewrite filter_cons. simpl fst.
    destruct (decide (get_pointer e = id)) as [Hp|Hp].
    - destruct (filter _ (filter _ r)) as [|x l] eqn:E; simpl.
      + by rewrite Hp, lookup_insert_eq.
      + by destruct (last (x :: l)) eqn:El;
          [|apply last_None in El].
    - destruct (last _); [done|]. by rewrite lookup_insert_ne. }
  rewrite H. by destruct (last _).
Qed.

(** X11: the child list of an id is, in file order, the children of every
    family in which the id is the husband or the wife (twice for a family
    in which it is both); an id that is a partner in no family has no
    entry. *)
Theorem X11_children_in_file_order (elements : list Element) (k : str) :
  id_to_children (families_pass elements) !! k =
  if decide (Exists (partner k) (families_of elements))
  then Some (concat (children_from k <$> families_of elements))
  else None.
Proof.
  unfold families_pass.
  rewrite (accumulate id_to_children children_from k).
  - done.
  - intros ix f. apply link_family_children_lookup.
  - intros f Hf. unfold children_from, partner in *.
    repeat case_decide; (done || naive_solver).
Qed.

(** X12: the spouse list of an id is, in file order, the other partner of
    every family in which the id is the husband or the wife, as the family
    gives it, empty ids and repeated ids included; an id that is a partner
    in no family has no entry. *)
Theorem X12_spouses_in_file_order (elements : list Element) (k : str) :
  id_to_spouses (families_pass elements) !! k =
  if decide (Exists (partner k) (families_of elements))
  then Some (concat (spouses_from k <$> families_of elements))
  else None.
Proof.
  unfold families_pass.
  rewrite (accumulate id_to_spouses spouses_from k).
  - done.
  - intros ix f. apply link_family_spouses_lookup.
  - intros f Hf. unfold spouses_from, partner in *.
    repeat case_decide; (done || naive_solver).
Qed.

(** X13: the parents of an id are the husband and the wife of the last
    family, in file order, that lists the id as a child; an id that no
    family lists has no entry. *)
Theorem X13_parents_of_last_listing (elements : list Element) (c : str) :
  child_to_parents (families_pass elements) !! c =
  (λ f, (husband_id f, wife_id f)) <$>
    last (filter (λ f, c ∈ children_ids f) (families_of elements)).
Proof.
  unfold families_pass.
  assert (∀ fams ix,
            child_to_parents (foldl link_family ix fams) !! c =
            match last (filter (λ f, c ∈ children_ids f) fams) with
            | Some f => Some (husband_id f, wife_id f)
            | None => child_to_parents ix !! c
            end) as H.
  { induction fams as [|f r IH]; intros ix; [done|].
    cbn [foldl]. rewrite IH, filter_cons, link_family_parents_lookup.
    destruct (decide (c ∈ children_ids f)) as [Hc|Hc]; [|done].
    destruct (filter _ r) as [|x l] eqn:E; [done|].
    change (last (f :: x :: l)) with (last (x :: l)).
    by destruct (last (x :: l)) eqn:El; [|apply last_None in El]. }
  rewrite H. by destruct (last _).
Qed.

(** ** The individuals table *)

(** The table after the update, from the table of the individuals pass. *)
Lemma link_relationships_updated (elements : list Element) :
  ∃ t, link_relationships elements = inr t ∧
       rows t (length (individuals_of elements)) ∧
       updated (individuals_pass elements).1 (families_pass elements) 0
         (col_ID (individuals_pass elements).2) (individuals_pass elements).2 t.
Proof.
  unfold link_relationships, update_individuals.
  pose proof (individuals_pass_table elements) as [Hr Hu].
  pose proof (individuals_pass_columns elements) as [Hid _].
  destruct (individuals_pass elements) as [names t0]. simpl in *.
  destruct (update_rows_ok names (families_pass elements) 0 _ (col_ID t0) t0
              Hr ltac:(simpl; lia)) as (t & Ht & Hrows & Hup).
  exists t. split; [done|]. split; [|done].
  by rewrite Hid, length_fmap in Hrows.
Qed.

(** X14: the update never raises, and the table it leaves has one row for
    each individual record, in file order, in every column the linker
    reads or writes: the id and name columns hold the sanitized pointer
    and the sanitized display name of the records. *)
Theorem X14_one_row_per_individual (elements : list Element) :
  ∃ t, link_relationships elements = inr t ∧
       col_ID t
         = (λ e, sanitize_string (get_pointer e)) <$> individuals_of elements ∧
       col_Name t
         = (λ e, sanitize_string (display_name e)) <$> individuals_of elements ∧
       rows t (length (individuals_of elements)).
Proof.
  destruct (link_relationships_updated elements) as (t & Ht & Hrows & Hup).
  destruct (individuals_pass_columns elements) as [Hid Hname].
  destruct Hup as (E1 & E2 & _).
  exists t. by rewrite E1, E2, Hid, Hname.
Qed.

(** X15: an individual is looked up under its sanitized pointer.  When the
    parents map has no entry for the sanitized pointer of the record in
    row [i], the row has no parents, whatever the map holds for the
    pointer itself. *)
Theorem X15_lookup_by_sanitized_pointer (elements : list Element) (i : nat)
    (e : Element) :
  individuals_of elements !! i = Some e →
  child_to_parents (families_pass elements) !! sanitize_string (get_pointer e)
    = None →
  ∃ t, link_relationships elements = inr t ∧
       col_Father_ID t !! i = Some [] ∧ col_Mother_ID t !! i = Some [] ∧
       col_Father_Name t !! i = Some [] ∧ col_Mother_Name t !! i = Some [].
Proof.
  intros He Hnone.
  destruct (link_relationships_updated elements) as (t & Ht & Hrows & Hup).
  destruct (individuals_pass_columns elements) as [Hid _].
  destruct (individuals_pass_table elements) as [_ Hu].
  exists t. split; [done|].
  assert (col_ID (individuals_pass elements).2 !! i
          = Some (sanitize_string (get_pointer e))) as Hi
    by (by rewrite Hid, list_lookup_fmap, He).
  destruct (updated_lookup _ _ _ _ _ _ Hup Hu Hi) as (L1 & L2 & L3 & L4 & _).
  unfold new_father_id, new_mother_id, new_father_name, new_mother_name in *.
  rewrite Hnone in *. done.
Qed.

(** X15 on an individual whose pointer has a ['^'] in it: the family that
    lists it gives the map an entry for the pointer, and the row of the
    individual stays without parents. *)
Lemma X15_witness :
  let elements :=
    [indi_of "@I^3@" "Sam" "Doe";
     fam_of "@F1@" [line_of "HUSB" "@I1@"; line_of "WIFE" "@I2@";
                    line_of "CHIL" "@I^3@"]] in
  child_to_parents (families_pass elements) !! u "@I^3@"
    = Some (u "@I1@", u "@I2@") ∧
  ∃ t, link_relationships elements = inr t ∧
       col_Father_ID t !! 0%nat = Some [] ∧ col_Mother_ID t !! 0%nat = Some [] ∧
       col_Father_Name t !! 0%nat = Some [] ∧ col_Mother_Name t !! 0%nat = Some [].
Proof.
  intros elements. split; [reflexivity|].
  apply (X15_lookup_by_sanitized_pointer elements 0
           (indi_of "@I^3@" "Sam" "Doe")); reflexivity.
Defined.

(** ** The tables of [gedcom_to_excel] *)

Lemma cell_of_None (cells : list (string * str)) (k : str) :
  cell_of cells k = None ↔ k ∉ u <$> cells.*1.
Proof.
  unfold cell_of. induction cells as [|[c v] r IH]; simpl.
  - split; [intros _; apply not_elem_of_nil | done].
  - rewrite not_elem_of_cons. case_bool_decide as E; simpl.
    + split; [done | intros [? _]; congruence].
    + rewrite IH. split; [intros ?; split; [congruence | done] | tauto].
Qed.

Lemma append_row_lookup (cells : list (string * str)) (d : table) :
  NoDup (u <$> cells.*1) →
  (∀ k, k ∈ u <$> cells.*1 → is_Some (d !! k)) →
  ∃ d', append_row cells d = Some d' ∧
        ∀ k, d' !! k = match cell_of cells k with
                       | Some v => (λ l, l ++ [v]) <$> d !! k
                       | None => d !! k
                       end.
Proof.
  revert d. induction cells as [|[c v] r IH]; intros d Hnd Hin.
  - exists d. split; [done|]. intros k. done.
  - rewrite !fmap_cons in Hnd. simpl in Hnd. apply NoDup_cons in Hnd as [Hc Hnd].
    destruct (Hin (u c)) as [l Hl]; [rewrite !fmap_cons; left|].
    cbn [append_row]. unfold append. rewrite Hl. simpl.
    destruct (IH (<[u c := l ++ [v]]> d) Hnd) as (d' & -> & Hd').
    { intros k Hk. destruct (decide (u c = k)) as [<-|Hne].
      - rewrite lookup_insert_eq. eauto.
      - rewrite lookup_insert_ne by done. apply Hin. rewrite !fmap_cons. by right. }
    exists d'. split; [done|]. intros k. rewrite Hd'. unfold cell_of at 2.
    simpl. case_bool_decide as E; simpl.
    + subst k. apply cell_of_None in Hc. rewrite Hc.
      by rewrite lookup_insert_eq, Hl.
    + fold (cell_of r k). destruct (cell_of r k); by rewrite lookup_insert_ne.
Qed.

(** A run of appends that names every column once adds one row. *)
Lemma append_row_rectangular (columns : list string) (n : nat)
    (cells : list (string * str)) (d : table) :
  names_columns columns cells.*1 = true → rectangular columns n d →
  ∃ d', append_row cells d = Some d' ∧ rectangular columns (S n) d' ∧
        ∀ k, d' !! k = match cell_of cells k with
                       | Some v => (λ l, l ++ [v]) <$> d !! k
                       | None => d !! k
                       end.
Proof.
  unfold names_columns. rewrite !andb_true_iff, !bool_decide_eq_true.
  rewrite !Forall_forall. intros [[Hnd H1] H2] [Hin Hout].
  destruct (append_row_lookup cells d Hnd) as (d' & Hd' & Hl).
  { intros k Hk. destruct (Hin k (H1 k Hk)) as (l & -> & _). eauto. }
  exists d'. split; [done|]. split; [|done]. split.
  - intros k Hk. rewrite Hl. destruct (Hin k Hk) as (l & -> & Hlen).
    destruct (cell_of cells k) as [v|] eqn:E.
    + eexists. split; [done|]. rewrite length_app. simpl. lia.
    + apply cell_of_None in E. destruct E. by apply H2.
  - intros k Hk. rewrite Hl, (Hout k Hk).
    destruct (cell_of cells k); done.
Qed.

Lemma new_table_rectangular (columns : list string) :
  rectangular columns 0 (new_table columns).
Proof.
  unfold new_table. split.
  - intros k Hk. exists []. split; [|done].
    induction columns as [|c r IH]; [by apply elem_of_nil in Hk|].
    rewrite fmap_cons in *. simpl. destruct (decide (u c = k)) as [->|Hne].
    + apply lookup_insert_eq.
    + rewrite lookup_insert_ne by done. apply IH.
      apply elem_of_cons in Hk as [?|?]; [congruence | done].
  - intros k Hk. apply not_elem_of_list_to_map_1.
    by rewrite <- list_fmap_compose.
Qed.

(** A loop whose body keeps an invariant of what was looped over. *)
Lemma for_each_invariant {A S} (body : S → A → option S)
    (I : list A → S → Prop) (xs : list A) (st : S) :
  (∀ done st x, I done st → ∃ st', body st x = Some st' ∧ I (done ++ [x]) st') →
  I [] st → ∃ st', for_each body st xs = Some st' ∧ I xs st'.
Proof.
  intros Hbody. assert (∀ done st, I done st →
    ∃ st', for_each body st xs = Some st' ∧ I (done ++ xs) st') as H.
  { induction xs as [|x r IH]; intros done st0 H0; simpl.
    - exists st0. by rewrite app_nil_r.
    - destruct (Hbody done st0 x H0) as (st1 & -> & H1). simpl.
      destruct (IH _ _ H1) as (st2 & -> & H2). exists st2.
      by rewrite <- app_assoc in H2. }
  apply (H []).
Qed.

Lemma filter_snoc_length {A} (P : A → Prop) `{∀ x, Decision (P x)}
    (xs : list A) (x : A) :
  length (filter P (xs ++ [x])) =
  (length (filter P xs) + if decide (P x) then 1 else 0)%nat.
Proof.
  rewrite filter_app, length_app, filter_cons. by destruct (decide (P x)).
Qed.

(** A pass that appends one row for each element that [P] picks. *)
Lemma table_pass_rectangular (columns : list string) (P : Element → Prop)
    `{∀ x, Decision (P x)} (body : table → Element → option table)
    (elements : list Element) (d : table) :
  (∀ n d x, rectangular columns n d →
            ∃ d', body d x = Some d' ∧
                  rectangular columns (n + if decide (P x) then 1 else 0) d') →
  rectangular columns 0 d →
  ∃ d', for_each body d elements = Some d' ∧
        rectangular columns (length (filter P elements)) d'.
Proof.
  intros Hbody Hd.
  apply (for_each_invariant body
           (λ done d, rectangular columns (length (filter P done)) d)); [|done].
  intros done d0 x H0. destruct (Hbody _ d0 x H0) as (d' & -> & Hd').
  exists d'. split; [done|]. by rewrite filter_snoc_length.
Qed.

Lemma sum_list_snoc (ns : list nat) (n : nat) :
  sum_list (ns ++ [n]) = (sum_list ns + n)%nat.
Proof. induction ns as [|m r IH]; simpl; lia. Qed.

Lemma sum_list_fmap_snoc {A} (f : A → nat) (xs : list A) (x : A) :
  sum_list (f <$> xs ++ [x]) = (sum_list (f <$> xs) + f x)%nat.
Proof. rewrite fmap_app. exact (sum_list_snoc (f <$> xs) (f x)). Qed.

(** A loop that appends one row for each element that [P] picks, from a
    table of [n] rows. *)
Lemma rows_pass_rectangular (columns : list string) (P : Element → Prop)
    `{∀ x, Decision (P x)} (body : table → Element → option table)
    (elements : list Element) (n : nat) (d : table) :
  (∀ n d x, rectangular columns n d →
            ∃ d', body d x = Some d' ∧
                  rectangular columns (n + if decide (P x) then 1 else 0) d') →
  rectangular columns n d →
  ∃ d', for_each body d elements = Some d' ∧
        rectangular columns (n + length (filter P elements)) d'.
Proof.
  intros Hbody Hd.
  apply (for_each_invariant body
           (λ done d, rectangular columns (n + length (filter P done)) d)).
  - intros done d0 x H0. destruct (Hbody _ d0 x H0) as (d' & -> & Hd').
    exists d'. split; [done|]. rewrite filter_snoc_length.
    by rewrite Nat.add_assoc.
  - by rewrite Nat.add_0_r.
Qed.

(** The goal of a run of appends that names the columns of the table. *)
Ltac one_row :=
  lazymatch goal with
  | Hr : rectangular ?cols ?n ?d
    |- ∃ d', append_row ?cells ?d = Some d' ∧ rectangular ?cols (?n + 1) d' =>
      let d' := fresh "d'" in
      let E := fresh "E" in
      let R := fresh "R" in
      destruct (append_row_rectangular cols n cells d) as (d' & E & R & _);
      [vm_compute; reflexivity | exact Hr |];
      exists d'; rewrite Nat.add_1_r; split; [exact E | exact R]
  end.

Ltac no_row :=
  lazymatch goal with
  | Hr : rectangular ?cols ?n ?d
    |- ∃ d', Some ?d = Some d' ∧ rectangular ?cols (?n + 0) d' =>
      exists d; rewrite Nat.add_0_r; split; [reflexivity | exact Hr]
  end.

Lemma source_elem_rectangular (n : nat) (d : table) (x : Element) :
  rectangular sources_columns n d →
  ∃ d', source_elem d x = Some d' ∧
        rectangular sources_columns
          (n + if decide (tagged "SOUR" x) then 1 else 0) d'.
Proof.
  intros Hr. unfold source_elem, tagged.
  destruct (decide (get_tag x = u "SOUR")); [|no_row].
  destruct (foldl _ _ _) as [v notes]. one_row.
Qed.

Lemma note_elem_rectangular (n : nat) (d : table) (x : Element) :
  rectangular notes_columns n d →
  ∃ d', note_elem d x = Some d' ∧
        rectangular notes_columns
          (n + if decide (tagged "NOTE" x) then 1 else 0) d'.
Proof.
  intros Hr. unfold note_elem, tagged.
  destruct (decide (get_tag x = u "NOTE")); [one_row | no_row].
Qed.

Lemma multimedia_elem_rectangular (n : nat) (d : table) (x : Element) :
  rectangular multimedia_columns n d →
  ∃ d', multimedia_elem d x = Some d' ∧
        rectangular multimedia_columns
          (n + if decide (tagged "OBJE" x) then 1 else 0) d'.
Proof.
  intros Hr. unfold multimedia_elem, tagged.
  destruct (decide (get_tag x = u "OBJE")); [cbn zeta; one_row | no_row].
Qed.

Lemma submitter_elem_rectangular (n : nat) (d : table) (x : Element) :
  rectangular submitter_columns n d →
  ∃ d', submitter_elem d x = Some d' ∧
        rectangular submitter_columns
          (n + if decide (tagged "SUBM" x) then 1 else 0) d'.
Proof.
  intros Hr. unfold submitter_elem, tagged.
  destruct (decide (get_tag x = u "SUBM")); [cbn zeta; one_row | no_row].
Qed.

Lemma header_elem_rectangular (n : nat) (d : table) (x : Element) :
  rectangular header_columns n d →
  ∃ d', header_elem d x = Some d' ∧
        rectangular header_columns
          (n + if decide (tagged "HEAD" x) then 1 else 0) d'.
Proof.
  intros Hr. unfold header_elem, tagged.
  destruct (decide (get_tag x = u "HEAD")); [cbn zeta; one_row | no_row].
Qed.

Lemma association_elem_rectangular (n : nat) (d : table) (x : Element) :
  rectangular associations_columns n d →
  ∃ d', association_elem d x = Some d' ∧
        rectangular associations_columns (n + n_associations x) d'.
Proof.
  intros Hr. unfold association_elem, n_associations.
  destruct (decide (class_of x = IndividualElement)); [|no_row].
  apply (rows_pass_rectangular associations_columns (tagged "ASSO")); [|done].
  clear. intros n d child Hr. unfold tagged.
  destruct (decide (get_tag child = u "ASSO")); [cbn zeta; one_row | no_row].
Qed.

(** The tags of the [elif] chain before the event records are no event
    tags. *)
Lemma event_tag_other (tag : str) :
  tag ∈ u <$> event_tags →
  tag ∉ u <$> (["BIRT"; "DEAT"; "NOTE"; "CHAN"]%string ++ indi_attributes.*1).
Proof.
  assert (Forall (λ k, k ∉ u <$> (["BIRT"; "DEAT"; "NOTE"; "CHAN"]%string
                                   ++ indi_attributes.*1))
                 (u <$> event_tags)) as H.
  { apply (bool_decide_unpack _). vm_compute. exact I. }
  rewrite Forall_forall in H. apply H.
Qed.

Lemma event_tag_branch (child : Element) :
  is_event child →
  get_tag child ≠ u "BIRT" ∧ get_tag child ≠ u "DEAT" ∧
  (∀ b, In b indi_attributes → get_tag child ≠ u b.1) ∧
  get_tag child ≠ u "NOTE" ∧ get_tag child ≠ u "CHAN".
Proof.
  intros He. pose proof (event_tag_other _ He) as Ho.
  rewrite fmap_app, not_elem_of_app in Ho. destruct Ho as [Ho Ha].
  repeat split.
  - intros E. apply Ho. rewrite E. set_solver.
  - intros E. apply Ho. rewrite E. set_solver.
  - intros b Hin Hb. destruct Ha. rewrite Hb.
    apply list_elem_of_fmap_2, list_elem_of_fmap_2. by apply list_elem_of_In.
  - intros E. apply Ho. rewrite E. set_solver.
  - intros E. apply Ho. rewrite E. set_solver.
Qed.

(** One turn of the loop over the children of an individual adds a row to
    the events table when the child is an event record, and none
    otherwise. *)
Lemma indi_child_events (id : str) (v : gmap str str) (notes : list str)
    (events : table) (child : Element) (m : nat) :
  rectangular events_columns m events →
  ∃ st', indi_child id (v, notes, events) child = Some st' ∧
         rectangular events_columns
           (m + if decide (is_event child) then 1 else 0) st'.2.
Proof.
  intros Hr. unfold indi_child.
  destruct (decide (is_event child)) as [He|He].
  - destruct (event_tag_branch child He) as (H1 & H2 & H3 & H4 & H5).
    rewrite (decide_False _ _ H1), (decide_False _ _ H2).
    destruct (find _ indi_attributes) as [b|] eqn:F.
    { apply find_some in F as [Hin Hb]. apply bool_decide_eq_true in Hb.
      by destruct (H3 b Hin). }
    rewrite (decide_False _ _ H4), (decide_False _ _ H5), (decide_True _ _ He).
    cbn zeta.
    match goal with
    | |- context [append_row ?cells events] =>
        destruct (append_row_rectangular events_columns m cells events)
          as (d' & -> & R & _); [vm_compute; reflexivity | done |]
    end.
    simpl. eexists. split; [done|]. simpl. by rewrite Nat.add_1_r.
  - rewrite Nat.add_0_r. unfold is_event in He.
    assert (∀ st : gmap str str * list str * table,
              st.2 = events →
              ∃ st', Some st = Some st' ∧ rectangular events_columns m st'.2)
      as Hsame by (intros st Hst; exists st; by rewrite Hst).
    repeat case_decide; try (by apply Hsame).
    all: match goal with
         | |- context [find ?f ?l] => destruct (find f l)
         end; try (by apply Hsame); repeat case_decide; try (by apply Hsame);
         by destruct He.
Qed.

(** The loop over the children of an individual. *)
Lemma indi_children_events (id : str) (children : list Element)
    (v : gmap str str) (notes : list str) (events : table) (m : nat) :
  rectangular events_columns m events →
  ∃ st', for_each (indi_child id) (v, notes, events) children = Some st' ∧
         rectangular events_columns
           (m + length (filter is_event children)) st'.2.
Proof.
  intros Hr.
  apply (for_each_invariant (indi_child id)
           (λ done st, rectangular events_columns
                         (m + length (filter is_event done)) st.2)).
  - intros done [[v0 notes0] events0] x H0. simpl in H0.
    destruct (indi_child_events id v0 notes0 events0 x _ H0) as (st' & -> & H').
    exists st'. split; [done|]. by rewrite filter_snoc_length, Nat.add_assoc.
  - simpl. by rewrite Nat.add_0_r.
Qed.

(** A run of assignments to the row [i] of columns of the table. *)
Lemma set_cells_rectangular (columns : list string) (n i : nat)
    (cells : list (string * str)) (d : table) :
  bool_decide (Forall (λ k, k ∈ u <$> columns) (u <$> cells.*1)) = true →
  rectangular columns n d → (i < n)%nat →
  ∃ d', set_cells i cells d = Some d' ∧ rectangular columns n d'.
Proof.
  rewrite bool_decide_eq_true. intros Hin Hr Hi. revert d Hr.
  induction cells as [|[c v] r IH]; intros d Hr.
  - by exists d.
  - rewrite !fmap_cons in Hin. apply Forall_cons in Hin as [Hc Hin].
    simpl in Hc. destruct Hr as [Hcols Hout].
    destruct (Hcols _ Hc) as (l & Hl & Hlen).
    cbn [set_cells]. unfold set_cell. rewrite Hl. simpl.
    rewrite decide_True by lia. simpl. apply IH; [done|]. split.
    + intros k Hk. destruct (decide (u c = k)) as [<-|Hne].
      * rewrite lookup_insert_eq. eexists. split; [done|].
        by rewrite length_insert.
      * rewrite lookup_insert_ne by done. by apply Hcols.
    + intros k Hk. rewrite lookup_insert_ne; [by apply Hout|].
      intros <-. done.
Qed.

Lemma bind_keeps {A} (R : A → Prop) (m : option A) (k : A → option A) :
  (∃ a, m = Some a ∧ R a) → (∀ a, R a → ∃ b, k a = Some b ∧ R b) →
  ∃ b, m ≫= k = Some b ∧ R b.
Proof. intros (a & -> & Ha) Hk. simpl. by apply Hk. Qed.

Lemma update_cells_rectangular (id_to_name : gmap str str) (ix : rel_index)
    (d : table) (n i : nat) (indiv_id : str) :
  rectangular individuals_columns n d → (i < n)%nat →
  ∃ d', update_cells id_to_name ix d i indiv_id = Some d' ∧
        rectangular individuals_columns n d'.
Proof.
  intros Hr Hi. unfold update_cells.
  apply bind_keeps; [|intros d1 Hr1; apply bind_keeps; [|intros d2 Hr2]].
  - destruct (child_to_parents ix !! indiv_id) as [[father mother]|];
      [|by exists d].
    apply (set_cells_rectangular individuals_columns n); [|done..].
    vm_compute. reflexivity.
  - destruct (id_to_spouses ix !! indiv_id); [|by exists d1].
    apply (set_cells_rectangular individuals_columns n); [|done..].
    vm_compute. reflexivity.
  - destruct (id_to_children ix !! indiv_id); [|by exists d2].
    apply (set_cells_rectangular individuals_columns n); [|done..].
    vm_compute. reflexivity.
Qed.

Lemma update_table_rectangular (id_to_name : gmap str str) (ix : rel_index)
    (ids : list str) (d : table) (n i : nat) :
  rectangular individuals_columns n d → (i + length ids ≤ n)%nat →
  ∃ d', update_table id_to_name ix i ids d = Some d' ∧
        rectangular individuals_columns n d'.
Proof.
  revert i d. induction ids as [|id rest IH]; intros i d Hr Hn; simpl in *.
  - by exists d.
  - destruct (update_cells_rectangular id_to_name ix d n i id Hr ltac:(lia))
      as (d1 & -> & Hr1). simpl. apply IH; [done | lia].
Qed.

Section TableFacts.
Context (get_gender : Element → str).

Lemma individual_elem_rectangular (wb : workbook) (x : Element) (n m : nat) :
  rectangular individuals_columns n (wb_individuals wb) →
  rectangular events_columns m (wb_events wb) →
  ∃ wb', individual_elem get_gender wb x = Some wb' ∧
         rectangular individuals_columns
           (n + if decide (class_of x = IndividualElement) then 1 else 0)
           (wb_individuals wb') ∧
         rectangular events_columns (m + n_events x) (wb_events wb') ∧
         wb_index wb' = wb_index wb ∧ wb_families wb' = wb_families wb ∧
         same_side_tables wb wb'.
Proof.
  intros Hn Hm. unfold individual_elem, n_events.
  destruct (decide (class_of x = IndividualElement)).
  - destruct (indi_children_events (get_pointer x) (get_child_elements x)
                indi_locals [] (wb_events wb) m Hm) as ([[v notes] ev] & -> & Hev).
    simpl in Hev. cbn [mbind option_bind].
    match goal with
    | |- context [append_row ?cells (wb_individuals wb)] =>
        destruct (append_row_rectangular individuals_columns n cells
                    (wb_individuals wb)) as (d' & -> & R & _);
          [vm_compute; reflexivity | done |]
    end.
    simpl. eexists. split; [done|]. simpl. rewrite Nat.add_1_r.
    split; [done|]. split; [done|]. by unfold same_side_tables.
  - exists wb. rewrite !Nat.add_0_r.
    split; [done|]. split; [done|]. split; [done|].
    by unfold same_side_tables.
Qed.

Lemma family_elem_rectangular (wb : workbook) (x : Element) (n : nat) :
  rectangular families_columns n (wb_families wb) →
  ∃ wb', family_elem wb x = Some wb' ∧
         rectangular families_columns
           (n + if decide (class_of x = FamilyElement) then 1 else 0)
           (wb_families wb') ∧
         wb_id_to_name wb' = wb_id_to_name wb ∧
         wb_individuals wb' = wb_individuals wb ∧
         wb_events wb' = wb_events wb ∧ same_side_tables wb wb'.
Proof.
  intros Hn. unfold family_elem.
  destruct (decide (class_of x = FamilyElement)).
  - destruct (foldl family_child _ _) as [[v children] notes]. cbn zeta.
    match goal with
    | |- context [append_row ?cells (wb_families wb)] =>
        destruct (append_row_rectangular families_columns n cells
                    (wb_families wb)) as (d' & -> & R & _);
          [vm_compute; reflexivity | done |]
    end.
    simpl. eexists. split; [done|]. simpl. rewrite Nat.add_1_r.
    split; [done|]. by unfold same_side_tables.
  - exists wb. rewrite !Nat.add_0_r.
    split; [done|]. split; [done|]. by unfold same_side_tables.
Qed.

End TableFacts.

Section BuildTables.
Context (get_gender : Element → str).

Lemma individuals_pass_rectangular (elements : list Element) :
  ∃ wb, for_each (individual_elem get_gender) new_workbook elements = Some wb ∧
        rectangular individuals_columns (length (individuals_of elements))
          (wb_individuals wb) ∧
        rectangular events_columns (sum_list (n_events <$> elements))
          (wb_events wb) ∧
        wb_index wb = empty_index ∧
        wb_families wb = new_table families_columns ∧
        same_side_tables new_workbook wb.
Proof.
  apply (for_each_invariant (individual_elem get_gender)
           (λ done wb,
              rectangular individuals_columns (length (individuals_of done))
                (wb_individuals wb) ∧
              rectangular events_columns (sum_list (n_events <$> done))
                (wb_events wb) ∧
              wb_index wb = empty_index ∧
              wb_families wb = new_table families_columns ∧
              same_side_tables new_workbook wb)).
  - intros done wb x (Hn & Hm & Hix & Hfam & Hside).
    destruct (individual_elem_rectangular get_gender wb x _ _ Hn Hm)
      as (wb' & -> & Hn' & Hm' & Hix' & Hfam' & Hside').
    exists wb'. split; [done|]. unfold individuals_of.
    rewrite filter_snoc_length, sum_list_fmap_snoc.
    split; [done|]. split; [done|]. split; [congruence|]. split; [congruence|].
    destruct Hside as (?&?&?&?&?&?), Hside' as (?&?&?&?&?&?).
    unfold same_side_tables. repeat split; congruence.
  - simpl. split; [apply new_table_rectangular|].
    split; [apply new_table_rectangular|]. by unfold same_side_tables.
Qed.

Lemma families_pass_rectangular (elements : list Element) (wb0 : workbook) :
  rectangular families_columns 0 (wb_families wb0) →
  ∃ wb, for_each family_elem wb0 elements = Some wb ∧
        rectangular families_columns (length (families_of elements))
          (wb_families wb) ∧
        wb_id_to_name wb = wb_id_to_name wb0 ∧
        wb_individuals wb = wb_individuals wb0 ∧
        wb_events wb = wb_events wb0 ∧ same_side_tables wb0 wb.
Proof.
  intros H0. unfold families_of. rewrite length_fmap.
  apply (for_each_invariant family_elem
           (λ done wb,
              rectangular families_columns
                (length (filter (λ e, class_of e = FamilyElement) done))
                (wb_families wb) ∧
              wb_id_to_name wb = wb_id_to_name wb0 ∧
              wb_individuals wb = wb_individuals wb0 ∧
              wb_events wb = wb_events wb0 ∧ same_side_tables wb0 wb)).
  - intros done wb x (Hn & Hnames & Hind & Hev & Hside).
    destruct (family_elem_rectangular wb x _ Hn)
      as (wb' & -> & Hn' & Hnames' & Hind' & Hev' & Hside').
    exists wb'. split; [done|]. rewrite filter_snoc_length.
    split; [done|]. split; [congruence|]. split; [congruence|].
    split; [congruence|].
    destruct Hside as (?&?&?&?&?&?), Hside' as (?&?&?&?&?&?).
    unfold same_side_tables. repeat split; congruence.
  - by unfold same_side_tables.
Qed.

(** X16: the tables are built without an exception, whatever the parsed
    tree, and each of the nine is rectangular, which a data frame needs:
    every column of a table has as many rows as the records it is made
    from. *)
Theorem X16_tables_are_rectangular (header elements : list Element) :
  ∃ wb, build_tables get_gender header elements = Some wb ∧
        rectangular individuals_columns (length (individuals_of elements))
          (wb_individuals wb) ∧
        rectangular families_columns (length (families_of elements))
          (wb_families wb) ∧
        rectangular events_columns (sum_list (n_events <$> elements))
          (wb_events wb) ∧
        rectangular sources_columns (length (filter (tagged "SOUR") elements))
          (wb_sources wb) ∧
        rectangular notes_columns (length (filter (tagged "NOTE") elements))
          (wb_notes wb) ∧
        rectangular multimedia_columns
          (length (filter (tagged "OBJE") elements)) (wb_multimedia wb) ∧
        rectangular associations_columns
          (sum_list (n_associations <$> elements)) (wb_associations wb) ∧
        rectangular submitter_columns
          (length (filter (tagged "SUBM") elements)) (wb_submitter wb) ∧
        rectangular header_columns (length (filter (tagged "HEAD") header))
          (wb_header wb).
Proof.
  unfold build_tables. cbn zeta.
  destruct (rows_pass_rectangular header_columns (tagged "HEAD") header_elem
              header 0 (wb_header new_workbook) header_elem_rectangular
              (new_table_rectangular _)) as (hd & -> & Hhd).
  destruct (individuals_pass_rectangular elements)
    as (wb1 & -> & Hind & Hev & Hix & Hfam & Hside1).
  cbn [mbind option_bind].
  destruct (families_pass_rectangular elements wb1) as
    (wb2 & -> & Hfams & Hnames & Hind2 & Hev2 & Hside2).
  { rewrite Hfam. apply new_table_rectangular. }
  cbn [mbind option_bind].
  destruct Hside1 as (S1 & S2 & S3 & S4 & S5 & S6).
  destruct Hside2 as (T1 & T2 & T3 & T4 & T5 & T6).
  rewrite T1, S1, T2, S2, T3, S3, T4, S4, T5, S5, Hind2, Hev2. cbn [new_workbook
    wb_sources wb_notes wb_multimedia wb_associations wb_submitter].
  destruct (rows_pass_rectangular sources_columns (tagged "SOUR") source_elem
              elements 0 _ source_elem_rectangular
              (new_table_rectangular _)) as (so & -> & Hso).
  destruct (rows_pass_rectangular notes_columns (tagged "NOTE") note_elem
              elements 0 _ note_elem_rectangular
              (new_table_rectangular _)) as (no & -> & Hno).
  destruct (rows_pass_rectangular multimedia_columns (tagged "OBJE")
              multimedia_elem elements 0 _ multimedia_elem_rectangular
              (new_table_rectangular _)) as (mu & -> & Hmu).
  destruct (for_each_invariant association_elem
              (λ done d, rectangular associations_columns
                           (sum_list (n_associations <$> done)) d)
              elements (new_table associations_columns)) as (as' & -> & Has).
  { intros done d x Hd.
    destruct (association_elem_rectangular _ d x Hd) as (d' & -> & Hd').
    exists d'. by rewrite sum_list_fmap_snoc. }
  { apply new_table_rectangular. }
  destruct (rows_pass_rectangular submitter_columns (tagged "SUBM")
              submitter_elem elements 0 _ submitter_elem_rectangular
              (new_table_rectangular _)) as (su & -> & Hsu).
  cbn [mbind option_bind].
  destruct Hind as [Hcols Hout].
  destruct (Hcols (u "ID")) as (ids & Hids & Hlen).
  { apply (bool_decide_unpack _). vm_compute. exact I. }
  rewrite Hids. cbn [mbind option_bind].
  destruct (update_table_rectangular (wb_id_to_name wb2) (wb_index wb2) ids
              (wb_individuals wb1) _ 0 (conj Hcols Hout) ltac:(simpl; lia))
    as (ind & -> & Hind').
  cbn [mbind option_bind]. eexists. split; [done|]. simpl.
  rewrite !Nat.add_0_l in *. done.
Qed.

End BuildTables.

(** ** What the columns hold *)

Lemma append_row_is_Some (cells : list (string * str)) (d d' : table) :
  append_row cells d = Some d' → ∀ k, k ∈ u <$> cells.*1 → is_Some (d !! k).
Proof.
  revert d. induction cells as [|[c v] r IH]; intros d H k Hk.
  - by apply elem_of_nil in Hk.
  - cbn [append_row] in H. unfold append in H.
    destruct (d !! u c) as [l|] eqn:Hl; [|done]. simpl in H.
    rewrite !fmap_cons in Hk. apply elem_of_cons in Hk as [->|Hk]; [by eauto|].
    specialize (IH _ H k Hk). destruct (decide (u c = k)) as [<-|Hne].
    + eauto.
    + by rewrite lookup_insert_ne in IH.
Qed.

(** The column [c] after a run of appends that goes through. *)
Lemma append_row_column (cells : list (string * str)) (d d' : table)
    (c : string) :
  append_row cells d = Some d' → NoDup (u <$> cells.*1) →
  column c d' = column c d ++ match cell_of cells (u c) with
                              | Some v => [v]
                              | None => []
                              end.
Proof.
  intros H Hnd.
  destruct (append_row_lookup cells d Hnd (append_row_is_Some _ _ _ H))
    as (d1 & H1 & Hl).
  assert (d1 = d') as -> by congruence. unfold column. rewrite Hl.
  destruct (cell_of cells (u c)) as [v|] eqn:E; [|by rewrite app_nil_r].
  destruct (d !! u c) as [l|] eqn:El; [done|].
  destruct (decide (u c ∈ u <$> cells.*1)) as [Hin|Hn].
  - destruct (append_row_is_Some _ _ _ H (u c) Hin) as [l Hl']. congruence.
  - apply cell_of_None in Hn. congruence.
Qed.

(** A loop that appends the row [cells x] for each element that [P]
    picks: what it adds to the column [c]. *)
Lemma rows_pass_column (P : Element → Prop) `{∀ x, Decision (P x)}
    (body : table → Element → option table)
    (cells : Element → list (string * str)) (c : string) (f : Element → str)
    (elements : list Element) (d d' : table) :
  (∀ d x, body d x = if decide (P x) then append_row (cells x) d else Some d) →
  (∀ x, NoDup (u <$> (cells x).*1)) →
  (∀ x, cell_of (cells x) (u c) = Some (f x)) →
  for_each body d elements = Some d' →
  column c d' = column c d ++ (f <$> filter P elements).
Proof.
  intros Hbody Hnd Hc. revert d.
  induction elements as [|x r IH]; intros d Hd; simpl in Hd.
  - injection Hd as <-. by rewrite app_nil_r.
  - destruct (body d x) as [d1|] eqn:E; [|done]. simpl in Hd.
    rewrite (IH _ Hd), filter_cons. rewrite Hbody in E.
    destruct (decide (P x)).
    + rewrite (append_row_column _ _ _ c E (Hnd x)), Hc, fmap_cons.
      by rewrite <- app_assoc.
    + by injection E as <-.
Qed.

Lemma column_new_table (columns : list string) (c : string) :
  column c (new_table columns) = [].
Proof.
  unfold column, new_table.
  destruct (list_to_map _ !! u c) as [l|] eqn:E; [|done].
  apply elem_of_list_to_map_2 in E.
  apply list_elem_of_fmap in E as (? & [= _ ->] & _). done.
Qed.

Section Passes.
Context (get_gender : Element → str).

(** The run of [build_tables] pass by pass: the individuals pass gives
    [wb1], the families pass [wb2], every other table is filled from an
    empty one, and the update works on the rows of [wb1]. *)
Lemma build_tables_passes (header elements : list Element) :
  ∃ wb1 wb2 ids wb,
    build_tables get_gender header elements = Some wb ∧
    for_each (individual_elem get_gender) new_workbook elements = Some wb1 ∧
    for_each family_elem wb1 elements = Some wb2 ∧
    wb_individuals wb1 !! u "ID" = Some ids ∧
    update_table (wb_id_to_name wb1) (wb_index wb2) 0 ids (wb_individuals wb1)
      = Some (wb_individuals wb) ∧
    rectangular individuals_columns (length (individuals_of elements))
      (wb_individuals wb1) ∧
    wb_index wb1 = empty_index ∧
    wb_families wb1 = new_table families_columns ∧
    wb_id_to_name wb2 = wb_id_to_name wb1 ∧
    wb_id_to_name wb = wb_id_to_name wb1 ∧ wb_index wb = wb_index wb2 ∧
    wb_families wb = wb_families wb2 ∧ wb_events wb = wb_events wb1 ∧
    for_each source_elem (new_table sources_columns) elements
      = Some (wb_sources wb) ∧
    for_each note_elem (new_table notes_columns) elements
      = Some (wb_notes wb) ∧
    for_each multimedia_elem (new_table multimedia_columns) elements
      = Some (wb_multimedia wb) ∧
    for_each association_elem (new_table associations_columns) elements
      = Some (wb_associations wb) ∧
    for_each submitter_elem (new_table submitter_columns) elements
      = Some (wb_submitter wb) ∧
    for_each header_elem (new_table header_columns) header
      = Some (wb_header wb).
Proof.
  destruct (rows_pass_rectangular header_columns (tagged "HEAD") header_elem
              header 0 (new_table header_columns) header_elem_rectangular
              (new_table_rectangular _)) as (hd & Ehd & _).
  destruct (individuals_pass_rectangular get_gender elements)
    as (wb1 & E1 & Hind & _ & Hix & Hfam & Hside1).
  destruct (families_pass_rectangular elements wb1) as
    (wb2 & E2 & _ & Hnames & Hind2 & Hev2 & Hside2).
  { rewrite Hfam. apply new_table_rectangular. }
  destruct Hside1 as (S1 & S2 & S3 & S4 & S5 & S6).
  destruct Hside2 as (T1 & T2 & T3 & T4 & T5 & T6).
  rewrite S1 in T1. rewrite S2 in T2. rewrite S3 in T3. rewrite S4 in T4.
  rewrite S5 in T5. cbn [new_workbook wb_sources wb_notes wb_multimedia
    wb_associations wb_submitter] in T1, T2, T3, T4, T5.
  destruct (rows_pass_rectangular sources_columns (tagged "SOUR") source_elem
              elements 0 _ source_elem_rectangular
              (new_table_rectangular _)) as (so & Eso & _).
  destruct (rows_pass_rectangular notes_columns (tagged "NOTE") note_elem
              elements 0 _ note_elem_rectangular
              (new_table_rectangular _)) as (no & Eno & _).
  destruct (rows_pass_rectangular multimedia_columns (tagged "OBJE")
              multimedia_elem elements 0 _ multimedia_elem_rectangular
              (new_table_rectangular _)) as (mu & Emu & _).
  destruct (for_each_invariant association_elem
              (λ done d, rectangular associations_columns
                           (sum_list (n_associations <$> done)) d)
              elements (new_table associations_columns)) as (as' & Eas & _).
  { intros done d x Hd.
    destruct (association_elem_rectangular _ d x Hd) as (d' & -> & Hd').
    exists d'. by rewrite sum_list_fmap_snoc. }
  { apply new_table_rectangular. }
  destruct (rows_pass_rectangular submitter_columns (tagged "SUBM")
              submitter_elem elements 0 _ submitter_elem_rectangular
              (new_table_rectangular _)) as (su & Esu & _).
  destruct (proj1 Hind (u "ID")) as (ids & Hids & Hlen).
  { apply (bool_decide_unpack _). vm_compute. exact I. }
  destruct (update_table_rectangular (wb_id_to_name wb1) (wb_index wb2) ids
              (wb_individuals wb1) _ 0 Hind ltac:(simpl; lia))
    as (ind & Eind & _).
  exists wb1, wb2, ids,
    (mkWorkbook (wb_id_to_name wb2) (wb_index wb2) ind (wb_families wb2)
       (wb_events wb2) so no mu as' su hd).
  split.
  { unfold build_tables. cbn zeta. cbn [new_workbook wb_header].
    rewrite Ehd, E1. cbn [mbind option_bind]. rewrite E2.
    cbn [mbind option_bind]. rewrite T1, T2, T3, T4, T5, Eso, Eno, Emu, Eas, Esu.
    cbn [mbind option_bind]. rewrite Hind2, Hids. cbn [mbind option_bind].
    rewrite Hnames, Eind. done. }
  cbn [wb_id_to_name wb_index wb_individuals wb_families wb_events wb_sources
       wb_notes wb_multimedia wb_associations wb_submitter wb_header].
  repeat (split; [done|]). done.
Qed.

End Passes.

(** Closed facts about column names are decided by evaluation. *)
Ltac by_evaluation := apply (bool_decide_unpack _); vm_compute; exact I.

(** *** The loops over the lines under a record *)

Lemma local_assign_ne (x y : string) (value : str) (v : gmap str str) :
  u y ≠ u x → local x (assign y value v) = local x v.
Proof. intros H. unfold local, assign. by rewrite lookup_insert_ne. Qed.

Lemma local_assign_eq (x : string) (value : str) (v : gmap str str) :
  local x (assign x value v) = value.
Proof. unfold local, assign. by rewrite lookup_insert_eq. Qed.

Lemma local_assign_empty (x : string) (xs : list string) (v : gmap str str) :
  u x ∈ u <$> xs → local x (assign_empty xs v) = [].
Proof.
  unfold assign_empty. revert v. induction xs as [|y r IH] using rev_ind.
  - intros v H. by apply elem_of_nil in H.
  - intros v. rewrite fmap_app, elem_of_app, foldl_snoc. intros [H|H].
    + destruct (decide (u y = u x)) as [E|E].
      * unfold local, assign. by rewrite E, lookup_insert_eq.
      * rewrite local_assign_ne by done. by apply IH.
    + apply list_elem_of_singleton in H. unfold local, assign.
      by rewrite H, lookup_insert_eq.
Qed.

Lemma local_assign_empty_ne (x : string) (xs : list string) (v : gmap str str) :
  u x ∉ u <$> xs → local x (assign_empty xs v) = local x v.
Proof.
  unfold assign_empty. revert v. induction xs as [|y r IH]; intros v H; [done|].
  rewrite fmap_cons, not_elem_of_cons in H. destruct H as [H1 H2]. simpl.
  rewrite IH by done. by apply local_assign_ne.
Qed.

(** One line under the loop of [read_subs]. *)
Lemma read_sub_other (sub : Element) (binds : list (string * string))
    (x : string) (v : gmap str str) :
  u x ∉ u <$> binds.*2 →
  local x (foldl (λ v b, if decide (get_tag sub = u b.1)
                         then assign b.2 (get_value sub) v else v) v binds)
  = local x v.
Proof.
  revert v. induction binds as [|b r IH]; intros v H; [done|].
  rewrite !fmap_cons, not_elem_of_cons in H. destruct H as [H1 H2]. simpl.
  rewrite IH by done. destruct (decide (get_tag sub = u b.1)); [|done].
  by apply local_assign_ne.
Qed.

Lemma read_sub_local (sub : Element) (binds : list (string * string))
    (tag x : string) (v : gmap str str) :
  NoDup (u <$> binds.*2) → (tag, x) ∈ binds →
  local x (foldl (λ v b, if decide (get_tag sub = u b.1)
                         then assign b.2 (get_value sub) v else v) v binds)
  = if decide (get_tag sub = u tag) then get_value sub else local x v.
Proof.
  revert v. induction binds as [|b r IH]; intros v Hnd Hin.
  - by apply elem_of_nil in Hin.
  - rewrite !fmap_cons in Hnd. apply NoDup_cons in Hnd as [Hb Hnd].
    simpl. apply elem_of_cons in Hin as [<-|Hin].
    + rewrite read_sub_other by done. simpl.
      destruct (decide (get_tag sub = u tag)); [|done].
      apply local_assign_eq.
    + rewrite IH by done. destruct (decide (get_tag sub = u tag)); [done|].
      destruct (decide (get_tag sub = u b.1)); [|done].
      apply local_assign_ne. intros E. apply Hb. rewrite E.
      apply list_elem_of_fmap_2.
      change x with (tag, x).2. by apply list_elem_of_fmap_2.
Qed.

Lemma read_subs_other (binds : list (string * string)) (subs : list Element)
    (x : string) (v : gmap str str) :
  u x ∉ u <$> binds.*2 → local x (read_subs binds subs v) = local x v.
Proof.
  intros H. unfold read_subs. revert v.
  induction subs as [|sub r IH]; intros v; [done|]. simpl.
  rewrite IH. by apply read_sub_other.
Qed.

(** A variable that [read_subs] binds to [tag] holds the value of the
    last line tagged [tag], if there is one. *)
Lemma read_subs_local (binds : list (string * string)) (subs : list Element)
    (tag x : string) (v : gmap str str) :
  NoDup (u <$> binds.*2) → (tag, x) ∈ binds →
  local x (read_subs binds subs v) =
  default (local x v) (last (get_value <$> filter (tagged tag) subs)).
Proof.
  intros Hnd Hin. unfold read_subs.
  induction subs as [|sub r IH] using rev_ind; [done|].
  rewrite foldl_snoc, filter_app, fmap_app.
  rewrite (read_sub_local sub binds tag x _ Hnd Hin), IH.
  rewrite filter_cons, filter_nil.
  destruct (decide (get_tag sub = u tag)) as [E|E].
  - rewrite (decide_True (P := tagged tag sub)) by done.
    change (get_value <$> [sub]) with [get_value sub]. by rewrite last_snoc.
  - rewrite (decide_False (P := tagged tag sub)) by done.
    change (get_value <$> []) with (@nil str). by rewrite app_nil_r.
Qed.

Lemma collect_filter (tag : string) (subs : list Element) (xs : list str) :
  collect tag subs xs = xs ++ (get_value <$> filter (tagged tag) subs).
Proof.
  unfold collect. revert xs.
  induction subs as [|sub r IH]; intros xs; simpl; [by rewrite app_nil_r|].
  rewrite IH, filter_cons.
  destruct (decide (get_tag sub = u tag)) as [E|E].
  - rewrite (decide_True (P := tagged tag sub)) by done.
    by rewrite fmap_cons, <- app_assoc.
  - by rewrite (decide_False (P := tagged tag sub)) by done.
Qed.

Lemma for_each_app {A S} (body : S → A → option S) (st : S) (xs ys : list A) :
  for_each body st (xs ++ ys) = for_each body st xs ≫= λ st', for_each body st' ys.
Proof.
  revert st. induction xs as [|x r IH]; intros st; [done|]. simpl.
  destruct (body st x); [apply IH | done].
Qed.

(** The variables of an event record after the loop over its lines. *)
Lemma event_vars (child : Element) (v : gmap str str) (tag x : string) :
  (tag, x) ∈ [("DATE", "date"); ("PLAC", "place"); ("CAUS", "cause");
              ("NOTE", "event_notes")]%string →
  local x (read_subs [("DATE", "date"); ("PLAC", "place"); ("CAUS", "cause");
                      ("NOTE", "event_notes")]%string
             (get_child_elements child)
             (assign_empty ["date"; "place"; "cause"; "event_notes"]%string v))
  = value_under tag child.
Proof.
  intros Hin. rewrite (read_subs_local _ _ tag x) by (done || by_evaluation).
  rewrite local_assign_empty; [done|].
  apply list_elem_of_fmap_2.
  repeat (apply elem_of_cons in Hin as [[= _ ->]|Hin]; [set_solver|]).
  by apply elem_of_nil in Hin.
Qed.

(** An event record under the loop of an individual: the variables
    [date], [place], [cause] and [event_notes] are set anew, and the
    events table takes one row. *)
Lemma indi_child_event (x child : Element) (v : gmap str str)
    (notes : list str) (events : table)
    (st' : gmap str str * list str * table) :
  is_event child →
  indi_child (get_pointer x) (v, notes, events) child = Some st' →
  st'.1 = (read_subs [("DATE", "date"); ("PLAC", "place"); ("CAUS", "cause");
                      ("NOTE", "event_notes")]%string
             (get_child_elements child)
             (assign_empty ["date"; "place"; "cause"; "event_notes"]%string v),
           notes) ∧
  append_row (event_cells x child) events = Some st'.2.
Proof.
  intros He. unfold indi_child.
  destruct (event_tag_branch child He) as (H1 & H2 & H3 & H4 & H5).
  rewrite (decide_False _ _ H1), (decide_False _ _ H2).
  destruct (find _ indi_attributes) as [b|] eqn:F.
  { apply find_some in F as [Hin Hb]. apply bool_decide_eq_true in Hb.
    by destruct (H3 b Hin). }
  rewrite (decide_False _ _ H4), (decide_False _ _ H5), (decide_True _ _ He).
  cbn zeta. unfold event_row.
  rewrite (event_vars child v "DATE" "date"),
    (event_vars child v "PLAC" "place"), (event_vars child v "CAUS" "cause"),
    (event_vars child v "NOTE" "event_notes") by set_solver.
  rewrite collect_filter. simpl app.
  fold (values_under "SOUR" child). fold (event_cells x child).
  destruct (append_row _ events) as [events'|]; [|done].
  simpl. by intros [= <-].
Qed.

(** Any other line leaves the events table as it is. *)
Lemma indi_child_other (id : str) (child : Element) (v : gmap str str)
    (notes : list str) (events : table)
    (st' : gmap str str * list str * table) :
  ¬ is_event child →
  indi_child id (v, notes, events) child = Some st' → st'.2 = events.
Proof.
  intros He. unfold indi_child.
  repeat case_decide; try (by intros [= <-]).
  all: match goal with
       | |- context [find ?f ?l] => destruct (find f l)
       end; try (by intros [= <-]); repeat case_decide;
       try (by intros [= <-]); by destruct He.
Qed.

Lemma cell_of_lookup (cells : list (string * str)) (j : nat) (c : string)
    (v : str) :
  NoDup (u <$> cells.*1) → cells !! j = Some (c, v) →
  cell_of cells (u c) = Some v.
Proof.
  unfold cell_of. revert j. induction cells as [|[c0 v0] r IH]; intros j Hnd Hj.
  - done.
  - rewrite !fmap_cons in Hnd. apply NoDup_cons in Hnd as [Hc Hnd].
    simpl. destruct j as [|j]; simpl in Hj.
    + injection Hj as -> ->. by rewrite bool_decide_eq_true_2.
    + rewrite bool_decide_eq_false_2; [by apply (IH j)|].
      intros E. apply Hc. simpl. rewrite E. apply list_elem_of_fmap_2.
      change c with (c, v).1. apply list_elem_of_fmap_2.
      by apply list_elem_of_lookup_2 in Hj.
Qed.

(** The events table after the loop over the lines of an individual. *)
Lemma indi_children_column (x : Element) (c : string) (f : Element → str)
    (children : list Element) (st st' : gmap str str * list str * table) :
  (∀ child, cell_of (event_cells x child) (u c) = Some (f child)) →
  for_each (indi_child (get_pointer x)) st children = Some st' →
  column c st'.2 = column c st.2 ++ (f <$> filter is_event children).
Proof.
  intros Hc. revert st.
  induction children as [|child r IH]; intros st H; simpl in H.
  - injection H as <-. by rewrite app_nil_r.
  - destruct (indi_child _ st child) as [st1|] eqn:E; [|done]. simpl in H.
    rewrite (IH _ H), filter_cons. destruct st as [[v notes] events].
    destruct (decide (is_event child)) as [He|He].
    + apply indi_child_event in E as [_ E]; [|done].
      rewrite (append_row_column _ _ _ c E) by by_evaluation.
      by rewrite Hc, fmap_cons, <- app_assoc.
    + apply indi_child_other in E; [|done]. by rewrite E.
Qed.

Section Sheets.
Context (get_gender : Element → str).

(** One turn of the individuals pass, taken apart. *)
Lemma individual_elem_inv (wb wb' : workbook) (x : Element) :
  class_of x = IndividualElement →
  individual_elem get_gender wb x = Some wb' →
  ∃ v notes,
    for_each (indi_child (get_pointer x)) (indi_locals, [], wb_events wb)
      (get_child_elements x) = Some (v, notes, wb_events wb') ∧
    append_row
      (individual_row (get_pointer x) (display_name x) (get_gender x) v notes)
      (wb_individuals wb) = Some (wb_individuals wb') ∧
    wb_id_to_name wb' = <[get_pointer x := display_name x]> (wb_id_to_name wb) ∧
    wb_index wb' = wb_index wb ∧ wb_families wb' = wb_families wb.
Proof.
  intros Hx. unfold individual_elem. rewrite decide_True by done. cbn zeta.
  destruct (for_each _ _ _) as [[[v notes] events]|]; [|done].
  cbn [mbind option_bind].
  destruct (append_row _ _) as [individuals|] eqn:Ea; [|done].
  simpl. intros [= <-]. by exists v, notes.
Qed.

Lemma individual_elem_skip (wb : workbook) (x : Element) :
  class_of x ≠ IndividualElement → individual_elem get_gender wb x = Some wb.
Proof. intros Hx. unfold individual_elem. by rewrite decide_False. Qed.

Lemma event_records_cons (x : Element) (elements : list Element) :
  event_records (x :: elements) =
  (if decide (class_of x = IndividualElement)
   then (λ child, (x, child)) <$> filter is_event (get_child_elements x)
   else []) ++ event_records elements.
Proof.
  unfold event_records, individuals_of. rewrite filter_cons.
  by destruct (decide (class_of x = IndividualElement)).
Qed.

(** The events table after the individuals pass. *)
Lemma individuals_pass_events (c : string) (f : Element * Element → str)
    (elements : list Element) (wb wb' : workbook) :
  (∀ p, cell_of (event_cells p.1 p.2) (u c) = Some (f p)) →
  for_each (individual_elem get_gender) wb elements = Some wb' →
  column c (wb_events wb') =
  column c (wb_events wb) ++ (f <$> event_records elements).
Proof.
  intros Hc. revert wb.
  induction elements as [|x r IH]; intros wb H; simpl in H.
  - injection H as <-. by rewrite app_nil_r.
  - destruct (individual_elem _ wb x) as [wb1|] eqn:E; [|done]. simpl in H.
    rewrite (IH _ H), event_records_cons, fmap_app, app_assoc. f_equal.
    destruct (decide (class_of x = IndividualElement)) as [Hx|Hx].
    + apply individual_elem_inv in E as (v & notes & E & _); [|done].
      pose proof (indi_children_column x c (λ child, f (x, child)) _ _ _
                    (λ child, Hc (x, child)) E) as Hx'.
      simpl in Hx'. by rewrite Hx', <- list_fmap_compose.
    + rewrite individual_elem_skip in E by done. injection E as <-.
      by rewrite app_nil_r.
Qed.


Lemma names_NoDup (columns names : list string) :
  names_columns columns names = true → NoDup (u <$> names).
Proof.
  unfold names_columns. rewrite !andb_true_iff, !bool_decide_eq_true. tauto.
Qed.

(** X17: the Notes sheet has one row for each element tagged [NOTE],
    in file order, with its sanitized pointer and value; the column
    [Referenced By] is never filled in. *)
Theorem X17_notes_sheet (header elements : list Element) :
  ∃ wb, build_tables get_gender header elements = Some wb ∧
        column "Note ID" (wb_notes wb) =
          (λ x, sanitize_string (get_pointer x))
            <$> filter (tagged "NOTE") elements ∧
        column "Text" (wb_notes wb) =
          (λ x, sanitize_string (get_value x))
            <$> filter (tagged "NOTE") elements ∧
        column "Referenced By" (wb_notes wb) =
          replicate (length (filter (tagged "NOTE") elements)) [].
Proof.
  destruct (build_tables_passes get_gender header elements)
    as (wb1 & wb2 & ids & wb & Hwb & _ & _ & _ & _ & _ & _ & _ & _ & _ & _ &
        _ & _ & _ & Hno & _).
  exists wb. split; [done|].
  pose (cells := λ x : Element,
          [("Note ID", sanitize_string (get_pointer x));
           ("Text", sanitize_string (get_value x));
           ("Referenced By", [])]%string).
  assert (∀ c f, (∀ x, cell_of (cells x) (u c) = Some (f x)) →
                 column c (wb_notes wb) = f <$> filter (tagged "NOTE") elements)
    as Hcol.
  { intros c f Hc.
    rewrite (rows_pass_column (tagged "NOTE") note_elem cells c f elements
               _ _ ltac:(done) ltac:(intros; by_evaluation) Hc Hno).
    by rewrite column_new_table. }
  split; [by apply Hcol|]. split; [by apply Hcol|].
  rewrite (Hcol "Referenced By"%string (λ _, [])) by done.
  by apply const_fmap.
Qed.

End Sheets.

(** *** The update of the rows *)

Lemma column_insert (c c0 : string) (l : list str) (d : table) :
  column c (<[u c0 := l]> d) = if decide (u c0 = u c) then l else column c d.
Proof.
  unfold column. destruct (decide (u c0 = u c)) as [E|E].
  - by rewrite E, lookup_insert_eq.
  - by rewrite lookup_insert_ne.
Qed.

(** The column [c] after a run of assignments to the row [i] that goes
    through. *)
Lemma set_cells_column (cells : list (string * str)) (i : nat) (d d' : table)
    (c : string) :
  set_cells i cells d = Some d' → NoDup (u <$> cells.*1) →
  column c d' = match cell_of cells (u c) with
                | Some v => <[i := v]> (column c d)
                | None => column c d
                end.
Proof.
  revert d. induction cells as [|[c0 v0] r IH]; intros d H Hnd.
  - by injection H as <-.
  - rewrite !fmap_cons in Hnd. apply NoDup_cons in Hnd as [Hc Hnd].
    cbn [set_cells] in H. unfold set_cell in H.
    destruct (d !! u c0) as [l|] eqn:El; [|done]. simpl in H.
    destruct (decide (i < length l)%nat); [|done]. simpl in H.
    rewrite (IH _ H Hnd), column_insert. unfold cell_of at 2. simpl.
    fold (cell_of r (u c)).
    destruct (decide (u c0 = u c)) as [E|E].
    + rewrite bool_decide_eq_true_2 by done. simpl.
      simpl in Hc. rewrite E in Hc. apply cell_of_None in Hc. rewrite Hc.
      unfold column. by rewrite <- E, El.
    + by rewrite bool_decide_eq_false_2.
Qed.

Lemma set_cells_at (cells : list (string * str)) (i j : nat) (d d' : table)
    (c : string) (v : str) :
  set_cells i cells d = Some d' → NoDup (u <$> cells.*1) →
  cells !! j = Some (c, v) → column c d' = <[i := v]> (column c d).
Proof.
  intros H Hnd Hj.
  by rewrite (set_cells_column _ _ _ _ c H Hnd), (cell_of_lookup _ j c v).
Qed.

Lemma set_cells_frame (cells : list (string * str)) (i : nat) (d d' : table)
    (c : string) :
  set_cells i cells d = Some d' → NoDup (u <$> cells.*1) →
  u c ∉ u <$> cells.*1 → column c d' = column c d.
Proof.
  intros H Hnd Hc. apply cell_of_None in Hc.
  by rewrite (set_cells_column _ _ _ _ c H Hnd), Hc.
Qed.

(** The column [c] of the table [d'] in terms of the table before the
    assignments [H]. *)
Ltac column_back c H :=
  first
    [ rewrite (set_cells_frame _ _ _ _ c H) by by_evaluation
    | rewrite (set_cells_at _ _ 0 _ _ c _ H) by (by_evaluation || reflexivity)
    | rewrite (set_cells_at _ _ 1 _ _ c _ H) by (by_evaluation || reflexivity)
    | rewrite (set_cells_at _ _ 2 _ _ c _ H) by (by_evaluation || reflexivity)
    | rewrite (set_cells_at _ _ 3 _ _ c _ H) by (by_evaluation || reflexivity) ].

(** The update of one row, taken apart: the three runs of assignments. *)
Lemma update_cells_inv (id_to_name : gmap str str) (ix : rel_index)
    (d d' : table) (i : nat) (indiv_id : str) :
  update_cells id_to_name ix d i indiv_id = Some d' →
  ∃ d1 d2,
    match child_to_parents ix !! indiv_id with
    | Some (father_id, mother_id) =>
        set_cells i
          [("Father ID", sanitize_string father_id);
           ("Mother ID", sanitize_string mother_id);
           ("Father Name", sanitize_string (name_of id_to_name father_id));
           ("Mother Name", sanitize_string (name_of id_to_name mother_id))]%string
          d
    | None => Some d
    end = Some d1 ∧
    match id_to_spouses ix !! indiv_id with
    | Some spouse_ids =>
        set_cells i
          [("Spouse ID", sanitize_string (join (u ", ") spouse_ids));
           ("Spouse Name",
            sanitize_string
              (join (u ", ") (name_of id_to_name <$> spouse_ids)))]%string
          d1
    | None => Some d1
    end = Some d2 ∧
    match id_to_children ix !! indiv_id with
    | Some children_ids =>
        set_cells i
          [("Children IDs", sanitize_string (join (u ", ") children_ids));
           ("Children Names",
            sanitize_string
              (join (u ", ") (name_of id_to_name <$> children_ids)))]%string
          d2
    | None => Some d2
    end = Some d'.
Proof.
  unfold update_cells. intros H.
  apply bind_Some in H as (d1 & H1 & H). apply bind_Some in H as (d2 & H2 & H).
  by exists d1, d2.
Qed.

(** A column that the update does not assign to. *)
Lemma update_cells_frame (id_to_name : gmap str str) (ix : rel_index)
    (d d' : table) (i : nat) (indiv_id : str) (c : string) :
  u c ∉ u <$> linked_columns →
  update_cells id_to_name ix d i indiv_id = Some d' → column c d' = column c d.
Proof.
  intros Hc H. apply update_cells_inv in H as (d1 & d2 & H1 & H2 & H3).
  assert (column c d1 = column c d) as E1.
  { destruct (child_to_parents ix !! indiv_id) as [[father mother]|];
      [|by injection H1 as <-].
    apply (set_cells_frame _ _ _ _ c H1); [by_evaluation|]. set_solver. }
  assert (column c d2 = column c d1) as E2.
  { destruct (id_to_spouses ix !! indiv_id); [|by injection H2 as <-].
    apply (set_cells_frame _ _ _ _ c H2); [by_evaluation|]. set_solver. }
  assert (column c d' = column c d2) as E3.
  { destruct (id_to_children ix !! indiv_id); [|by injection H3 as <-].
    apply (set_cells_frame _ _ _ _ c H3); [by_evaluation|]. set_solver. }
  congruence.
Qed.

Lemma update_table_frame (id_to_name : gmap str str) (ix : rel_index)
    (ids : list str) (d d' : table) (i : nat) (c : string) :
  u c ∉ u <$> linked_columns →
  update_table id_to_name ix i ids d = Some d' → column c d' = column c d.
Proof.
  intros Hc. revert i d. induction ids as [|id rest IH]; intros i d H.
  - by injection H as <-.
  - simpl in H. apply bind_Some in H as (d1 & H1 & H).
    rewrite (IH _ _ H). by apply (update_cells_frame _ _ _ _ _ _ _ Hc H1).
Qed.

(** *** The cause of death *)

(** A line that is neither a death record nor an event record leaves the
    variable [cause] as it is. *)
Lemma indi_child_cause_kept (id : str) (child : Element) (v : gmap str str)
    (notes : list str) (events : table)
    (st' : gmap str str * list str * table) :
  ¬ is_event child → ¬ tagged "DEAT" child →
  indi_child id (v, notes, events) child = Some st' →
  local "cause" st'.1.1 = local "cause" v.
Proof.
  intros He Hd. unfold indi_child, tagged in *.
  assert (Forall (λ b : string * string, u b.2 ≠ u "cause") indi_attributes)
    as Ha by by_evaluation.
  rewrite Forall_forall in Ha.
  case_decide.
  { intros [= <-]. simpl. apply read_subs_other. by_evaluation. }
  rewrite decide_False by done.
  destruct (find _ indi_attributes) as [b|] eqn:F.
  { apply find_some in F as [Hin _]. intros [= <-]. simpl.
    apply local_assign_ne, Ha. by apply list_elem_of_In. }
  case_decide; [by intros [= <-]|].
  case_decide.
  { intros [= <-]. simpl. apply read_subs_other. by_evaluation. }
  rewrite decide_False by done. by intros [= <-].
Qed.

Lemma indi_children_cause_kept (id : str) (children : list Element)
    (st st' : gmap str str * list str * table) :
  Forall (λ child, ¬ is_event child ∧ ¬ tagged "DEAT" child) children →
  for_each (indi_child id) st children = Some st' →
  local "cause" st'.1.1 = local "cause" st.1.1.
Proof.
  intros Hall. revert st.
  induction Hall as [|child r [He Hd] _ IH]; intros st H; simpl in H.
  - by injection H as <-.
  - apply bind_Some in H as (st1 & H1 & H). rewrite (IH _ H).
    destruct st as [[v notes] events].
    by apply (indi_child_cause_kept _ _ _ _ _ _ He Hd H1).
Qed.

(** After the loop over the lines of an individual, [cause] holds what
    the last event record left in it, when no death record comes after
    that one. *)
Lemma indi_children_cause (x : Element) (pre post : list Element)
    (ev : Element) (st st' : gmap str str * list str * table) :
  is_event ev →
  Forall (λ child, ¬ is_event child ∧ ¬ tagged "DEAT" child) post →
  for_each (indi_child (get_pointer x)) st (pre ++ ev :: post) = Some st' →
  local "cause" st'.1.1 = value_under "CAUS" ev.
Proof.
  intros He Hpost H. rewrite for_each_app in H.
  apply bind_Some in H as (st1 & _ & H). simpl in H.
  apply bind_Some in H as (st2 & H2 & H).
  rewrite (indi_children_cause_kept _ _ _ _ Hpost H).
  destruct st1 as [[v notes] events].
  apply indi_child_event in H2 as [H2 _]; [|done].
  rewrite H2. simpl. apply event_vars. set_solver.
Qed.

Lemma individuals_of_split (elements : list Element) (i : nat) (x : Element) :
  individuals_of elements !! i = Some x →
  ∃ before after, elements = before ++ x :: after ∧
                  length (individuals_of before) = i ∧
                  class_of x = IndividualElement.
Proof.
  unfold individuals_of. revert i.
  induction elements as [|e r IH]; intros i H; [done|].
  rewrite filter_cons in H.
  destruct (decide (class_of e = IndividualElement)) as [E|E].
  - destruct i as [|i]; simpl in H.
    + injection H as ->. by exists [], r.
    + destruct (IH i H) as (before & after & -> & Hl & Hx).
      exists (e :: before), after. rewrite filter_cons, decide_True by done.
      simpl. by rewrite Hl.
  - destruct (IH i H) as (before & after & -> & Hl & Hx).
    exists (e :: before), after. by rewrite filter_cons, decide_False.
Qed.

Section CauseOfDeath.
Context (get_gender : Element → str).

(** The rows of the Individuals table are only ever added at its end. *)
Lemma individuals_pass_prefix (c : string) (elements : list Element)
    (wb wb' : workbook) :
  for_each (individual_elem get_gender) wb elements = Some wb' →
  ∃ l, column c (wb_individuals wb') = column c (wb_individuals wb) ++ l.
Proof.
  revert wb. induction elements as [|x r IH]; intros wb H; simpl in H.
  - injection H as <-. exists []. by rewrite app_nil_r.
  - apply bind_Some in H as (wb1 & H1 & H).
    destruct (IH _ H) as (l & ->).
    destruct (decide (class_of x = IndividualElement)) as [Hx|Hx].
    + apply individual_elem_inv in H1 as (v & notes & _ & H1 & _); [|done].
      rewrite (append_row_column _ _ _ c H1) by by_evaluation.
      rewrite <- app_assoc. eauto.
    + rewrite individual_elem_skip in H1 by done. injection H1 as <-. eauto.
Qed.

(** X19: the column [Cause of Death] takes what the variable [cause]
    holds at the end of the loop over the lines of the individual, and
    the event records use the same variable.  When an event record is
    the last of the event and death records of an individual, the cause
    of death in the row of the individual is the cause under that event
    record, empty if it has none, whatever the death record gave. *)
Theorem X19_event_overwrites_cause_of_death (header elements : list Element)
    (i : nat) (x ev : Element) (pre post : list Element) :
  individuals_of elements !! i = Some x →
  get_child_elements x = pre ++ ev :: post →
  is_event ev →
  Forall (λ child, ¬ is_event child ∧ ¬ tagged "DEAT" child) post →
  ∃ wb, build_tables get_gender header elements = Some wb ∧
        column "Cause of Death" (wb_individuals wb) !! i
          = Some (sanitize_string (value_under "CAUS" ev)).
Proof.
  intros Hi Hchildren He Hpost.
  destruct (build_tables_passes get_gender header elements)
    as (wb1 & wb2 & ids & wb & Hwb & H1 & _ & _ & Hup & _).
  exists wb. split; [done|].
  rewrite (update_table_frame _ _ _ _ _ _ "Cause of Death" ltac:(by_evaluation)
             Hup).
  apply individuals_of_split in Hi as (before & after & -> & Hlen & Hx).
  rewrite for_each_app in H1. apply bind_Some in H1 as (wba & Ha & H1).
  simpl in H1. apply bind_Some in H1 as (wbx & Hwbx & H1).
  destruct (individuals_pass_prefix "Cause of Death" _ _ _ H1) as (l & ->).
  apply individual_elem_inv in Hwbx as (v & notes & Hv & Hrow & _); [|done].
  rewrite (append_row_column _ _ _ "Cause of Death" Hrow) by by_evaluation.
  rewrite Hchildren in Hv. apply indi_children_cause in Hv; [|done..].
  simpl in Hv.
  change (cell_of _ _) with (Some (sanitize_string (local "cause" v))).
  rewrite Hv.
  destruct (individuals_pass_rectangular get_gender before)
    as (wba' & Ha' & [Hcols _] & _).
  assert (wba' = wba) as -> by congruence.
  destruct (Hcols (u "Cause of Death")) as (col & Hcol & Hcl);
    [by_evaluation|].
  unfold column at 1. rewrite Hcol. simpl.
  rewrite <- app_assoc, lookup_app_r by lia.
  by rewrite Hcl, Hlen, Nat.sub_diag.
Qed.

End CauseOfDeath.

(** X19 on an individual whose death record gives a cause and whose
    burial record, which comes after it, gives none: the sheet shows no
    cause of death. *)
Lemma X19_witness :
  let death :=
    mkElement PlainElement [] (u "DEAT") [] ([], [])
      [line_of "DATE" "1 JAN 1900"; line_of "CAUS" "Fever"] in
  let burial :=
    mkElement PlainElement [] (u "BURI") [] ([], [])
      [line_of "DATE" "3 JAN 1900"] in
  let x :=
    mkElement IndividualElement (u "@I1@") (u "INDI") [] (u "Ann", u "Doe")
      [death; burial] in
  ∃ wb, build_tables (λ _, u "F") [] [x] = Some wb ∧
        column "Cause of Death" (wb_individuals wb) !! 0%nat = Some [].
Proof.
  intros death burial x.
  apply (X19_event_overwrites_cause_of_death (λ _, u "F") [] [x] 0 x burial
           [death] []).
  - reflexivity.
  - reflexivity.
  - by_evaluation.
  - constructor.
Defined.

Section Sheets2.
Context (get_gender : Element → str).

(** X18: the Events sheet has one row for each event record of an
    individual, in file order.  The row holds the pointer of the
    individual as it is, the text [INDI], the tag of the record, and from
    the lines under the record the sanitized value of the last [DATE],
    [PLAC], [CAUS] and [NOTE] line and the values of all [SOUR] lines. *)
Theorem X18_events_sheet (header elements : list Element) :
  ∃ wb, build_tables get_gender header elements = Some wb ∧
        let records := event_records elements in
        column "Record ID" (wb_events wb)
          = (λ p, get_pointer p.1) <$> records ∧
        column "Record Type" (wb_events wb)
          = replicate (length records) (u "INDI") ∧
        column "Event Type" (wb_events wb) = (λ p, get_tag p.2) <$> records ∧
        column "Date" (wb_events wb)
          = (λ p, sanitize_string (value_under "DATE" p.2)) <$> records ∧
        column "Place" (wb_events wb)
          = (λ p, sanitize_string (value_under "PLAC" p.2)) <$> records ∧
        column "Cause" (wb_events wb)
          = (λ p, sanitize_string (value_under "CAUS" p.2)) <$> records ∧
        column "Notes" (wb_events wb)
          = (λ p, sanitize_string (value_under "NOTE" p.2)) <$> records ∧
        column "Source IDs" (wb_events wb)
          = (λ p, sanitize_string (join (u ", ") (values_under "SOUR" p.2)))
              <$> records.
Proof.
  destruct (build_tables_passes get_gender header elements)
    as (wb1 & wb2 & ids & wb & Hwb & H1 & _ & _ & _ & _ & _ & _ & _ & _ & _ &
        _ & Hev & _).
  exists wb. split; [done|]. cbn zeta. rewrite Hev.
  assert (∀ c f, (∀ p, cell_of (event_cells p.1 p.2) (u c) = Some (f p)) →
                 column c (wb_events wb1) = f <$> event_records elements)
    as Hcol.
  { intros c f Hc.
    rewrite (individuals_pass_events get_gender c f elements _ _ Hc H1).
    cbn [new_workbook wb_events]. by rewrite column_new_table. }
  split; [by apply Hcol|]. split.
  { rewrite (Hcol "Record Type"%string (λ _, u "INDI")) by done.
    by apply const_fmap. }
  repeat (split; [by apply Hcol|]). by apply Hcol.
Qed.

End Sheets2.

(** *** The families pass *)

(** The variables of the loop over the lines of a family hold what
    [read_family] reads. *)
Lemma family_child_read (st : gmap str str * list str * list str)
    (f : family) (child : Element) :
  husband_id f = local "husband_id" st.1.1 →
  wife_id f = local "wife_id" st.1.1 → children_ids f = st.1.2 →
  let st' := family_child st child in
  let f' := read_child f child in
  husband_id f' = local "husband_id" st'.1.1 ∧
  wife_id f' = local "wife_id" st'.1.1 ∧ children_ids f' = st'.1.2.
Proof.
  destruct st as [[v children] notes]. cbn [fst snd]. intros Hh Hw Hc.
  assert (Forall (λ b : string * (string * string),
                    (u "husband_id" ∉ u <$> [b.2.1; b.2.2]) ∧
                    (u "wife_id" ∉ u <$> [b.2.1; b.2.2]))
                 family_events) as Ha by by_evaluation.
  rewrite Forall_forall in Ha.
  unfold read_child, family_child. case_decide.
  { cbn [fst snd husband_id wife_id children_ids].
    rewrite local_assign_eq, local_assign_ne by by_evaluation. done. }
  case_decide.
  { cbn [fst snd husband_id wife_id children_ids].
    rewrite local_assign_eq, local_assign_ne by by_evaluation. done. }
  case_decide.
  { cbn [fst snd husband_id wife_id children_ids]. by rewrite Hc. }
  destruct (find _ family_events) as [b|] eqn:F.
  { apply find_some in F as [Hin _]. apply list_elem_of_In, Ha in Hin.
    destruct Hin as (H2 & H3). cbn [fst snd].
    by rewrite !read_subs_other. }
  case_decide; [done|]. case_decide; [|done]. cbn [fst snd].
  by rewrite !read_subs_other by by_evaluation.
Qed.

Lemma family_fold_read (children : list Element) :
  let st := foldl family_child (family_locals, [], []) children in
  let f := foldl read_child (mkFamily [] [] []) children in
  husband_id f = local "husband_id" st.1.1 ∧
  wife_id f = local "wife_id" st.1.1 ∧ children_ids f = st.1.2.
Proof.
  cbn zeta. induction children as [|child r IH] using rev_ind.
  - by vm_compute.
  - rewrite !foldl_snoc. destruct IH as (Hh & Hw & Hc).
    by apply family_child_read.
Qed.

(** One turn of the families pass, taken apart. *)
Lemma family_elem_inv (wb wb' : workbook) (x : Element) :
  class_of x = FamilyElement → family_elem wb x = Some wb' →
  ∃ v notes,
    append_row
      (family_row (get_pointer x) (husband_id (read_family x))
         (wife_id (read_family x)) (children_ids (read_family x))
         (wb_id_to_name wb) v notes)
      (wb_families wb) = Some (wb_families wb') ∧
    wb_index wb' = link_family (wb_index wb) (read_family x) ∧
    wb_id_to_name wb' = wb_id_to_name wb.
Proof.
  intros Hx. unfold family_elem. rewrite decide_True by done. cbn zeta.
  pose proof (family_fold_read (get_child_elements x)) as (Hh & Hw & Hc).
  fold (read_family x) in Hh, Hw, Hc. cbn zeta in Hh, Hw, Hc.
  destruct (foldl family_child _ _) as [[v children] notes].
  simpl in Hh, Hw, Hc. rewrite <- Hh, <- Hw, <- Hc.
  destruct (append_row _ _) as [families|] eqn:Ea; [|done].
  simpl. intros [= <-]. exists v, notes. simpl.
  split; [done|]. split; [|done]. by destruct (read_family x).
Qed.

Lemma family_elem_skip (wb : workbook) (x : Element) :
  class_of x ≠ FamilyElement → family_elem wb x = Some wb.
Proof. intros Hx. unfold family_elem. by rewrite decide_False. Qed.

(** The families pass: the index and the name map. *)
Lemma families_pass_index (elements : list Element) (wb wb' : workbook) :
  for_each family_elem wb elements = Some wb' →
  wb_index wb' = foldl link_family (wb_index wb) (families_of elements) ∧
  wb_id_to_name wb' = wb_id_to_name wb.
Proof.
  unfold families_of. revert wb.
  induction elements as [|x r IH]; intros wb H; simpl in H.
  - by injection H as <-.
  - apply bind_Some in H as (wb1 & H1 & H). destruct (IH _ H) as [-> ->].
    rewrite filter_cons.
    destruct (decide (class_of x = FamilyElement)) as [Hx|Hx].
    + apply family_elem_inv in H1 as (v & notes & _ & -> & ->); done.
    + rewrite family_elem_skip in H1 by done. by injection H1 as <-.
Qed.

(** The families pass: a column of the Families table. *)
Lemma families_pass_column (c : string) (f : gmap str str → Element → str)
    (elements : list Element) (wb wb' : workbook) :
  (∀ x names v notes,
     cell_of (family_row (get_pointer x) (husband_id (read_family x))
                (wife_id (read_family x)) (children_ids (read_family x))
                names v notes) (u c) = Some (f names x)) →
  for_each family_elem wb elements = Some wb' →
  column c (wb_families wb') =
  column c (wb_families wb) ++ (f (wb_id_to_name wb) <$> family_records elements).
Proof.
  intros Hc. unfold family_records. revert wb.
  induction elements as [|x r IH]; intros wb H; simpl in H.
  - injection H as <-. by rewrite app_nil_r.
  - apply bind_Some in H as (wb1 & H1 & H). rewrite (IH _ H), filter_cons.
    destruct (decide (class_of x = FamilyElement)) as [Hx|Hx].
    + apply family_elem_inv in H1 as (v & notes & H1 & _ & ->); [|done].
      rewrite (append_row_column _ _ _ c H1) by by_evaluation.
      by rewrite Hc, fmap_cons, <- app_assoc.
    + rewrite family_elem_skip in H1 by done. by injection H1 as <-.
Qed.

Section Linking.
Context (get_gender : Element → str).

(** The individuals pass: the name map. *)
Lemma individuals_pass_names (elements : list Element) (wb wb' : workbook)
    (t : individuals_data) :
  for_each (individual_elem get_gender) wb elements = Some wb' →
  wb_id_to_name wb' = (foldl add_individual (wb_id_to_name wb, t) elements).1.
Proof.
  revert wb t. induction elements as [|x r IH]; intros wb t H; simpl in H.
  - by injection H as <-.
  - apply bind_Some in H as (wb1 & H1 & H). simpl. unfold add_individual at 2.
    destruct (decide (class_of x = IndividualElement)) as [Hx|Hx].
    + apply individual_elem_inv in H1 as (v & notes & _ & _ & Hn & _); [|done].
      simpl. rewrite <- Hn. by apply IH.
    + rewrite individual_elem_skip in H1 by done. injection H1 as <-.
      destruct t. by apply IH.
Qed.

(** The individuals pass: a column of the Individuals table that does not
    depend on the lines under the individual. *)
Lemma individuals_pass_column (c : string) (f : Element → str)
    (elements : list Element) (wb wb' : workbook) :
  (∀ x v notes,
     cell_of (individual_row (get_pointer x) (display_name x) (get_gender x)
                v notes) (u c) = Some (f x)) →
  for_each (individual_elem get_gender) wb elements = Some wb' →
  column c (wb_individuals wb') =
  column c (wb_individuals wb) ++ (f <$> individuals_of elements).
Proof.
  intros Hc. unfold individuals_of. revert wb.
  induction elements as [|x r IH]; intros wb H; simpl in H.
  - injection H as <-. by rewrite app_nil_r.
  - apply bind_Some in H as (wb1 & H1 & H). rewrite (IH _ H), filter_cons.
    destruct (decide (class_of x = IndividualElement)) as [Hx|Hx].
    + apply individual_elem_inv in H1 as (v & notes & _ & H1 & _); [|done].
      rewrite (append_row_column _ _ _ c H1) by by_evaluation.
      by rewrite Hc, fmap_cons, <- app_assoc.
    + rewrite individual_elem_skip in H1 by done. by injection H1 as <-.
Qed.

(** X20: the Families sheet has one row for each family record, in file
    order, and the names on it are looked up in the name map of all the
    individuals of the file, those that come after the family record as
    well; a husband, wife or child that is no individual of the file has
    an empty name. *)
Theorem X20_families_sheet (header elements : list Element) :
  ∃ wb, build_tables get_gender header elements = Some wb ∧
        let records := family_records elements in
        let names := (individuals_pass elements).1 in
        column "Family ID" (wb_families wb)
          = (λ x, sanitize_string (get_pointer x)) <$> records ∧
        column "Husband ID" (wb_families wb)
          = (λ x, sanitize_string (husband_id (read_family x))) <$> records ∧
        column "Husband Name" (wb_families wb)
          = (λ x, sanitize_string (name_of names (husband_id (read_family x))))
              <$> records ∧
        column "Wife ID" (wb_families wb)
          = (λ x, sanitize_string (wife_id (read_family x))) <$> records ∧
        column "Wife Name" (wb_families wb)
          = (λ x, sanitize_string (name_of names (wife_id (read_family x))))
              <$> records ∧
        column "Children IDs" (wb_families wb)
          = (λ x, sanitize_string
                    (join (u ", ") (children_ids (read_family x))))
              <$> records ∧
        column "Children Names" (wb_families wb)
          = (λ x, sanitize_string
                    (join (u ", ")
                       (name_of names <$> children_ids (read_family x))))
              <$> records.
Proof.
  destruct (build_tables_passes get_gender header elements)
    as (wb1 & wb2 & ids & wb & Hwb & H1 & H2 & _ & _ & _ & _ & Hfam & _ & _ &
        _ & Hfams & _).
  exists wb. split; [done|]. cbn zeta. rewrite Hfams.
  pose proof (individuals_pass_names elements _ _ no_individuals H1) as Hn.
  change (foldl add_individual _ elements) with (individuals_pass elements)
    in Hn.
  assert (∀ c f,
            (∀ x names v notes,
               cell_of (family_row (get_pointer x) (husband_id (read_family x))
                          (wife_id (read_family x))
                          (children_ids (read_family x)) names v notes) (u c)
               = Some (f names x)) →
            column c (wb_families wb2)
            = f (individuals_pass elements).1 <$> family_records elements)
    as Hcol.
  { intros c f Hc. rewrite (families_pass_column c f elements _ _ Hc H2).
    by rewrite Hfam, column_new_table, Hn. }
  split; [by apply (Hcol _ (λ _ x, _))|].
  split; [by apply (Hcol _ (λ _ x, _))|].
  split; [by apply (Hcol _ (λ names x, sanitize_string (name_of names _)))|].
  split; [by apply (Hcol _ (λ _ x, _))|].
  split; [by apply (Hcol _ (λ names x, sanitize_string (name_of names _)))|].
  split; [by apply (Hcol _ (λ _ x, _))|].
  by apply (Hcol _ (λ names x,
                      sanitize_string (join _ (name_of names <$> _)))).
Qed.

End Linking.

(** *** The update and the linker *)

(** The update of one row, column by column. *)
Lemma update_cells_columns (id_to_name : gmap str str) (ix : rel_index)
    (d d' : table) (i : nat) (id : str) :
  update_cells id_to_name ix d i id = Some d' →
  linker_view d' =
  mkIndividuals (column "ID" d) (column "Name" d)
    (set_opt i (new_father_id ix id) (column "Father ID" d))
    (set_opt i (new_mother_id ix id) (column "Mother ID" d))
    (set_opt i (new_father_name id_to_name ix id) (column "Father Name" d))
    (set_opt i (new_mother_name id_to_name ix id) (column "Mother Name" d))
    (set_opt i (new_spouse_id ix id) (column "Spouse ID" d))
    (set_opt i (new_spouse_name id_to_name ix id) (column "Spouse Name" d))
    (set_opt i (new_children_ids ix id) (column "Children IDs" d))
    (set_opt i (new_children_names id_to_name ix id)
       (column "Children Names" d)).
Proof.
  intros H. apply update_cells_inv in H as (d1 & d2 & H1 & H2 & H3).
  unfold linker_view, new_father_id, new_mother_id, new_father_name,
    new_mother_name, new_spouse_id, new_spouse_name, new_children_ids,
    new_children_names.
  destruct (id_to_children ix !! id) as [children|];
    [|injection H3 as <-];
    (destruct (id_to_spouses ix !! id) as [spouses|];
       [|injection H2 as <-]);
    (destruct (child_to_parents ix !! id) as [[father mother]|];
       [|injection H1 as <-]);
    cbn [fmap option_fmap option_map set_opt fst snd];
    f_equal;
    repeat match goal with
           | H : set_cells _ _ _ = Some ?d |- context [column ?c ?d] =>
               column_back c H
           end; reflexivity.
Qed.

Lemma update_table_columns (id_to_name : gmap str str) (ix : rel_index)
    (ids : list str) (d d' : table) (i : nat) :
  update_table id_to_name ix i ids d = Some d' →
  updated id_to_name ix i ids (linker_view d) (linker_view d').
Proof.
  revert i d. induction ids as [|id rest IH]; intros i d H.
  - injection H as <-. by unfold updated.
  - simpl in H. apply bind_Some in H as (d1 & H1 & H).
    specialize (IH _ _ H). apply update_cells_columns in H1.
    unfold updated in *. rewrite H1 in IH. simpl in *. done.
Qed.

Section Agreement.
Context (get_gender : Element → str).

Lemma individuals_pass_view (elements : list Element) (wb1 : workbook) :
  for_each (individual_elem get_gender) new_workbook elements = Some wb1 →
  linker_view (wb_individuals wb1) = (individuals_pass elements).2.
Proof.
  intros H1.
  assert (∀ c f j,
            (∀ x v notes,
               individual_row (get_pointer x) (display_name x)
                 (get_gender x) v notes !! j = Some (c, f x)) →
            column c (wb_individuals wb1) = f <$> individuals_of elements)
    as Hcol.
  { intros c f j Hc.
    assert (∀ x v notes,
              cell_of (individual_row (get_pointer x) (display_name x)
                         (get_gender x) v notes) (u c) = Some (f x)) as Hcell.
    { intros x v notes. apply (cell_of_lookup _ j); [by_evaluation|apply Hc]. }
    rewrite (individuals_pass_column get_gender c f elements _ _ Hcell H1).
    cbn [new_workbook wb_individuals]. by rewrite column_new_table. }
  destruct (individuals_pass_columns elements) as [Eid Ename].
  destruct (individuals_pass_table elements) as [_ Hun].
  unfold unlinked in Hun. rewrite Eid, length_fmap in Hun.
  destruct (individuals_pass elements).2.
  simpl in Eid, Ename, Hun.
  destruct Hun as (-> & -> & -> & -> & -> & -> & -> & ->). subst.
  unfold linker_view.
  rewrite (Hcol "ID"%string (λ x, sanitize_string (get_pointer x)) 0%nat),
    (Hcol "Name"%string (λ x, sanitize_string (display_name x)) 1%nat),
    (Hcol "Father ID"%string (λ _, []) 16%nat),
    (Hcol "Mother ID"%string (λ _, []) 17%nat),
    (Hcol "Father Name"%string (λ _, []) 18%nat),
    (Hcol "Mother Name"%string (λ _, []) 19%nat),
    (Hcol "Spouse ID"%string (λ _, []) 20%nat),
    (Hcol "Spouse Name"%string (λ _, []) 21%nat),
    (Hcol "Children IDs"%string (λ _, []) 22%nat),
    (Hcol "Children Names"%string (λ _, []) 23%nat) by reflexivity.
  by rewrite (const_fmap (λ _ : Element, @nil N) _ []).
Qed.

(** X21: what the other passes do to the tables does not reach the
    linker.  The name map and the index of the whole run are those of
    the three linking passes alone, and so are the id, the name and the
    eight relationship columns of the Individuals sheet. *)
Theorem X21_sheet_is_the_linked_table (header elements : list Element) :
  ∃ wb, build_tables get_gender header elements = Some wb ∧
        wb_id_to_name wb = (individuals_pass elements).1 ∧
        wb_index wb = families_pass elements ∧
        link_relationships elements = inr (linker_view (wb_individuals wb)).
Proof.
  destruct (build_tables_passes get_gender header elements)
    as (wb1 & wb2 & ids & wb & Hwb & H1 & H2 & Hids & Hup & Hrect & Hix & _ &
        _ & Hnames & Hindex & _).
  exists wb. split; [done|].
  pose proof (individuals_pass_names get_gender elements _ _ no_individuals H1)
    as Hn.
  change (foldl add_individual _ elements) with (individuals_pass elements)
    in Hn.
  destruct (families_pass_index elements _ _ H2) as [Hi _].
  rewrite Hix in Hi. fold (families_pass elements) in Hi.
  rewrite Hnames, Hindex. split; [done|]. split; [done|].
  destruct (link_relationships_updated elements) as (t & -> & _ & Ht).
  f_equal. apply update_table_columns in Hup.
  pose proof (individuals_pass_view elements wb1 H1) as Hview.
  assert (ids = col_ID (individuals_pass elements).2) as ->.
  { rewrite <- Hview. unfold linker_view, column. simpl col_ID.
    by rewrite Hids. }
  rewrite Hview, Hi, Hn in Hup.
  destruct t, (linker_view (wb_individuals wb)).
  unfold updated in Ht, Hup. simpl in Ht, Hup.
  destruct Ht as (?&?&?&?&?&?&?&?&?&?), Hup as (?&?&?&?&?&?&?&?&?&?).
  f_equal; congruence.
Qed.

End Agreement.
